(** * The Hermes IR core (lib/IR/IR.cpp): a shallow embedding and its properties

    Conventions of the embedding.
    - A pointer to a [Value] is a [ValueId]; the null pointer is [None] of
      [option ValueId].
    - Fields of objects live in finite maps from the object's identity to the
      field's contents; an object that has no entry has the empty list.
    - A failed [assert], an [llvm_unreachable] and an access outside a vector
      are contract failures (section 7 of the specification): the operation
      yields [None].  A normal return yields [Some] of the new state.
    - An [Identifier] is an interned string, so two identifiers are the same
      exactly when their strings are. *)

From Stdlib Require Import ZArith NArith Ascii String List Lia.
From stdpp Require Import gmap strings list pretty.

Open Scope string_scope.
Open Scope list_scope.

(** ** Internal names: [stripInternalNameSuffix] and
       [Module::deriveUniqueInternalName] *)

Module Names.

Abbreviation Identifier := string.

(** [c >= '0' && c <= '9'] *)
Definition isDigit (c : ascii) : bool :=
  (Ascii.leb "0" c && Ascii.leb c "9")%bool.

(** [s[i] == c], false outside the string. *)
Definition charIs (s : list ascii) (i : nat) (c : ascii) : bool :=
  match s !! i with
  | Some d => Ascii.eqb d c
  | None => false
  end.

(** [s[i] >= '0' && s[i] <= '9'], false outside the string. *)
Definition digitAt (s : list ascii) (i : nat) : bool :=
  match s !! i with
  | Some d => isDigit d
  | None => false
  end.

(** The loop [while (e != begin && e[-1] is a digit) --e;] where [e] is kept
    as an offset from [begin]. *)
Fixpoint skipDigits (s : list ascii) (e : nat) : nat :=
  match e with
  | 0 => 0
  | S e' => if digitAt s e' then skipDigits s e' else e
  end.

(** [stripInternalNameSuffix] on the characters of the name: the offset at
    which the name is cut, or [None] when the name is returned as it is. *)
Definition suffixStart (s : list ascii) : option nat :=
  let n := length s in
  if negb ((3 <=? n)%nat && charIs s (n - 1) "#" && digitAt s (n - 2))
  then None
  else
    let e := skipDigits s (n - 2) in
    if negb (negb (e =? 0)%nat && charIs s (e - 1) " ")
    then None
    else Some (e - 1).

Definition stripInternalNameSuffix (originalName : Identifier) : Identifier :=
  let originalStr := list_ascii_of_string originalName in
  match suffixStart originalStr with
  | None => originalName
  | Some e => string_of_list_ascii (take e originalStr)
  end.

(** The counter of [internalNamesMap_] is an [unsigned]: [++] wraps. *)
Definition incrCounter (c : N) : N := ((c + 1) mod 2 ^ 32)%N.

(** [snprintf(itoaBuf, sizeof(itoaBuf), "%u", counter)] *)
Definition itoa (c : N) : string := pretty c.

(** [Module::deriveUniqueInternalName], on the module's [internalNamesMap_]:
    the derived name and the updated map. *)
Definition deriveUniqueInternalName
    (originalName : Identifier) (internalNamesMap_ : gmap string N)
  : Identifier * gmap string N :=
  let originalName := stripInternalNameSuffix originalName in
  match internalNamesMap_ !! originalName with
  | None => (originalName, <[originalName := 0%N]> internalNamesMap_)
  | Some c =>
      let c' := incrCounter c in
      (originalName +:+ " " +:+ itoa c' +:+ "#",
       <[originalName := c']> internalNamesMap_)
  end.

(** The names derived for a sequence of requests, in order, starting from the
    given map (one [Function] is constructed per request). *)
Fixpoint deriveAll (requests : list Identifier) (m : gmap string N)
  : list Identifier :=
  match requests with
  | [] => []
  | r :: rest =>
      let '(name, m') := deriveUniqueInternalName r m in
      name :: deriveAll rest m'
  end.

(** The shape [" " digit+ "#"], as the specification words it. *)
Definition allDigits (ds : string) : Prop :=
  Forall (fun c => isDigit c = true) (list_ascii_of_string ds).

Definition hasSuffixShape (name base : string) : Prop :=
  exists ds, ds <> "" /\ allDigits ds /\ name = base +:+ " " +:+ ds +:+ "#".

End Names.


(** ** The use-def registry: [Value], [Instruction], [BasicBlock] *)

Module IR.

(** The identity (address) of a [Value]. *)
Abbreviation ValueId := nat.

(** [Value::Use]: the producer and the index of the use in the producer's
    [Users]; [{nullptr, 0}] is [(None, 0)]. *)
Abbreviation Use := (option nat * nat)%type.

Record State : Type := mkState {
  (** [Value::Users], per value *)
  Users : gmap nat (list nat);
  (** [Instruction::Operands], per instruction *)
  Operands : gmap nat (list Use);
  (** [BasicBlock::InstList], per basic block *)
  InstList : gmap nat (list nat);
  (** [Instruction::Parent] (a block) and [BasicBlock::Parent] (a function) *)
  Parent : gmap nat nat;
  (** [Function::BasicBlockList], per function *)
  BasicBlockList : gmap nat (list nat)
}.

Definition emptyState : State := mkState ∅ ∅ ∅ ∅ ∅.

Definition users (h : State) (v : ValueId) : list ValueId :=
  default [] (Users h !! v).
Definition operands (h : State) (i : ValueId) : list Use :=
  default [] (Operands h !! i).
Definition instList (h : State) (bb : ValueId) : list ValueId :=
  default [] (InstList h !! bb).
Definition basicBlockList (h : State) (f : ValueId) : list ValueId :=
  default [] (BasicBlockList h !! f).

Definition setUsers (h : State) (v : ValueId) (l : list ValueId) : State :=
  mkState (<[v := l]> (Users h)) (Operands h) (InstList h) (Parent h)
          (BasicBlockList h).
Definition setOperands (h : State) (i : ValueId) (l : list Use) : State :=
  mkState (Users h) (<[i := l]> (Operands h)) (InstList h) (Parent h)
          (BasicBlockList h).
Definition setInstList (h : State) (bb : ValueId) (l : list ValueId) : State :=
  mkState (Users h) (Operands h) (<[bb := l]> (InstList h)) (Parent h)
          (BasicBlockList h).
Definition setParent (h : State) (i bb : ValueId) : State :=
  mkState (Users h) (Operands h) (InstList h) (<[i := bb]> (Parent h))
          (BasicBlockList h).
Definition setBasicBlockList (h : State) (f : ValueId) (l : list ValueId)
  : State :=
  mkState (Users h) (Operands h) (InstList h) (Parent h)
          (<[f := l]> (BasicBlockList h)).

(** [Value::destroy] of an [Instruction]: its fields are gone. *)
Definition destroyInstruction (h : State) (i : ValueId) : State :=
  mkState (delete i (Users h)) (delete i (Operands h)) (InstList h)
          (delete i (Parent h)) (BasicBlockList h).

(** [Value::destroy] of a [BasicBlock]. *)
Definition destroyBasicBlock (h : State) (bb : ValueId) : State :=
  mkState (delete bb (Users h)) (Operands h) (delete bb (InstList h))
          (delete bb (Parent h)) (BasicBlockList h).

(** [Value::getNumUsers], [hasUsers], [hasOneUser], [hasUser] *)
Definition getNumUsers (h : State) (v : ValueId) : nat := length (users h v).
Definition hasUsers (h : State) (v : ValueId) : bool :=
  negb (getNumUsers h v =? 0)%nat.
Definition hasOneUser (h : State) (v : ValueId) : bool :=
  (1 =? getNumUsers h v)%nat.
Definition hasUser (h : State) (v other : ValueId) : bool :=
  bool_decide (other ∈ users h v).

(** [Instruction::getOperand] and [getNumOperands] *)
Definition getOperand (h : State) (i : ValueId) (Index : nat)
  : option (option ValueId) :=
  fst <$> operands h i !! Index.
Definition getNumOperands (h : State) (i : ValueId) : nat :=
  length (operands h i).

(** The first position of a vector whose element satisfies [P]: the scans
    [for (i = 0; i < e; i++) if (...) { ...; return; }]. *)
Definition findFirst {A} (P : A -> Prop) `{!forall x, Decision (P x)}
    (l : list A) : option nat :=
  fst <$> list_find P l.

(** [Value::removeUse] *)
Definition removeUse (h : State) (this : ValueId) (U : Use) : option State :=
  let us := users h this in
  if negb (hasUsers h this) then None
  else if negb (bool_decide (U.1 = Some this)) then None
  else
    back ← last us;
    _ ← us !! U.2;
    let us' := take (length us - 1) (<[U.2 := back]> us) in
    let h1 := setUsers h this us' in
    if bool_decide (U.2 ≠ length us') then
      let oldUse : Use := (Some this, length us') in
      moved ← us' !! U.2;
      let ops := operands h1 moved in
      match findFirst (fun u => u = oldUse) ops with
      | Some i => Some (setOperands h1 moved (<[i := (Some this, U.2)]> ops))
      | None => None
      end
    else Some h1.

(** [Value::addUser] *)
Definition addUser (h : State) (this Inst : ValueId) : State * Use :=
  let us := users h this in
  (setUsers h this (us ++ [Inst]), (Some this, length us)).

Section Operands.

(** The instruction catalogue ([Instrs.def], [Instrs.h]) is a collaborator:
    the kind of each value and the per-kind legality predicate.  With a
    predicate that accepts every operand the [canSetOperand] assertion of
    [setOperand] never fails, as in a build without assertions. *)
Context {ValueKind : Type}.
Variable getKind : ValueId -> ValueKind.
Variable canSetOperandImpl : ValueKind -> ValueKind -> nat -> bool.

(** [Instruction::canSetOperand] *)
Definition canSetOperand (this : ValueId) (kind : ValueKind) (index : nat)
  : bool :=
  canSetOperandImpl (getKind this) kind index.

(** [Instruction::setOperand] *)
Definition setOperand (h : State) (this : ValueId) (Val : option ValueId)
    (Index : nat) : option State :=
  cur ← operands h this !! Index;
  let CurrentValue := cur.1 in
  if bool_decide (CurrentValue = Val) then Some h
  else
    h1 ← match CurrentValue with
         | Some c => removeUse h c cur
         | None => Some h
         end;
    match Val with
    | Some v =>
        if canSetOperand this (getKind v) Index then
          let '(h2, u) := addUser h1 v this in
          Some (setOperands h2 this (<[Index := u]> (operands h2 this)))
        else None
    | None =>
        Some (setOperands h1 this (<[Index := (None, 0)]> (operands h1 this)))
    end.

(** [Instruction::pushOperand] *)
Definition pushOperand (h : State) (this : ValueId) (Val : option ValueId)
  : option State :=
  let h1 := setOperands h this (operands h this ++ [(None, 0)]) in
  setOperand h1 this Val (getNumOperands h1 this - 1).

(** [Instruction::removeOperand] *)
Definition removeOperand (h : State) (this : ValueId) (index : nat)
  : option State :=
  h1 ← setOperand h this None index;
  Some (setOperands h1 this (delete index (operands h1 this))).

(** [Instruction::replaceFirstOperandWith] *)
Definition replaceFirstOperandWith (h : State) (this : ValueId)
    (OldValue NewValue : option ValueId) : option State :=
  match findFirst (fun u : Use => u.1 = OldValue) (operands h this) with
  | Some i => setOperand h this NewValue i
  | None => None
  end.

(** The first loop of [Instruction::eraseOperand], over the positions
    [0 .. e-1]. *)
Definition eraseOperandStep (this Value : ValueId) (acc : option State)
    (i : nat) : option State :=
  h ← acc;
  o ← getOperand h this i;
  if bool_decide (o = Some Value) then setOperand h this None i else Some h.

(** [Instruction::eraseOperand] *)
Definition eraseOperand (h : State) (this Value : ValueId) : option State :=
  h1 ← foldl (eraseOperandStep this Value) (Some h)
             (seq 0 (getNumOperands h this));
  let h2 := setOperands h1 this
              (filter (fun u : Use => u.1 ≠ None) (operands h1 this)) in
  if hasUser h2 Value this then None else Some h2.

(** The loop of [Value::replaceAllUsesWith]; each round takes one use off
    [Users], so [fuel] rounds are enough when [fuel] is the number of users. *)
Fixpoint replaceAllUsesLoop (fuel : nat) (h : State) (this : ValueId)
    (Other : option ValueId) : option State :=
  match last (users h this) with
  | None => Some h
  | Some u =>
      match fuel with
      | 0 => None
      | S fuel' =>
          h' ← replaceFirstOperandWith h u (Some this) Other;
          replaceAllUsesLoop fuel' h' this Other
      end
  end.

(** [Value::replaceAllUsesWith] *)
Definition replaceAllUsesWith (h : State) (this : ValueId)
    (Other : option ValueId) : option State :=
  if bool_decide (Some this = Other) then Some h
  else replaceAllUsesLoop (getNumUsers h this) h this Other.

(** The loop of [Value::removeAllUses]. *)
Fixpoint removeAllUsesLoop (fuel : nat) (h : State) (this : ValueId)
  : option State :=
  match last (users h this) with
  | None => Some h
  | Some u =>
      match fuel with
      | 0 => None
      | S fuel' =>
          h' ← eraseOperand h u this;
          removeAllUsesLoop fuel' h' this
      end
  end.

(** [Value::removeAllUses] *)
Definition removeAllUses (h : State) (this : ValueId) : option State :=
  removeAllUsesLoop (getNumUsers h this) h this.

(** [BasicBlock::erase]: [InstList.erase(I)] unlinks the instruction and
    deletes it. *)
Definition BasicBlock_erase (h : State) (this I : ValueId) : State :=
  destroyInstruction
    (setInstList h this (filter (fun x => x <> I) (instList h this))) I.

(** [BasicBlock::remove]: unlink only. *)
Definition BasicBlock_remove (h : State) (this I : ValueId) : State :=
  setInstList h this (filter (fun x => x <> I) (instList h this)).

(** The loop of [Instruction::eraseFromParent]. *)
Definition releaseOperandStep (this : ValueId) (acc : option State) (i : nat)
  : option State :=
  h ← acc; setOperand h this None i.

(** [Instruction::eraseFromParent] *)
Definition Instruction_eraseFromParent (h : State) (this : ValueId)
  : option State :=
  h1 ← foldl (releaseOperandStep this) (Some h)
             (seq 0 (getNumOperands h this));
  bb ← Parent h1 !! this;
  Some (BasicBlock_erase h1 bb this).

(** The loop of [BasicBlock::eraseFromParent]; each round erases the head
    of the block, so [fuel] rounds are enough when [fuel] is the number of
    instructions. *)
Fixpoint eraseInstructionsLoop (fuel : nat) (h : State) (this : ValueId)
  : option State :=
  match instList h this with
  | [] => Some h
  | head :: _ =>
      match fuel with
      | 0 => None
      | S fuel' =>
          h1 ← replaceAllUsesWith h head None;
          h2 ← Instruction_eraseFromParent h1 head;
          eraseInstructionsLoop fuel' h2 this
      end
  end.

(** [BasicBlock::eraseFromParent] *)
Definition BasicBlock_eraseFromParent (h : State) (this : ValueId)
  : option State :=
  h1 ← eraseInstructionsLoop (length (instList h this)) h this;
  if hasUsers h1 this then None
  else
    f ← Parent h1 !! this;
    Some (destroyBasicBlock
            (setBasicBlockList h1 f
               (filter (fun x => x <> this) (basicBlockList h1 f)))
            this).

(** [ilist::insert(Later->getIterator(), I)]: [I] is linked in before
    [Later]. *)
Definition insertBeforeInList (l : list ValueId) (Later I : ValueId)
  : option (list ValueId) :=
  k ← findFirst (fun x => x = Later) l;
  Some (take k l ++ I :: drop k l).

(** [Instruction::moveBefore] *)
Definition moveBefore (h : State) (this Later : ValueId) : option State :=
  if bool_decide (this = Later) then Some h
  else
    bb ← Parent h !! this;
    let h1 := BasicBlock_remove h bb this in
    bb' ← Parent h1 !! Later;
    l ← insertBeforeInList (instList h1 bb') Later this;
    Some (setParent (setInstList h1 bb' l) this bb').

(** The operand-list operations, as commands. *)
Inductive Op : Type :=
| OpPushOperand (this : ValueId) (Val : option ValueId)
| OpSetOperand (this : ValueId) (Val : option ValueId) (Index : nat)
| OpRemoveOperand (this : ValueId) (index : nat)
| OpReplaceFirstOperandWith (this : ValueId) (OldValue NewValue : option ValueId)
| OpEraseOperand (this : ValueId) (Value : ValueId)
| OpReplaceAllUsesWith (this : ValueId) (Other : option ValueId)
| OpRemoveAllUses (this : ValueId).

Definition runOp (h : State) (op : Op) : option State :=
  match op with
  | OpPushOperand i v => pushOperand h i v
  | OpSetOperand i v k => setOperand h i v k
  | OpRemoveOperand i k => removeOperand h i k
  | OpReplaceFirstOperandWith i o n => replaceFirstOperandWith h i o n
  | OpEraseOperand i v => eraseOperand h i v
  | OpReplaceAllUsesWith v w => replaceAllUsesWith h v w
  | OpRemoveAllUses v => removeAllUses h v
  end.

(** A sequence of operations, each on the state the previous one left. *)
Fixpoint runOps (h : State) (ops : list Op) : option State :=
  match ops with
  | [] => Some h
  | op :: rest => h' ← runOp h op; runOps h' rest
  end.

End Operands.

(** Invariant 1 of the specification (bidirectional consistency). *)
Definition UseDefConsistent (h : State) : Prop :=
  (forall I k p j,
      operands h I !! k = Some (Some p, j) -> users h p !! j = Some I) /\
  (forall p j I,
      users h p !! j = Some I ->
      exists k, operands h I !! k = Some (Some p, j) /\
                forall k', operands h I !! k' = Some (Some p, j) -> k' = k).

(** The producers held by the operand slots of an instruction:
    [getOperand(0)], [getOperand(1)], ... *)
Definition producers (h : State) (i : ValueId) : list (option ValueId) :=
  (operands h i).*1.

(** Every operand slot of [h] that holds [v] may receive [w]: the
    [canSetOperand] assertion of [setOperand] will hold. *)
Definition mayReplace {ValueKind : Type} (getKind : ValueId -> ValueKind)
    (canSetOperandImpl : ValueKind -> ValueKind -> nat -> bool)
    (h : State) (v : ValueId) (w : option ValueId) : Prop :=
  forall w' u k j,
    w = Some w' -> operands h u !! k = Some (Some v, j) ->
    canSetOperand getKind canSetOperandImpl u (getKind w') k = true.

(** The contract of each operation: the conditions that its assertions
    check on a consistent state. *)
Definition opContract {ValueKind : Type} (getKind : ValueId -> ValueKind)
    (canSetOperandImpl : ValueKind -> ValueKind -> nat -> bool)
    (h : State) (op : Op) : Prop :=
  match op with
  | OpPushOperand i v =>
      forall w, v = Some w ->
        canSetOperand getKind canSetOperandImpl i (getKind w)
          (getNumOperands h i) = true
  | OpSetOperand i v k =>
      k < getNumOperands h i /\
      forall w, v = Some w -> producers h i !! k <> Some v ->
        canSetOperand getKind canSetOperandImpl i (getKind w) k = true
  | OpRemoveOperand i k => k < getNumOperands h i
  | OpReplaceFirstOperandWith i o n =>
      o ∈ producers h i /\
      forall w k, n = Some w -> producers h i !! k = Some o -> o <> n ->
        canSetOperand getKind canSetOperandImpl i (getKind w) k = true
  | OpEraseOperand _ _ => True
  | OpReplaceAllUsesWith v w => mayReplace getKind canSetOperandImpl h v w
  | OpRemoveAllUses _ => True
  end.

(** Containment: the instructions linked in a block have the block as
    their parent. *)
Definition blockContains (h : State) (bb : ValueId) : Prop :=
  Forall (fun i => Parent h !! i = Some bb) (instList h bb).

(** An instruction catalogue that accepts every operand, for examples. *)
Definition anyKind (_ : ValueId) : unit := tt.
Definition anyOperand (_ _ : unit) (_ : nat) : bool := true.

(** *** Notions used in the proofs *)

(** The invariant with one operand slot left out: the state between
    unregistering the old use of a slot and writing the slot. *)
Definition live (hole : option (ValueId * nat)) (I : ValueId) (k : nat) : Prop :=
  hole <> Some (I, k).

Record InvH (hole : option (ValueId * nat)) (h : State) : Prop := {
  inv_fwd : forall I k p j,
    live hole I k -> operands h I !! k = Some (Some p, j) ->
    users h p !! j = Some I;
  inv_inj : forall I k k' p j,
    live hole I k -> live hole I k' ->
    operands h I !! k = Some (Some p, j) ->
    operands h I !! k' = Some (Some p, j) -> k = k';
  inv_surj : forall p j I,
    users h p !! j = Some I ->
    exists k, live hole I k /\ operands h I !! k = Some (Some p, j)
}.

(** The non-null slots of an operand vector, in order. *)
Definition nonNull (u : Use) : Prop := u.1 <> None.

#[export] Instance nonNull_dec (u : Use) : Decision (nonNull u) :=
  decide (u.1 <> None).

Definition uses (h : State) (i : ValueId) : list Use :=
  filter nonNull (operands h i).

(** The effect of [setOperand h I v k] on a consistent state, where the slot
    held [cur]. *)
Record SetOperandPost (h h' : State) (I : ValueId) (k : nat) (cur : Use)
    (v : option ValueId) : Prop := {
  sop_inv : InvH None h';
  sop_prod : forall x,
    producers h' x =
    if decide (x = I) then <[k := v]> (producers h x) else producers h x;
  sop_users_other : forall p,
    Some p <> cur.1 -> Some p <> v -> users h' p = users h p;
  sop_users_old : forall c,
    cur.1 = Some c -> v <> Some c ->
    length (users h' c) = length (users h c) - 1;
  sop_users_sub : forall p,
    v <> Some p -> users h' p ⊆ users h p;
  sop_insts : InstList h' = InstList h;
  sop_parent : Parent h' = Parent h;
  sop_blocks : BasicBlockList h' = BasicBlockList h
}.

(** What operations that only write null into operand slots leave alone:
    no value gains a user, no operand vector changes its size, and the
    containers are untouched. *)
Record Shrinks (h h' : State) : Prop := {
  shr_users : forall p, users h' p ⊆ users h p;
  shr_size : forall x, length (producers h' x) = length (producers h x);
  shr_insts : InstList h' = InstList h;
  shr_parent : Parent h' = Parent h;
  shr_blocks : BasicBlockList h' = BasicBlockList h
}.

(** An erased instruction: no users, no operands. *)
Definition dead (h : State) (p : ValueId) : Prop :=
  users h p = [] /\ operands h p = [].

(** The loop invariant of [BasicBlock::eraseFromParent]: [h] is the state
    at the call and [hi] the state after some rounds. *)
Record EraseInv (h hi : State) (bb : ValueId) : Prop := {
  ei_inv : InvH None hi;
  ei_contains : blockContains hi bb;
  ei_sub : instList hi bb ⊆ instList h bb;
  ei_dead : forall p, p ∈ instList h bb -> p ∉ instList hi bb -> dead hi p;
  ei_users : forall p, users hi p ⊆ users h p;
  ei_parent : forall x, x ∉ instList h bb -> Parent hi !! x = Parent h !! x;
  ei_blocks : BasicBlockList hi = BasicBlockList h
}.

(** Part of the slots that held [v] in [h] hold [w] in [hi]; nothing else
    differs. *)
Definition partlyReplaced (h hi : State) (v : ValueId) (w : option ValueId)
  : Prop :=
  forall u k,
    producers hi u !! k = producers h u !! k \/
    (producers h u !! k = Some (Some v) /\ producers hi u !! k = Some w).

End IR.

(** ** The type lattice: [Type::print] *)

Module TypeLattice.

Section Print.

(** The enumeration [Type::TypeKind] and [Type::getKindStr] are declared in
    IR.h: [LAST_TYPE] kinds, numbered from 0, three of which are [Object],
    [Closure] and [RegExp].  The enumeration is small enough for [1 << i]
    not to overflow. *)
Variable LAST_TYPE : nat.
Variables Object Closure RegExp : nat.
Variable getKindStr : nat -> string.

(** The condition [bitmask_ & (1 << i)]. *)
Definition hasBit (bitmask_ : Z) (i : nat) : bool :=
  negb (Z.land bitmask_ (Z.shiftl 1 (Z.of_nat i)) =? 0)%Z.

(** Modelled from the spec: [Type::isClosureType] and [Type::isRegExpType]
    are declared in IR.h; section 4.7 says that such queries are bit tests
    and that the object annotation is dropped when either the closure or the
    regex bit is set. *)
Definition isClosureType (bitmask_ : Z) : bool := hasBit bitmask_ Closure.
Definition isRegExpType (bitmask_ : Z) : bool := hasBit bitmask_ RegExp.

(** One round of the loop of [Type::print]: [first] and the text written to
    [OS] so far. *)
Definition printStep (bitmask_ : Z) (st : bool * string) (i : nat)
  : bool * string :=
  let '(first, OS) := st in
  if (i =? Object)%nat && (isClosureType bitmask_ || isRegExpType bitmask_)
  then st
  else if hasBit bitmask_ i then
    (false, (if first then OS else OS +:+ "|") +:+ getKindStr i)
  else st.

(** [Type::print]: the text of [OS] after the call. *)
Definition print (bitmask_ : Z) (OS : string) : string :=
  (foldl (printStep bitmask_) (true, OS) (seq 0 LAST_TYPE)).2.

(** Modelled from the spec: the union of the lattice is the union of the
    bit sets. *)
Definition unionTy (A B : Z) : Z := Z.lor A B.

(** The specification's reading of the printed form: the kinds whose bit is
    set, in enumeration order, without [Object] when the closure or the
    regex bit is set. *)
Definition isSet (bitmask_ : Z) (i : nat) : Prop :=
  Z.testbit bitmask_ (Z.of_nat i) = true.

Definition printed (bitmask_ : Z) (i : nat) : Prop :=
  isSet bitmask_ i /\
  ~ (i = Object /\ (isSet bitmask_ Closure \/ isSet bitmask_ RegExp)).

#[export] Instance printed_dec bitmask_ i : Decision (printed bitmask_ i).
Proof. unfold printed, isSet. apply _. Defined.

Definition printedKinds (bitmask_ : Z) : list nat :=
  filter (printed bitmask_) (seq 0 LAST_TYPE).

(** The names separated by ["|"]. *)
Fixpoint joinKinds (names : list string) : string :=
  match names with
  | [] => ""
  | [n] => n
  | n :: rest => n +:+ "|" +:+ joinKinds rest
  end.

End Print.

End TypeLattice.

(** ** Literal interning: [Module::getLiteralNumber], [getLiteralString],
       [getLiteralBool] *)

Module Literals.

(** A [double] is represented by its 64 bits (IEEE 754 binary64), so two
    doubles are bitwise equal exactly when they are equal here. *)
Abbreviation double := N.

Definition positiveZero : double := 0%N.
Definition negativeZero : double := (2 ^ 63)%N.

(** Modelled from the spec: [LiteralNumber::Profile] and
    [LiteralString::Profile] are declared in IR.h; the specification says
    that numbers are interned by their bitwise profile and strings by the
    identity of the identifier.  The profile is the key under which the
    [FoldingSet] files the literal. *)
Definition profileNumber (value : double) : N := value.
Definition profileString (value : string) : string := value.

(** The part of a [Module] that interning touches.  [nextObject] is the
    address that the next [new] returns: the objects allocated so far have
    smaller addresses. *)
Record LiteralTables : Type := mkLiteralTables {
  literalNumbers : gmap N nat;
  literalStrings : gmap string nat;
  literalTrue : nat;
  literalFalse : nat;
  nextObject : nat
}.

(** [Module::getLiteralNumber]: [FindNodeOrInsertPos] finds the node filed
    under the profile, otherwise a new [LiteralNumber] is inserted. *)
Definition getLiteralNumber (value : double) (M : LiteralTables)
  : nat * LiteralTables :=
  let ID := profileNumber value in
  match literalNumbers M !! ID with
  | Some LN => (LN, M)
  | None =>
      let New := nextObject M in
      (New, mkLiteralTables (<[ID := New]> (literalNumbers M))
              (literalStrings M) (literalTrue M) (literalFalse M) (S New))
  end.

(** [Module::getLiteralString] *)
Definition getLiteralString (value : string) (M : LiteralTables)
  : nat * LiteralTables :=
  let ID := profileString value in
  match literalStrings M !! ID with
  | Some LS => (LS, M)
  | None =>
      let New := nextObject M in
      (New, mkLiteralTables (literalNumbers M)
              (<[ID := New]> (literalStrings M))
              (literalTrue M) (literalFalse M) (S New))
  end.

(** [Module::getLiteralBool] *)
Definition getLiteralBool (value : bool) (M : LiteralTables) : nat :=
  if value then literalTrue M else literalFalse M.

(** Requests for literals, in the order in which a client makes them. *)
Inductive Request : Type :=
| ReqNumber (value : double)
| ReqString (value : string)
| ReqBool (value : bool).

Definition getLiteral (r : Request) (M : LiteralTables)
  : nat * LiteralTables :=
  match r with
  | ReqNumber x => getLiteralNumber x M
  | ReqString s => getLiteralString s M
  | ReqBool b => (getLiteralBool b M, M)
  end.

(** The objects returned for a sequence of requests on one module. *)
Fixpoint getLiterals (rs : list Request) (M : LiteralTables) : list nat :=
  match rs with
  | [] => []
  | r :: rest => let '(a, M') := getLiteral r M in a :: getLiterals rest M'
  end.

(** The module after the requests. *)
Fixpoint afterLiterals (rs : list Request) (M : LiteralTables)
  : LiteralTables :=
  match rs with
  | [] => M
  | r :: rest => afterLiterals rest (getLiteral r M).2
  end.

(** A freshly constructed module: no literal yet, the two boolean literals
    are members of the module. *)
Definition newModule : LiteralTables := mkLiteralTables ∅ ∅ 0 1 2.

(** The tables of a module file each literal once, and every literal was
    allocated before [nextObject]. *)
Definition tablesOk (M : LiteralTables) : Prop :=
  map_Forall (fun _ p => p < nextObject M) (literalNumbers M) /\
  map_Forall (fun _ p => p < nextObject M) (literalStrings M) /\
  (forall k1 k2 p, literalNumbers M !! k1 = Some p ->
                   literalNumbers M !! k2 = Some p -> k1 = k2) /\
  (forall k1 k2 p, literalStrings M !! k1 = Some p ->
                   literalStrings M !! k2 = Some p -> k1 = k2).

End Literals.

(** ** The function-use graph: [Module::populateCJSModuleUseGraph] and
       [Module::getFunctionsInSegment] *)

Module Segment.
Import IR.

(** The part of a [Module] that the segment query reads and writes: the IR
    (users of the functions, parents of instructions and blocks), the
    function list, the wrapper function of each entry of [cjsModules_], and
    the cached graph. *)
Record ModuleState : Type := mkModuleState {
  ir : State;
  FunctionList : list nat;
  cjsModules_ : list nat;
  cjsModuleUseGraph_ : gmap nat (gset nat)
}.

Definition setGraph (M : ModuleState) (g : gmap nat (gset nat)) : ModuleState :=
  mkModuleState (ir M) (FunctionList M) (cjsModules_ M) g.

Definition setIR (M : ModuleState) (h : State) : ModuleState :=
  mkModuleState h (FunctionList M) (cjsModules_ M) (cjsModuleUseGraph_ M).

(** The targets filed under a key; a key without entry has none. *)
Definition targetsOf (g : gmap nat (gset nat)) (k : nat) : gset nat :=
  default ∅ (g !! k).

(** [cjsModuleUseGraph_[k].insert(f)] *)
Definition addEdge (g : gmap nat (gset nat)) (k f : nat)
  : gmap nat (gset nat) :=
  <[k := {[f]} ∪ targetsOf g k]> g.

(** The body of the inner loop of [populateCJSModuleUseGraph]:
    [user->getParent()->getParent()] is the function that uses [f]. *)
Definition addUserEdge (h : State) (f : nat)
    (acc : option (gmap nat (gset nat))) (user : nat)
  : option (gmap nat (gset nat)) :=
  g ← acc;
  bb ← Parent h !! user;
  fn ← Parent h !! bb;
  Some (addEdge g fn f).

Definition addFunctionEdges (h : State)
    (acc : option (gmap nat (gset nat))) (f : nat)
  : option (gmap nat (gset nat)) :=
  foldl (addUserEdge h f) acc (users h f).

(** [Module::populateCJSModuleUseGraph] *)
Definition populateCJSModuleUseGraph (M : ModuleState) : option ModuleState :=
  if bool_decide (cjsModuleUseGraph_ M <> ∅) then Some M
  else
    g ← foldl (addFunctionEdges (ir M)) (Some ∅) (FunctionList M);
    Some (setGraph M g).

(** [SetVector::insert]: appended unless it is in the vector already. *)
Definition setVectorInsert (worklist : list nat) (x : nat) : list nat :=
  if bool_decide (x ∈ worklist) then worklist else worklist ++ [x].

(** [worklist.back()] and [worklist.pop_back()] *)
Definition popBack (worklist : list nat) : option (list nat * nat) :=
  match reverse worklist with
  | [] => None
  | cur :: rest => Some (reverse rest, cur)
  end.

(** The loop that fills the worklist with the wrapper functions of the
    modules [first .. last]. *)
Definition initialWorklist (cjs : list nat) (first last : nat)
  : option (list nat) :=
  foldl (fun acc i => wl ← acc; f ← cjs !! i; Some (setVectorInsert wl f))
        (Some []) (seq first (S last - first)).

Section Traversal.

(** The order in which a [DenseSet] is iterated is not specified: [enum]
    lists the elements of a set in some order. *)
Variable enum : gset nat -> list nat.

(** The worklist loop of [getFunctionsInSegment]. *)
Fixpoint searchLoop (fuel : nat) (g : gmap nat (gset nat))
    (worklist : list nat) (result : gset nat)
  : option (gset nat * gmap nat (gset nat)) :=
  match popBack worklist with
  | None => Some (result, g)
  | Some (worklist', cur) =>
      match fuel with
      | 0 => None
      | S fuel' =>
          if bool_decide (cur ∈ result) then
            searchLoop fuel' g worklist' result
          else
            let targets := targetsOf g cur in
            searchLoop fuel' (<[cur := targets]> g)
              (foldl setVectorInsert worklist' (enum targets))
              ({[cur]} ∪ result)
      end
  end.

(** The functions that can ever be on the worklist. *)
Definition universe (g : gmap nat (gset nat)) (worklist : list nat)
  : gset nat :=
  list_to_set worklist ∪ ⋃ (map_to_list g).*2.

(** A number of rounds that the loop cannot exceed: every function is
    taken off the worklist as unvisited at most once, and between two such
    rounds at most the whole worklist is taken off. *)
Definition searchFuel (g : gmap nat (gset nat)) (worklist : list nat) : nat :=
  S (size (universe g worklist)) * S (size (universe g worklist)).

(** [Module::getFunctionsInSegment] *)
Definition getFunctionsInSegment (first last : nat) (M : ModuleState)
  : option (gset nat * ModuleState) :=
  M1 ← populateCJSModuleUseGraph M;
  worklist ← initialWorklist (cjsModules_ M1) first last;
  let g := cjsModuleUseGraph_ M1 in
  '(result, g') ← searchLoop (searchFuel g worklist) g worklist ∅;
  Some (result, setGraph M1 g').

End Traversal.

(** The function that holds the instruction [user]:
    [user->getParent()->getParent()]. *)
Definition userFunction (h : State) (user : nat) : option nat :=
  Parent h !! user ≫= fun bb => Parent h !! bb.

(** The function-use graph of the IR: [g] uses [f] when an instruction of a
    block of [g] is a user of the function [f] of the module. *)
Definition usesFunction (M : ModuleState) (g f : nat) : Prop :=
  f ∈ FunctionList M /\
  exists user bb,
    user ∈ users (ir M) f /\
    Parent (ir M) !! user = Some bb /\ Parent (ir M) !! bb = Some g.

(** The edges of a cached graph. *)
Definition graphEdge (g : gmap nat (gset nat)) (a b : nat) : Prop :=
  b ∈ targetsOf g a.

(** The functions reached from the roots along the edges. *)
Inductive reachableFrom (edge : nat -> nat -> Prop) (roots : list nat)
  : nat -> Prop :=
| reach_root r : r ∈ roots -> reachableFrom edge roots r
| reach_step a b :
    reachableFrom edge roots a -> edge a b -> reachableFrom edge roots b.

(** The wrapper functions of the modules [first .. last]. *)
Definition wrappers (M : ModuleState) (first last : nat) : list nat :=
  take (S last - first) (drop first (cjsModules_ M)).

(** The edges that a query follows: those of the cached graph when there is
    one, those of the IR otherwise. *)
Definition edgesFollowed (M : ModuleState) (a b : nat) : Prop :=
  if decide (cjsModuleUseGraph_ M = ∅) then usesFunction M a b
  else graphEdge (cjsModuleUseGraph_ M) a b.

(** Every user of a function of the module is in a block of a function. *)
Definition usersPlaced (M : ModuleState) : Prop :=
  Forall (fun f =>
            Forall (fun user => is_Some (userFunction (ir M) user))
                   (users (ir M) f))
         (FunctionList M).

(** The invariant of the worklist loop: [g0] is the graph at the start,
    [U] a set that holds every function that enters the worklist. *)
Record SearchInv (g0 : gmap nat (gset nat)) (roots : list nat) (U : gset nat)
    (g : gmap nat (gset nat)) (worklist : list nat) (result : gset nat)
  : Prop := {
  si_graph : forall k, targetsOf g k = targetsOf g0 k;
  si_wl_reach : forall x,
    x ∈ worklist -> reachableFrom (graphEdge g0) roots x;
  si_res_reach : forall x,
    x ∈ result -> reachableFrom (graphEdge g0) roots x;
  si_roots : forall r, r ∈ roots -> r ∈ result \/ r ∈ worklist;
  si_closed : forall a b,
    a ∈ result -> b ∈ targetsOf g0 a -> b ∈ result \/ b ∈ worklist;
  si_nodup : NoDup worklist;
  si_wl_univ : forall x, x ∈ worklist -> x ∈ U;
  si_res_univ : result ⊆ U;
  si_targets_univ : forall a b, b ∈ targetsOf g0 a -> b ∈ U
}.

End Segment.

(** ** Example states *)

Module Examples.
Import IR.

Definition build (ops : list Op) : State :=
  default emptyState (runOps anyKind anyOperand emptyState ops).

(** The producer 1 with the users 21, 22 and 23, one operand each; then
    [22.setOperand(null, 0)]. *)
Definition swapOps : list Op :=
  [OpPushOperand 21 (Some 1); OpPushOperand 22 (Some 1);
   OpPushOperand 23 (Some 1); OpSetOperand 22 None 0].
Definition swapExample : State := build swapOps.

(** [I1 = add(x, y)] and [I2 = mul(I1, I1)], with [x = 1], [y = 2],
    [I1 = 10], [I2 = 11]. *)
Definition rauwOps : list Op :=
  [OpPushOperand 10 (Some 1); OpPushOperand 10 (Some 2);
   OpPushOperand 11 (Some 10); OpPushOperand 11 (Some 10)].
Definition rauwExample : State := build rauwOps.

(** Function 100 with the blocks 50 and 51.  Block 50 holds [I1], [I2] and
    a branch 13 back to block 50; block 51 holds the instruction 12, which
    uses [I1]. *)
Definition blockOps : list Op :=
  rauwOps ++ [OpPushOperand 12 (Some 10); OpPushOperand 13 (Some 50)].
Definition blockExample : State :=
  let h := build blockOps in
  mkState (Users h) (Operands h)
    (<[50 := [10; 11; 13]]> (<[51 := [12]]> ∅))
    (list_to_map [(10, 50); (11, 50); (13, 50); (12, 51); (50, 100); (51, 100)])
    (<[100 := [50; 51]]> ∅).

End Examples.

Module SegmentExamples.
Import IR Segment.

(** The wrappers [w0 .. w3] are the functions 100 .. 103; [w0] uses [w1] in
    the instruction 10 of its block 50, [w1] uses [w2] in the instruction 11
    of its block 51, and [w3] is isolated. *)
Definition segmentIR : State :=
  let h := Examples.build [OpPushOperand 10 (Some 101);
                           OpPushOperand 11 (Some 102)] in
  mkState (Users h) (Operands h)
    (<[50 := [10]]> (<[51 := [11]]> ∅))
    (list_to_map [(10, 50); (11, 51); (50, 100); (51, 101)])
    (<[100 := [50]]> (<[101 := [51]]> ∅)).

Definition segmentModule : ModuleState :=
  mkModuleState segmentIR [100; 101; 102; 103] [100; 101; 102; 103] ∅.

(** The module after a first query for the segment [0 .. 0] and a later
    [pushOperand] that makes [w0] use [w3]. *)
Definition staleModule : ModuleState :=
  match getFunctionsInSegment elements 0 0 segmentModule with
  | Some (_, M1) =>
      setIR M1 (default (ir M1)
                  (pushOperand anyKind anyOperand (ir M1) 10 (Some 103)))
  | None => segmentModule
  end.

End SegmentExamples.

(** ** Construction and erasure of instructions and functions *)

Module Build.
Import IR Segment.

Section Construct.

Context {ValueKind : Type}.
Variable getKind : ValueId -> ValueKind.
Variable canSetOperandImpl : ValueKind -> ValueKind -> nat -> bool.

(** [Instruction::Instruction(src, operands)]: [this] is the object under
    construction (so far without operands and without users), of the kind
    of [src]; the operands are pushed in order.  The type, the location and
    the statement index that the constructor copies from [src] are not part
    of the state. *)
Definition Instruction_copy (h : State) (this src : ValueId)
    (operands : list (option ValueId)) : option State :=
  if bool_decide (getNumOperands h src = length operands) then
    foldl (fun acc val => h ← acc; pushOperand getKind canSetOperandImpl h this val)
          (Some h) operands
  else None.

(** The loop of [Function::eraseFromParent]; each round erases the first
    block of the function, so [fuel] rounds are enough when [fuel] is the
    number of blocks. *)
Fixpoint eraseBlocksLoop (fuel : nat) (h : State) (this : ValueId)
  : option State :=
  match basicBlockList h this with
  | [] => Some h
  | head :: _ =>
      match fuel with
      | 0 => None
      | S fuel' =>
          h1 ← replaceAllUsesWith getKind canSetOperandImpl h head None;
          h2 ← BasicBlock_eraseFromParent getKind canSetOperandImpl h1 head;
          eraseBlocksLoop fuel' h2 this
      end
  end.

(** [Function::eraseFromParent]: the blocks are erased, then the function
    is unlinked from the function list of its module ([remove], so the
    function object itself stays). *)
Definition Function_eraseFromParent (M : ModuleState) (this : ValueId)
  : option ModuleState :=
  h1 ← eraseBlocksLoop (length (basicBlockList (ir M) this)) (ir M) this;
  if hasUsers h1 this then None
  else Some (mkModuleState h1 (filter (fun x => x <> this) (FunctionList M))
               (cjsModules_ M) (cjsModuleUseGraph_ M)).

End Construct.

(** Every block holds each of its instructions once, and is their parent. *)
Definition Linked (h : State) : Prop :=
  forall bb, blockContains h bb /\ NoDup (instList h bb).

(** Containment for a function: its blocks have it as their parent and
    contain their instructions; a block is none of its own instructions and
    the function is none of its own blocks. *)
Definition FunctionContains (h : State) (f : ValueId) : Prop :=
  (f ∉ basicBlockList h f) /\
  forall bb, bb ∈ basicBlockList h f ->
    Parent h !! bb = Some f /\ blockContains h bb /\ bb ∉ instList h bb.

(** The loop invariant of [Function::eraseFromParent]: [h] is the state at
    the call and [hi] the state after some rounds. *)
Record EraseFunInv (h hi : State) (f : ValueId) : Prop := {
  ef_inv : InvH None hi;
  ef_contains : FunctionContains hi f;
  ef_sub : basicBlockList hi f ⊆ basicBlockList h f;
  ef_same : forall bb, bb ∈ basicBlockList hi f -> instList hi bb = instList h bb;
  ef_users : forall p, users hi p ⊆ users h p;
  ef_gone : forall bb,
    bb ∈ basicBlockList h f -> bb ∉ basicBlockList hi f ->
    users hi bb = [] /\ forall i, i ∈ instList h bb -> dead hi i
}.

End Build.

(** ** Notions used for the names and the literals that a module hands out *)

Module Naming.
Import Names.

(** A name that the counter map accounts for: a base that has a counter,
    or such a base with a suffix that its counter has passed. *)
Definition issuedFrom (m : gmap string N) (x : Identifier) : Prop :=
  exists b c, m !! b = Some c /\
    (x = b \/
     exists n, (1 <= n <= c)%N /\ x = b +:+ " " +:+ itoa n +:+ "#").

(** The names issued so far against the counter map, after [k] requests:
    every base of the map is stripped to itself and its counter has counted
    at most [k] requests; every issued name is accounted for. *)
Record NameInv (issued : list Identifier) (m : gmap string N) (k : N)
  : Prop := {
  ni_bases : forall b c,
    m !! b = Some c -> stripInternalNameSuffix b = b /\ (c <= k)%N;
  ni_issued : forall x, x ∈ issued -> issuedFrom m x
}.

(** A request whose base is not itself of the suffix shape. *)
Definition plainBase (r : Identifier) : Prop :=
  stripInternalNameSuffix (stripInternalNameSuffix r) =
  stripInternalNameSuffix r.

End Naming.

Module Interning.
Import Literals.

(** The literals of different kinds are different objects: no object is
    filed both as a number and as a string, none of them is a boolean
    literal, and the boolean literals were there before [nextObject]. *)
Definition literalsApart (M : LiteralTables) : Prop :=
  (forall k1 k2 p q,
      literalNumbers M !! k1 = Some p -> literalStrings M !! k2 = Some q ->
      p <> q) /\
  (forall k p, literalNumbers M !! k = Some p ->
               p <> literalTrue M /\ p <> literalFalse M) /\
  (forall k p, literalStrings M !! k = Some p ->
               p <> literalTrue M /\ p <> literalFalse M) /\
  literalTrue M < nextObject M /\ literalFalse M < nextObject M.

End Interning.

(** ** Global properties and parameters: [Module::findGlobalProperty],
       [addGlobalProperty], [eraseGlobalProperty], [Parameter::Parameter],
       [Parameter::isThisParameter], [Parameter::getIndexInParamList] *)

Module Globals.
Import IR Literals.

(** Modelled from the spec: the class [GlobalObjectProperty] is declared in
    IR.h; the specification says that a property has a name (as a
    LiteralString) and a declared flag that is the OR of all registrations.
    [getName] is the literal, [getNameValue] the identifier that
    [getName()->getValue()] returns. *)
Record GlobalObjectProperty : Type := mkGlobalObjectProperty {
  getName : nat;
  getNameValue : string;
  declared_ : bool
}.

(** Modelled from the spec: [orDeclared] ORs the argument into the flag. *)
Definition orDeclared (p : GlobalObjectProperty) (declared : bool)
  : GlobalObjectProperty :=
  mkGlobalObjectProperty (getName p) (getNameValue p) (declared_ p || declared).

(** The part of a [Module] that the registry of global properties touches:
    the literal tables (with the next address), the map and the list of the
    properties, and the property objects. *)
Record GlobalState : Type := mkGlobalState {
  literals : LiteralTables;
  globalPropertyMap_ : gmap string nat;
  globalPropertyList_ : list nat;
  properties : gmap nat GlobalObjectProperty
}.

(** [Module::findGlobalProperty]; [None] is the null pointer. *)
Definition findGlobalProperty (name : string) (G : GlobalState) : option nat :=
  globalPropertyMap_ G !! name.

(** [Module::addGlobalProperty]: the literal of the name is requested, then
    the property is allocated. *)
Definition addGlobalProperty (name : string) (declared : bool)
    (G : GlobalState) : option (nat * GlobalState) :=
  match globalPropertyMap_ G !! name with
  | None =>
      let '(LS, T) := getLiteralString name (literals G) in
      let ref := nextObject T in
      Some (ref,
            mkGlobalState
              (mkLiteralTables (literalNumbers T) (literalStrings T)
                 (literalTrue T) (literalFalse T) (S ref))
              (<[name := ref]> (globalPropertyMap_ G))
              (globalPropertyList_ G ++ [ref])
              (<[ref := mkGlobalObjectProperty LS name declared]>
                 (properties G)))
  | Some ref =>
      p ← properties G !! ref;
      Some (ref,
            mkGlobalState (literals G) (globalPropertyMap_ G)
              (globalPropertyList_ G)
              (<[ref := orDeclared p declared]> (properties G)))
  end.

(** [Module::eraseGlobalProperty] *)
Definition eraseGlobalProperty (prop : nat) (G : GlobalState)
  : option GlobalState :=
  p ← properties G !! prop;
  let map' := delete (getNameValue p) (globalPropertyMap_ G) in
  match findFirst (fun x => x = prop) (globalPropertyList_ G) with
  | Some it =>
      Some (mkGlobalState (literals G) map'
              (delete it (globalPropertyList_ G))
              (delete prop (properties G)))
  | None =>
      Some (mkGlobalState (literals G) map' (globalPropertyList_ G)
              (properties G))
  end.

(** A sequence of registrations, each on the module the previous one
    left. *)
Fixpoint addGlobalProperties (rs : list (string * bool)) (G : GlobalState)
  : option GlobalState :=
  match rs with
  | [] => Some G
  | (name, declared) :: rest =>
      '(_, G') ← addGlobalProperty name declared G;
      addGlobalProperties rest G'
  end.

(** The flag of a property. *)
Definition isDeclared (G : GlobalState) (prop : nat) : bool :=
  default false (declared_ <$> properties G !! prop).

(** The registry is coherent: the map sends a name to a property object of
    that name, the list holds the properties of the map, each once, and
    every property object was allocated before the next address. *)
Record GlobalsOk (G : GlobalState) : Prop := {
  go_map : forall name p,
    globalPropertyMap_ G !! name = Some p ->
    exists o, properties G !! p = Some o /\ getNameValue o = name;
  go_list : forall p,
    p ∈ globalPropertyList_ G <->
    exists name, globalPropertyMap_ G !! name = Some p;
  go_nodup : NoDup (globalPropertyList_ G);
  go_fresh : forall p,
    is_Some (properties G !! p) -> p < nextObject (literals G)
}.

(** A module without global properties. *)
Definition noGlobals : GlobalState := mkGlobalState newModule ∅ [] ∅.

(** [Function::Parameters] and [Function::thisParameter]. *)
Record FunctionParams : Type := mkFunctionParams {
  Parameters : list nat;
  thisParameter : option nat
}.

(** [Parameter::Parameter]: [this] is the parameter under construction.
    Modelled from the spec: [Function::setThisParameter] is declared in
    IR.h; the specification says that the parameter becomes the
    distinguished this-parameter of the function. *)
Definition Parameter_new (F : FunctionParams) (this : nat) (name : string)
  : FunctionParams :=
  if bool_decide (name = "this") then
    mkFunctionParams (Parameters F) (Some this)
  else
    mkFunctionParams (Parameters F ++ [this]) (thisParameter F).

(** [Parameter::isThisParameter] *)
Definition isThisParameter (F : FunctionParams) (this : nat) : bool :=
  bool_decide (thisParameter F = Some this).

(** [Parameter::getIndexInParamList]; [None] is the [llvm_unreachable]. *)
Definition getIndexInParamList (F : FunctionParams) (this : nat) : option nat :=
  findFirst (fun P => P = this) (Parameters F).

End Globals.

Module GlobalExamples.
Import Globals.

(** A new module after [addGlobalProperty("x", false)], and after the
    further registrations of ["x"] as declared, of ["y"], and of ["x"]
    again as not declared. *)
Definition xRegistered : GlobalState :=
  default noGlobals (snd <$> addGlobalProperty "x" false noGlobals).
Definition laterRegistrations : list (string * bool) :=
  [("x", true); ("y", false); ("x", false)].
Definition xyRegistered : GlobalState :=
  default noGlobals (addGlobalProperties laterRegistrations xRegistered).

End GlobalExamples.
(** * Properties *)

(** ** Internal names *)

Import Names.

Lemma list_ascii_of_string_app (a b : string) :
  list_ascii_of_string (a +:+ b) =
  list_ascii_of_string a ++ list_ascii_of_string b.
Proof. induction a as [|c a IH]; simpl; [done | by rewrite IH]. Qed.

Lemma string_of_list_ascii_app (a b : list ascii) :
  string_of_list_ascii (a ++ b) =
  string_of_list_ascii a +:+ string_of_list_ascii b.
Proof. induction a as [|c a IH]; simpl; [done | by rewrite IH]. Qed.

Lemma skipDigits_le s e : skipDigits s e <= e.
Proof.
  induction e as [|e IH]; simpl; [lia|].
  destruct (digitAt s e); lia.
Qed.

Lemma skipDigits_digits s e i :
  skipDigits s e <= i < e -> digitAt s i = true.
Proof.
  induction e as [|e IH]; simpl; [lia|].
  destruct (digitAt s e) eqn:He; [|lia].
  intros Hi. destruct (decide (i = e)) as [->|]; [done|].
  apply IH. lia.
Qed.

Lemma skipDigits_stop s b k :
  digitAt s b = false ->
  (forall i, b + 1 <= i < b + 1 + k -> digitAt s i = true) ->
  skipDigits s (b + 1 + k) = b + 1.
Proof.
  intros Hb. induction k as [|k IH]; intros Hd.
  - replace (b + 1 + 0) with (S b) by lia. simpl. rewrite Hb. lia.
  - replace (b + 1 + S k) with (S (b + 1 + k)) by lia. simpl.
    rewrite Hd by lia. apply IH. intros i Hi. apply Hd. lia.
Qed.

Lemma isDigit_space : isDigit " " = false.
Proof. reflexivity. Qed.

Lemma charIs_true s i c : charIs s i c = true <-> s !! i = Some c.
Proof.
  unfold charIs. destruct (s !! i) as [d|]; [|done].
  rewrite Ascii.eqb_eq. split; congruence.
Qed.

(** The suffix is cut when the name is [base], a space, digits and a hash. *)
Lemma suffixStart_shape (base ds : list ascii) :
  ds <> [] -> Forall (fun c => isDigit c = true) ds ->
  suffixStart (base ++ " "%char :: ds ++ ["#"%char]) = Some (length base).
Proof.
  intros Hne Hds.
  set (s := base ++ " "%char :: ds ++ ["#"%char]).
  assert (Hlen : length s = length base + length ds + 2).
  { unfold s. rewrite length_app. simpl. rewrite length_app. simpl. lia. }
  assert (Hpos : 0 < length ds) by (destruct ds; [done | simpl; lia]).
  assert (Hsp : s !! length base = Some " "%char).
  { unfold s. rewrite lookup_app_r by lia.
    by replace (length base - length base) with 0 by lia. }
  assert (Hdig : forall i, length base + 1 <= i < length base + 1 + length ds ->
                           digitAt s i = true).
  { intros i Hi. unfold digitAt, s. rewrite lookup_app_r by lia.
    replace (i - length base) with (S (i - length base - 1)) by lia. simpl.
    rewrite lookup_app_l by lia.
    destruct (lookup_lt_is_Some_2 ds (i - length base - 1)) as [d Hd]; [lia|].
    rewrite Hd. rewrite Forall_forall in Hds. apply Hds.
    apply list_elem_of_lookup. eauto. }
  assert (Hhash : s !! (length base + length ds + 1) = Some "#"%char).
  { unfold s. rewrite lookup_app_r by lia.
    replace (length base + length ds + 1 - length base)
      with (S (length ds)) by lia. simpl.
    rewrite lookup_app_r by lia.
    by replace (length ds - length ds) with 0 by lia. }
  unfold suffixStart. fold s. rewrite Hlen.
  replace (length base + length ds + 2 - 1)
    with (length base + length ds + 1) by lia.
  replace (length base + length ds + 2 - 2)
    with (length base + 1 + (length ds - 1)) by lia.
  assert (H3 : (3 <=? length base + length ds + 2)%nat = true)
    by (apply Nat.leb_le; lia).
  rewrite H3. apply charIs_true in Hhash. rewrite Hhash.
  rewrite Hdig by lia. simpl.
  rewrite skipDigits_stop.
  - replace (length base + 1 - 1) with (length base) by lia.
    apply charIs_true in Hsp. rewrite Hsp.
    by replace (length base + 1 =? 0)%nat with false
      by (symmetry; apply Nat.eqb_neq; lia).
  - unfold digitAt. by rewrite Hsp.
  - intros i Hi. apply Hdig. lia.
Qed.

(** Conversely a cut happens only at such a suffix. *)
Lemma suffixStart_inv (s : list ascii) (e : nat) :
  suffixStart s = Some e ->
  exists ds : list ascii,
    ds <> [] /\ Forall (fun c => isDigit c = true) ds /\
    s = take e s ++ " "%char :: ds ++ ["#"%char].
Proof.
  unfold suffixStart. set (n := length s).
  destruct (3 <=? n)%nat eqn:H3; [|done]. apply Nat.leb_le in H3.
  destruct (charIs s (n - 1) "#") eqn:Hh; [|done].
  destruct (digitAt s (n - 2)) eqn:Hd; [|done]. simpl.
  set (k := skipDigits s (n - 2)).
  destruct (k =? 0)%nat eqn:Hk; [done|]. apply Nat.eqb_neq in Hk.
  destruct (charIs s (k - 1) " ") eqn:Hs; [|done]. simpl.
  intros [= <-].
  assert (Hkle : k <= n - 2) by apply skipDigits_le.
  apply charIs_true in Hh, Hs.
  exists (take (n - 1 - k) (drop k s)). split_and!.
  - intros Hnil. apply (f_equal length) in Hnil.
    rewrite length_take, length_drop in Hnil. simpl in Hnil. fold n in Hnil. lia.
  - apply Forall_forall. intros c Hc.
    apply list_elem_of_lookup in Hc as [i Hi].
    apply lookup_take_Some in Hi as [Hi Hlt]. rewrite lookup_drop in Hi.
    destruct (decide (k + i = n - 2)) as [Heq|Hne].
    + rewrite Heq in Hi. unfold digitAt in Hd. by rewrite Hi in Hd.
    + assert (Hx : digitAt s (k + i) = true)
        by (apply (skipDigits_digits s (n - 2)); fold k; lia).
      unfold digitAt in Hx. by rewrite Hi in Hx.
  - rewrite <- (take_drop (k - 1) s) at 1. f_equal.
    rewrite (drop_S s " "%char (k - 1)) by done. f_equal.
    replace (S (k - 1)) with k by lia.
    rewrite <- (take_drop (n - 1 - k) (drop k s)) at 1. f_equal.
    rewrite drop_drop. replace (k + (n - 1 - k)) with (n - 1) by lia.
    rewrite (drop_S s "#"%char (n - 1)) by done.
    rewrite drop_ge; [done | fold n; lia].
Qed.

Lemma strip_shape (name base : string) :
  hasSuffixShape name base -> stripInternalNameSuffix name = base.
Proof.
  intros (ds & Hne & Hds & ->). unfold stripInternalNameSuffix.
  rewrite !list_ascii_of_string_app. simpl.
  rewrite suffixStart_shape; [| |done].
  - rewrite take_app_length. apply string_of_list_ascii_of_string.
  - destruct ds; [done | discriminate].
Qed.

Lemma strip_no_shape (name : string) :
  (forall base, ~ hasSuffixShape name base) ->
  stripInternalNameSuffix name = name.
Proof.
  intros Hno. unfold stripInternalNameSuffix.
  destruct (suffixStart (list_ascii_of_string name)) as [e|] eqn:He; [|done].
  exfalso. apply suffixStart_inv in He as (ds & Hne & Hds & Heq).
  apply (Hno (string_of_list_ascii (take e (list_ascii_of_string name)))).
  exists (string_of_list_ascii ds). split_and!.
  - intros Hnil. apply (f_equal list_ascii_of_string) in Hnil.
    by rewrite list_ascii_of_string_of_list_ascii in Hnil.
  - unfold allDigits. by rewrite list_ascii_of_string_of_list_ascii.
  - rewrite <- (string_of_list_ascii_of_string name) at 1.
    etrans; [apply (f_equal string_of_list_ascii Heq)|].
    rewrite string_of_list_ascii_app. simpl. f_equal. f_equal.
    by rewrite string_of_list_ascii_app.
Qed.

(** C4. The derivation strips the suffix exactly when the name ends in a
    space, one or more decimal digits and a hash; a base that is not in the
    counter map is entered with counter 0 and returned unchanged (so
    ["f 3#"] without a prior ["f"] gives ["f"]); otherwise the counter is
    incremented and the result is the base, a space, the counter and a hash,
    so the requests "f", "f", "f 1#", "f" give "f", "f 1#", "f 2#", "f 3#". *)
Theorem derive_strip_then_count :
  (forall name base,
      hasSuffixShape name base -> stripInternalNameSuffix name = base) /\
  (forall name,
      (forall base, ~ hasSuffixShape name base) ->
      stripInternalNameSuffix name = name) /\
  (forall name (m : gmap string N),
      m !! stripInternalNameSuffix name = None ->
      deriveUniqueInternalName name m =
      (stripInternalNameSuffix name, <[stripInternalNameSuffix name := 0%N]> m)) /\
  (forall name (m : gmap string N) c,
      m !! stripInternalNameSuffix name = Some c ->
      deriveUniqueInternalName name m =
      (stripInternalNameSuffix name +:+ " " +:+ itoa (incrCounter c) +:+ "#",
       <[stripInternalNameSuffix name := incrCounter c]> m)) /\
  (forall m : gmap string N,
      m !! "f" = None -> (deriveUniqueInternalName "f 3#" m).1 = "f") /\
  deriveAll ["f"; "f"; "f 1#"; "f"] ∅ = ["f"; "f 1#"; "f 2#"; "f 3#"].
Proof.
  split_and!.
  - apply strip_shape.
  - apply strip_no_shape.
  - intros name m Hm. unfold deriveUniqueInternalName. by rewrite Hm.
  - intros name m c Hm. unfold deriveUniqueInternalName. by rewrite Hm.
  - intros m Hm.
    assert (Hs : stripInternalNameSuffix "f 3#" = "f") by (by vm_compute).
    unfold deriveUniqueInternalName. rewrite Hs. cbv zeta. by rewrite Hm.
  - by vm_compute.
Qed.

Lemma derive_strip_then_count_witness :
  stripInternalNameSuffix "ab 12#" = "ab" /\
  stripInternalNameSuffix "ab 12" = "ab 12" /\
  deriveUniqueInternalName "g 4#" ∅ = ("g", {[ "g" := 0%N ]}) /\
  deriveUniqueInternalName "g 4#" {[ "g" := 6%N ]} = ("g 7#", {[ "g" := 7%N ]}).
Proof.
  destruct derive_strip_then_count as (H1 & H2 & H3 & H4 & _).
  split_and!.
  - apply H1. exists "12". split_and!; [done | repeat constructor | done].
  - reflexivity.
  - rewrite (H3 "g 4#" ∅); [by vm_compute | done].
  - rewrite (H4 "g 4#" {[ "g" := 6%N ]} 6%N); by vm_compute.
Defined.

(** C9. A name that is nothing but the suffix shape (a space, digits, a
    hash, as in [" 7#"]) is stripped to the empty string, and on a module
    that has no counter for the empty base the derived internal name is the
    empty identifier. *)
Theorem derive_suffix_only (ds : string) (m : gmap string N) :
  ds <> "" -> allDigits ds -> m !! "" = None ->
  stripInternalNameSuffix (" " +:+ ds +:+ "#") = "" /\
  deriveUniqueInternalName (" " +:+ ds +:+ "#") m = ("", <["" := 0%N]> m).
Proof.
  intros Hne Hds Hm.
  assert (Hs : stripInternalNameSuffix (" " +:+ ds +:+ "#") = "").
  { apply strip_shape. by exists ds. }
  split; [done|]. unfold deriveUniqueInternalName. by rewrite Hs, Hm.
Qed.

Lemma derive_suffix_only_witness :
  stripInternalNameSuffix " 7#" = "" /\
  deriveUniqueInternalName " 7#" ∅ = ("", {[ "" := 0%N ]}).
Proof.
  apply (derive_suffix_only "7" ∅); [done | repeat constructor | done].
Defined.

(** C3, at the failing input.  The requests "f", "f", "f 1# 2#" give "f",
    "f 1#", "f 1#": the third name is stripped once, to the base "f 1#",
    which is new to the counter map and is returned as it is, although the
    second request already received it. *)
Theorem derive_duplicate_name :
  deriveAll ["f"; "f"; "f 1# 2#"] ∅ = ["f"; "f 1#"; "f 1#"] /\
  ~ NoDup (deriveAll ["f"; "f"; "f 1# 2#"] ∅).
Proof.
  split; [by vm_compute|].
  change (deriveAll ["f"; "f"; "f 1# 2#"] ∅) with ["f"; "f 1#"; "f 1#"].
  intros H. apply NoDup_cons in H as [_ H]. apply NoDup_cons in H as [H _].
  apply H. left.
Qed.

(** ** Internal names: what the counter guarantees *)

Import Naming.

Lemma pretty_N_char_digit d : isDigit (pretty_N_char d) = true.
Proof. unfold pretty_N_char. by repeat case_match. Qed.

Lemma pretty_N_go_digits x s : allDigits s -> allDigits (pretty_N_go x s).
Proof.
  revert s. induction (N.lt_wf_0 x) as [x _ IH]; intros s Hs.
  assert (x = 0 \/ 0 < x)%N as [->|Hx] by lia.
  - by rewrite pretty_N_go_0.
  - rewrite pretty_N_go_step by done. apply IH; [by apply N.div_lt|].
    unfold allDigits. simpl. constructor; [apply pretty_N_char_digit|done].
Qed.

Lemma pretty_N_go_nonempty x s : s <> "" -> pretty_N_go x s <> "".
Proof.
  revert s. induction (N.lt_wf_0 x) as [x _ IH]; intros s Hs.
  assert (x = 0 \/ 0 < x)%N as [->|Hx] by lia.
  - by rewrite pretty_N_go_0.
  - rewrite pretty_N_go_step by done. apply IH; [by apply N.div_lt|done].
Qed.

(** [%u] prints one or more decimal digits. *)
Lemma itoa_digits n : itoa n <> "" /\ allDigits (itoa n).
Proof.
  unfold itoa, pretty, pretty_N. destruct (decide (n = 0%N)) as [->|Hn].
  - split; [done | repeat constructor].
  - assert (Hpos : (0 < n)%N) by lia. rewrite pretty_N_go_step by done. split.
    + by apply pretty_N_go_nonempty.
    + apply pretty_N_go_digits. unfold allDigits. simpl.
      constructor; [apply pretty_N_char_digit | constructor].
Qed.

Lemma strip_derived base n :
  stripInternalNameSuffix (base +:+ " " +:+ itoa n +:+ "#") = base.
Proof.
  apply strip_shape. exists (itoa n). destruct (itoa_digits n). done.
Qed.

Lemma derived_inj base n1 n2 :
  base +:+ " " +:+ itoa n1 +:+ "#" = base +:+ " " +:+ itoa n2 +:+ "#" ->
  n1 = n2.
Proof.
  intros Heq. apply (inj (String.app base)) in Heq.
  apply (inj (String.app " ")) in Heq.
  apply (f_equal list_ascii_of_string) in Heq.
  rewrite !list_ascii_of_string_app in Heq.
  apply app_inj_tail in Heq as [Heq _].
  apply (f_equal string_of_list_ascii) in Heq.
  rewrite !string_of_list_ascii_of_string in Heq.
  unfold itoa in Heq. by apply (inj pretty) in Heq.
Qed.

Lemma derived_longer base s : base <> base +:+ " " +:+ s.
Proof.
  intros Heq. apply (f_equal list_ascii_of_string) in Heq.
  rewrite !list_ascii_of_string_app in Heq.
  apply (f_equal length) in Heq. rewrite !length_app in Heq.
  simpl in Heq. lia.
Qed.

(** X15. A derived name is filed under the base of its request: when the
    base of [name] has a counter, the name derived for it is stripped back
    to that base, so a later request made with the derived name is the
    same request as one made with [name]. *)
Theorem derive_strip_round_trip (name : Identifier) (m : gmap string N)
    (c : N) :
  m !! stripInternalNameSuffix name = Some c ->
  stripInternalNameSuffix (deriveUniqueInternalName name m).1 =
    stripInternalNameSuffix name /\
  forall m2 : gmap string N,
    deriveUniqueInternalName (deriveUniqueInternalName name m).1 m2 =
    deriveUniqueInternalName name m2.
Proof.
  intros Hm.
  assert (Hs : stripInternalNameSuffix (deriveUniqueInternalName name m).1 =
               stripInternalNameSuffix name).
  { unfold deriveUniqueInternalName. rewrite Hm. simpl. apply strip_derived. }
  split; [done|]. intros m2. unfold deriveUniqueInternalName at 1 3.
  by rewrite Hs.
Qed.

Lemma derive_strip_round_trip_witness :
  stripInternalNameSuffix
    (deriveUniqueInternalName "g 4#" {[ "g" := 6%N ]}).1 = "g" /\
  deriveUniqueInternalName
    (deriveUniqueInternalName "g 4#" {[ "g" := 6%N ]}).1 {[ "g" := 7%N ]} =
  ("g 8#", {[ "g" := 8%N ]}).
Proof.
  destruct (derive_strip_round_trip "g 4#" {[ "g" := 6%N ]} 6%N) as [H1 H2].
  { reflexivity. }
  split.
  - rewrite H1. reflexivity.
  - rewrite H2. vm_compute. reflexivity.
Defined.

(** One request against a map that accounts for the names issued so far. *)
Lemma derive_step r (m : gmap string N) issued k name m' :
  NameInv issued m k -> plainBase r -> (k < 2 ^ 32 - 1)%N ->
  deriveUniqueInternalName r m = (name, m') ->
  (name ∉ issued) /\ NameInv (name :: issued) m' (k + 1).
Proof.
  intros [Hbases Hissued] Hplain Hk. unfold plainBase in Hplain.
  unfold deriveUniqueInternalName.
  set (b := stripInternalNameSuffix r) in *.
  destruct (m !! b) as [c|] eqn:Hm.
  - intros [= <- <-]. destruct (Hbases b c Hm) as [_ Hc].
    assert (Hincr : incrCounter c = (c + 1)%N).
    { unfold incrCounter. apply N.mod_small. lia. }
    rewrite Hincr. split.
    + intros Hin.
      destruct (Hissued _ Hin) as (b' & c' & Hb' & [Hx|(n & Hn & Hx)]).
      * destruct (Hbases b' c' Hb') as [Hsb' _].
        rewrite <- Hx, strip_derived in Hsb'. by apply derived_longer in Hsb'.
      * pose proof (f_equal stripInternalNameSuffix Hx) as Hbb.
        rewrite !strip_derived in Hbb. subst b'.
        rewrite Hm in Hb'. injection Hb' as <-.
        apply derived_inj in Hx. lia.
    + split.
      * intros b0 c0 Hl. apply lookup_insert_Some in Hl as [[<- <-]|[_ Hl]].
        -- split; [done|lia].
        -- destruct (Hbases b0 c0 Hl). split; [done|lia].
      * intros x Hx. apply elem_of_cons in Hx as [->|Hx].
        -- exists b, (c + 1)%N. split; [apply lookup_insert_eq|].
           right. exists (c + 1)%N. split; [lia|done].
        -- destruct (Hissued x Hx) as (b' & c' & Hb' & Hcase).
           destruct (decide (b' = b)) as [->|Hne].
           ++ rewrite Hm in Hb'. injection Hb' as <-.
              exists b, (c + 1)%N. split; [apply lookup_insert_eq|].
              destruct Hcase as [?|(n & Hn & ?)]; [by left|].
              right. exists n. split; [lia|done].
           ++ exists b', c'. split; [|done]. by rewrite lookup_insert_ne.
  - intros [= <- <-]. split.
    + intros Hin.
      destruct (Hissued _ Hin) as (b' & c' & Hb' & [Hx|(n & Hn & Hx)]).
      * subst b'. by rewrite Hm in Hb'.
      * pose proof (f_equal stripInternalNameSuffix Hx) as Hbb.
        rewrite strip_derived, Hplain in Hbb. subst b'.
        by rewrite Hm in Hb'.
    + split.
      * intros b0 c0 Hl. apply lookup_insert_Some in Hl as [[<- <-]|[_ Hl]].
        -- split; [done|lia].
        -- destruct (Hbases b0 c0 Hl). split; [done|lia].
      * intros x Hx. apply elem_of_cons in Hx as [->|Hx].
        -- exists b, 0%N. split; [apply lookup_insert_eq|by left].
        -- destruct (Hissued x Hx) as (b' & c' & Hb' & Hcase).
           exists b', c'. split; [|done]. rewrite lookup_insert_ne; [done|].
           intros <-. by rewrite Hm in Hb'.
Qed.

Lemma deriveAll_distinct requests (m : gmap string N) issued k :
  NameInv issued m k -> Forall plainBase requests ->
  (k + N.of_nat (length requests) < 2 ^ 32)%N ->
  NoDup (deriveAll requests m) /\
  forall x, x ∈ deriveAll requests m -> x ∉ issued.
Proof.
  revert m issued k.
  induction requests as [|r rest IH]; intros m issued k Hinv Hplain Hk.
  - split; [constructor|]. intros x Hx. by apply elem_of_nil in Hx.
  - apply Forall_cons in Hplain as [Hr Hrest].
    cbn [length] in Hk. rewrite Nat2N.inj_succ in Hk.
    cbn [deriveAll].
    destruct (deriveUniqueInternalName r m) as [name m'] eqn:Hd.
    destruct (derive_step r m issued k name m' Hinv Hr ltac:(lia) Hd)
      as [Hnew Hinv'].
    destruct (IH m' (name :: issued) (k + 1)%N Hinv' Hrest ltac:(lia))
      as [Hnd Hfresh].
    split.
    + apply NoDup_cons. split; [|done]. intros Hin.
      apply (Hfresh name Hin). left.
    + intros x Hx. apply elem_of_cons in Hx as [->|Hx]; [done|].
      intros Hin. apply (Hfresh x Hx). by right.
Qed.

(** X16. The names that a new module derives for a sequence of requests
    are pairwise different when the base of every request (the request
    stripped once) is not itself of the suffix shape, and there are fewer
    than [2^32] requests, so that no counter wraps. *)
Theorem derive_distinct (requests : list Identifier) :
  Forall plainBase requests ->
  (N.of_nat (length requests) < 2 ^ 32)%N ->
  NoDup (deriveAll requests ∅).
Proof.
  intros Hplain Hlen.
  apply (deriveAll_distinct requests ∅ [] 0%N); [|done|lia].
  split.
  - intros b c Hl. by rewrite lookup_empty in Hl.
  - intros x Hx. by apply elem_of_nil in Hx.
Qed.

Lemma derive_distinct_witness :
  NoDup (deriveAll ["f"; "f 1#"; "g 2#"; "f"; "g"] ∅).
Proof.
  apply derive_distinct.
  - repeat constructor.
  - reflexivity.
Defined.

(** ** The type lattice *)

Import TypeLattice.

Lemma string_app_cons (x : ascii) (a b : string) :
  String x a +:+ b = String x (a +:+ b).
Proof. reflexivity. Qed.

Lemma string_app_assoc (a b c : string) : (a +:+ b) +:+ c = a +:+ (b +:+ c).
Proof.
  induction a as [|x a IH]; [done|]. by rewrite !string_app_cons, IH.
Qed.

Lemma joinKinds_snoc (ns : list string) (n : string) :
  joinKinds (ns ++ [n]) =
  match ns with [] => n | _ => joinKinds ns +:+ "|" +:+ n end.
Proof.
  induction ns as [|a ns IH]; [done|].
  destruct ns as [|b ns]; [done|].
  change (joinKinds ((a :: b :: ns) ++ [n]))
    with (a +:+ "|" +:+ joinKinds ((b :: ns) ++ [n])).
  rewrite IH. change (joinKinds (a :: b :: ns))
    with (a +:+ "|" +:+ joinKinds (b :: ns)).
  by rewrite !string_app_assoc.
Qed.

(** [bitmask_ & (1 << i)] is non-zero exactly when bit [i] is set. *)
Lemma hasBit_testbit (bitmask_ : Z) (i : nat) :
  hasBit bitmask_ i = Z.testbit bitmask_ (Z.of_nat i).
Proof.
  unfold hasBit. rewrite Z.shiftl_1_l.
  destruct (Z.testbit bitmask_ (Z.of_nat i)) eqn:Hb.
  - apply negb_true_iff, Z.eqb_neq. intros H0.
    assert (Ht : Z.testbit (Z.land bitmask_ (2 ^ Z.of_nat i)) (Z.of_nat i) = true).
    { rewrite Z.land_spec, Hb, Z.pow2_bits_true; [done | lia]. }
    rewrite H0 in Ht. by rewrite Z.bits_0 in Ht.
  - apply negb_false_iff, Z.eqb_eq. apply Z.bits_inj'. intros n Hn.
    rewrite Z.land_spec, Z.bits_0, Z.pow2_bits_eqb by lia.
    destruct (Z.eqb_spec (Z.of_nat i) n) as [<-|]; [by rewrite Hb|].
    apply andb_false_r.
Qed.

Section PrintFacts.

Context (LAST_TYPE Object Closure RegExp : nat).
Context (getKindStr : nat -> string).

Local Abbreviation printStep := (printStep Object Closure RegExp getKindStr).
Local Abbreviation print := (print LAST_TYPE Object Closure RegExp getKindStr).
Local Abbreviation printed := (printed Object Closure RegExp).
Local Abbreviation printedKinds := (printedKinds LAST_TYPE Object Closure RegExp).

(** One round: a printed kind is appended, after a separator unless it is
    the first; any other kind leaves the state as it is. *)
Lemma printStep_printed (T : Z) (first : bool) (OS : string) (i : nat) :
  printStep T (first, OS) i =
  if decide (printed T i)
  then (false, (if first then OS else OS +:+ "|") +:+ getKindStr i)
  else (first, OS).
Proof.
  unfold TypeLattice.printStep, isClosureType, isRegExpType.
  rewrite !hasBit_testbit.
  destruct (decide (printed T i)) as [[Hset Hobj]|Hnot].
  - unfold isSet in *. rewrite Hset.
    destruct ((i =? Object)%nat &&
              (Z.testbit T (Z.of_nat Closure) || Z.testbit T (Z.of_nat RegExp)))
      eqn:Hskip; [|done].
    exfalso. apply andb_true_iff in Hskip as [Hi Hc]. apply Nat.eqb_eq in Hi.
    apply orb_true_iff in Hc. by apply Hobj.
  - destruct ((i =? Object)%nat &&
              (Z.testbit T (Z.of_nat Closure) || Z.testbit T (Z.of_nat RegExp)))
      eqn:Hskip; [done|].
    destruct (Z.testbit T (Z.of_nat i)) eqn:Hset; [|done].
    exfalso. apply Hnot. split; [done|]. intros [Hi Hc].
    apply andb_false_iff in Hskip as [Hne|Hor].
    + by apply Nat.eqb_neq in Hne.
    + apply orb_false_iff in Hor as [H1 H2]. unfold isSet in Hc.
      destruct Hc; congruence.
Qed.

(** The rounds of the loop write the names of the printed kinds. *)
Lemma printStep_foldl (T : Z) (OS : string) (l : list nat) (ns : list string) :
  foldl (printStep T) (bool_decide (ns = []), OS +:+ joinKinds ns) l =
  (bool_decide (ns ++ (getKindStr <$> filter (printed T) l) = []),
   OS +:+ joinKinds (ns ++ (getKindStr <$> filter (printed T) l))).
Proof.
  revert ns. induction l as [|i l IH]; intros ns.
  - cbn [foldl]. rewrite filter_nil, fmap_nil. by rewrite app_nil_r.
  - rewrite filter_cons. cbn [foldl]. rewrite printStep_printed.
    destruct (decide (printed T i)) as [Hp|Hnot]; [|apply IH].
    rewrite fmap_cons.
    replace (ns ++ getKindStr i :: (getKindStr <$> filter (printed T) l))
      with ((ns ++ [getKindStr i]) ++ (getKindStr <$> filter (printed T) l))
      by (by rewrite <- app_assoc).
    rewrite <- IH. f_equal. f_equal.
    + rewrite bool_decide_eq_false_2; [done|]. by destruct ns.
    + rewrite joinKinds_snoc. destruct ns as [|a ns].
      * rewrite bool_decide_eq_true_2 by done.
        by rewrite string_app_assoc.
      * rewrite bool_decide_eq_false_2 by done.
        by rewrite !string_app_assoc.
Qed.

(** C8. [Type::print] writes exactly the names of the kinds whose bit is
    set, separated by ["|"], in enumeration order, leaving out [Object]
    whenever the closure or the regex bit is set; so the print of a union
    names exactly the kinds set in either operand, up to that rule. *)
Theorem print_kinds_of_set_bits (T : Z) :
  print T "" = joinKinds (getKindStr <$> printedKinds T) /\
  printedKinds T `sublist_of` seq 0 LAST_TYPE /\
  (forall i, i ∈ printedKinds T <->
     i < LAST_TYPE /\ isSet T i /\
     ~ (i = Object /\ (isSet T Closure \/ isSet T RegExp))) /\
  (forall A B i, i ∈ printedKinds (unionTy A B) <->
     i < LAST_TYPE /\ (isSet A i \/ isSet B i) /\
     ~ (i = Object /\ (isSet A Closure \/ isSet B Closure \/
                       isSet A RegExp \/ isSet B RegExp))).
Proof.
  assert (Hin : forall U i, i ∈ printedKinds U <->
     i < LAST_TYPE /\ isSet U i /\
     ~ (i = Object /\ (isSet U Closure \/ isSet U RegExp))).
  { intros U i. unfold TypeLattice.printedKinds.
    rewrite list_elem_of_filter, elem_of_seq. unfold TypeLattice.printed.
    split.
    - intros [[Hs Ho] [_ Hlt]]. split; [lia | done].
    - intros (Hlt & Hs & Ho). split; [done | lia]. }
  split_and!.
  - unfold TypeLattice.print.
    change (true, "") with (bool_decide (@nil string = []), "" +:+ joinKinds []).
    by rewrite printStep_foldl.
  - apply sublist_filter.
  - apply Hin.
  - intros A B i. rewrite Hin. unfold isSet, unionTy.
    rewrite !Z.lor_spec, !orb_true_iff. tauto.
Qed.

End PrintFacts.

(** An enumeration of nine kinds in which [Object], [Closure] and [RegExp]
    are the kinds 6, 7 and 8. *)
Example print_number_or_object :
  print 9 6 7 8 (fun i => nth i ["empty"; "undefined"; "null"; "boolean";
                                 "string"; "number"; "object"; "closure";
                                 "regexp"] "")
        (Z.lor (Z.shiftl 1 5) (Z.shiftl 1 6)) "" = "number|object" /\
  print 9 6 7 8 (fun i => nth i ["empty"; "undefined"; "null"; "boolean";
                                 "string"; "number"; "object"; "closure";
                                 "regexp"] "")
        (Z.lor (Z.shiftl 1 5) (Z.lor (Z.shiftl 1 6) (Z.shiftl 1 7))) ""
  = "number|closure".
Proof. by vm_compute. Qed.

(** ** Literal interning *)

Import Literals.

Lemma tablesOk_newModule : tablesOk newModule.
Proof.
  split_and!.
  - apply map_Forall_empty.
  - apply map_Forall_empty.
  - intros k1 k2 p Hk. simpl in Hk. by rewrite lookup_empty in Hk.
  - intros k1 k2 p Hk. simpl in Hk. by rewrite lookup_empty in Hk.
Qed.

Lemma getLiteral_ok r M :
  tablesOk M -> tablesOk (getLiteral r M).2.
Proof.
  intros (Hn & Hs & Hin & His). destruct r as [x|s|b]; simpl; [| |done].
  - unfold getLiteralNumber, profileNumber.
    destruct (literalNumbers M !! x) as [p|] eqn:Hx; [done|]. simpl.
    split_and!; simpl.
    + apply map_Forall_insert_2; [lia|].
      eapply map_Forall_impl; [exact Hn|]. simpl. intros; lia.
    + eapply map_Forall_impl; [exact Hs|]. simpl. intros; lia.
    + intros k1 k2 p. rewrite !lookup_insert.
      destruct (decide (x = k1)) as [<-|], (decide (x = k2)) as [<-|];
        try done.
      * intros [= <-] Hk. apply Hn in Hk. simpl in Hk. lia.
      * intros Hk [= <-]. apply Hn in Hk. simpl in Hk. lia.
      * apply Hin.
    + done.
  - unfold getLiteralString, profileString.
    destruct (literalStrings M !! s) as [p|] eqn:Hx; [done|]. simpl.
    split_and!; simpl.
    + eapply map_Forall_impl; [exact Hn|]. simpl. intros; lia.
    + apply map_Forall_insert_2; [lia|].
      eapply map_Forall_impl; [exact Hs|]. simpl. intros; lia.
    + done.
    + intros k1 k2 p. rewrite !lookup_insert.
      destruct (decide (s = k1)) as [<-|], (decide (s = k2)) as [<-|];
        try done.
      * intros [= <-] Hk. apply Hs in Hk. simpl in Hk. lia.
      * intros Hk [= <-]. apply Hs in Hk. simpl in Hk. lia.
      * apply His.
Qed.

(** A request never changes what is filed already, nor the boolean
    literals. *)
Lemma getLiteral_extends r M :
  (forall k p, literalNumbers M !! k = Some p ->
               literalNumbers (getLiteral r M).2 !! k = Some p) /\
  (forall k p, literalStrings M !! k = Some p ->
               literalStrings (getLiteral r M).2 !! k = Some p) /\
  literalTrue (getLiteral r M).2 = literalTrue M /\
  literalFalse (getLiteral r M).2 = literalFalse M.
Proof.
  destruct r as [x|s|b]; simpl; [| |done].
  - unfold getLiteralNumber, profileNumber.
    destruct (literalNumbers M !! x) as [p|] eqn:Hx; [done|]. simpl.
    split_and!; try done. intros k p Hk. rewrite lookup_insert_ne; [done|].
    congruence.
  - unfold getLiteralString, profileString.
    destruct (literalStrings M !! s) as [p|] eqn:Hx; [done|]. simpl.
    split_and!; try done. intros k p Hk. rewrite lookup_insert_ne; [done|].
    congruence.
Qed.

Lemma afterLiterals_ok rs M : tablesOk M -> tablesOk (afterLiterals rs M).
Proof.
  revert M. induction rs as [|r rs IH]; intros M HM; [done|].
  simpl. by apply IH, getLiteral_ok.
Qed.

Lemma afterLiterals_extends rs M :
  (forall k p, literalNumbers M !! k = Some p ->
               literalNumbers (afterLiterals rs M) !! k = Some p) /\
  (forall k p, literalStrings M !! k = Some p ->
               literalStrings (afterLiterals rs M) !! k = Some p) /\
  literalTrue (afterLiterals rs M) = literalTrue M /\
  literalFalse (afterLiterals rs M) = literalFalse M.
Proof.
  revert M. induction rs as [|r rs IH]; intros M; [done|]. simpl.
  destruct (IH (getLiteral r M).2) as (H1 & H2 & H3 & H4).
  destruct (getLiteral_extends r M) as (G1 & G2 & G3 & G4).
  split_and!.
  - intros k p Hk. by apply H1, G1.
  - intros k p Hk. by apply H2, G2.
  - by rewrite H3.
  - by rewrite H4.
Qed.

(** The literal returned for a request is the one filed under its profile
    from then on. *)
Lemma getLiterals_filed rs M i a :
  getLiterals rs M !! i = Some a ->
  match rs !! i with
  | Some (ReqNumber x) =>
      literalNumbers (afterLiterals rs M) !! profileNumber x = Some a
  | Some (ReqString s) =>
      literalStrings (afterLiterals rs M) !! profileString s = Some a
  | Some (ReqBool b) => a = getLiteralBool b M
  | None => False
  end.
Proof.
  revert M i. induction rs as [|r rs IH]; intros M i; [done|].
  simpl. destruct (getLiteral r M) as [a0 M'] eqn:Hr.
  destruct i as [|i]; simpl.
  - intros [= <-].
    destruct (afterLiterals_extends rs M') as (H1 & H2 & _).
    destruct r as [x|s|b]; simpl in Hr.
    + apply H1. unfold getLiteralNumber in Hr.
      destruct (literalNumbers M !! profileNumber x) as [p|] eqn:Hx;
        injection Hr as <- <-; [done|]. simpl. apply lookup_insert_eq.
    + apply H2. unfold getLiteralString in Hr.
      destruct (literalStrings M !! profileString s) as [p|] eqn:Hx;
        injection Hr as <- <-; [done|]. simpl. apply lookup_insert_eq.
    + by injection Hr as <- <-.
  - intros Hi. specialize (IH M' i Hi).
    destruct (rs !! i) as [[x|s|b]|]; try done.
    destruct (getLiteral_extends r M) as (_ & _ & G3 & G4).
    rewrite Hr in G3, G4. simpl in G3, G4.
    rewrite IH. unfold getLiteralBool. by rewrite G3, G4.
Qed.

(** C7. Within one module, two requests for a number literal return the
    same object exactly when the doubles are bitwise equal, two requests for
    a string literal exactly when the identifiers are the same, and every
    request for a boolean literal returns the module's fixed object for that
    boolean. *)
Theorem literal_interning (M : LiteralTables) (rs : list Request)
    (i j : nat) (a b : nat) :
  tablesOk M ->
  getLiterals rs M !! i = Some a -> getLiterals rs M !! j = Some b ->
  (forall x y, rs !! i = Some (ReqNumber x) -> rs !! j = Some (ReqNumber y) ->
               (a = b <-> x = y)) /\
  (forall s t, rs !! i = Some (ReqString s) -> rs !! j = Some (ReqString t) ->
               (a = b <-> s = t)) /\
  (forall v, rs !! i = Some (ReqBool v) ->
             a = if v then literalTrue M else literalFalse M).
Proof.
  intros HM Hi Hj.
  pose proof (afterLiterals_ok rs M HM) as (_ & _ & Hin & His).
  apply getLiterals_filed in Hi, Hj.
  split_and!.
  - intros x y Hx Hy. rewrite Hx in Hi. rewrite Hy in Hj.
    unfold profileNumber in *. split.
    + intros <-. by eapply Hin.
    + intros <-. congruence.
  - intros s t Hs Ht. rewrite Hs in Hi. rewrite Ht in Hj.
    unfold profileString in *. split.
    + intros <-. by eapply His.
    + intros <-. congruence.
  - intros v Hv. by rewrite Hv in Hi.
Qed.

(** The scenario of the specification: 3.14 twice, then -0.0 and +0.0
    ([4614253070214989087] is the bit pattern of 3.14). *)
Lemma literal_interning_witness :
  let rs := [ReqNumber 4614253070214989087%N; ReqNumber 4614253070214989087%N;
             ReqNumber negativeZero; ReqNumber positiveZero;
             ReqBool true; ReqBool true] in
  (getLiterals rs newModule !! 0 = getLiterals rs newModule !! 1) /\
  (getLiterals rs newModule !! 2 <> getLiterals rs newModule !! 3) /\
  getLiterals rs newModule !! 4 = Some (literalTrue newModule).
Proof.
  intros rs.
  assert (H01 := literal_interning newModule rs 0 1 2 2 tablesOk_newModule
                   eq_refl eq_refl).
  assert (H23 := literal_interning newModule rs 2 3 3 4 tablesOk_newModule
                   eq_refl eq_refl).
  assert (H4 := literal_interning newModule rs 4 4 0 0 tablesOk_newModule
                   eq_refl eq_refl).
  split_and!.
  - done.
  - intros Heq. destruct H23 as (H23 & _).
    assert (Hz : negativeZero = positiveZero).
    { apply (H23 _ _ eq_refl eq_refl). vm_compute in Heq. by injection Heq. }
    discriminate Hz.
  - destruct H4 as (_ & _ & H4). by rewrite (H4 true eq_refl).
Defined.

(** ** Literal interning: replaying requests, and the kinds of literals *)

Import Interning.

(** A request whose literal is filed already is answered from the tables
    and changes nothing. *)
Lemma getLiteral_filed r M :
  match r with
  | ReqNumber x => is_Some (literalNumbers M !! profileNumber x)
  | ReqString s => is_Some (literalStrings M !! profileString s)
  | ReqBool _ => True
  end ->
  (getLiteral r M).2 = M.
Proof.
  destruct r as [x|s|b]; simpl; [| |done].
  - intros [p Hp]. unfold getLiteralNumber. by rewrite Hp.
  - intros [p Hp]. unfold getLiteralString. by rewrite Hp.
Qed.

(** The literal of a request is filed after the request. *)
Lemma getLiteral_files r M :
  match r with
  | ReqNumber x =>
      literalNumbers (getLiteral r M).2 !! profileNumber x
        = Some (getLiteral r M).1
  | ReqString s =>
      literalStrings (getLiteral r M).2 !! profileString s
        = Some (getLiteral r M).1
  | ReqBool b => (getLiteral r M).1 = getLiteralBool b M
  end.
Proof.
  destruct r as [x|s|b]; simpl; [| |done].
  - unfold getLiteralNumber.
    destruct (literalNumbers M !! profileNumber x) as [p|] eqn:Hx; [done|].
    simpl. apply lookup_insert_eq.
  - unfold getLiteralString.
    destruct (literalStrings M !! profileString s) as [p|] eqn:Hx; [done|].
    simpl. apply lookup_insert_eq.
Qed.

(** On tables that extend those after the request, the request is answered
    as before and changes nothing. *)
Lemma getLiteral_again r M M' :
  (forall k p, literalNumbers (getLiteral r M).2 !! k = Some p ->
               literalNumbers M' !! k = Some p) ->
  (forall k p, literalStrings (getLiteral r M).2 !! k = Some p ->
               literalStrings M' !! k = Some p) ->
  literalTrue M' = literalTrue M -> literalFalse M' = literalFalse M ->
  getLiteral r M' = ((getLiteral r M).1, M').
Proof.
  intros Hn Hs Ht Hf. pose proof (getLiteral_files r M) as Hfiled.
  destruct r as [x|s|b].
  - apply Hn in Hfiled. simpl. unfold getLiteralNumber at 1.
    by rewrite Hfiled.
  - apply Hs in Hfiled. simpl. unfold getLiteralString at 1.
    by rewrite Hfiled.
  - simpl. unfold getLiteralBool. by rewrite Ht, Hf.
Qed.

Lemma getLiterals_again rs M M' :
  (forall k p, literalNumbers (afterLiterals rs M) !! k = Some p ->
               literalNumbers M' !! k = Some p) ->
  (forall k p, literalStrings (afterLiterals rs M) !! k = Some p ->
               literalStrings M' !! k = Some p) ->
  literalTrue M' = literalTrue M -> literalFalse M' = literalFalse M ->
  getLiterals rs M' = getLiterals rs M /\ afterLiterals rs M' = M'.
Proof.
  revert M. induction rs as [|r rs IH]; intros M Hn Hs Ht Hf; [done|].
  cbn [getLiterals afterLiterals] in *.
  destruct (afterLiterals_extends rs (getLiteral r M).2) as (E1 & E2 & _).
  destruct (getLiteral_extends r M) as (_ & _ & G3 & G4).
  rewrite (getLiteral_again r M M') by eauto.
  destruct (getLiteral r M) as [a M1] eqn:Hr. cbn [fst snd] in *.
  destruct (IH M1) as [H1 H2]; [done|done|congruence|congruence|].
  by rewrite H1, H2.
Qed.

(** X19. Replaying a sequence of literal requests on the module that the
    sequence left: every request returns the object it returned the first
    time, and the module is not changed (nothing is allocated). *)
Theorem literals_replay (rs : list Request) (M : LiteralTables) :
  getLiterals rs (afterLiterals rs M) = getLiterals rs M /\
  afterLiterals rs (afterLiterals rs M) = afterLiterals rs M.
Proof.
  destruct (afterLiterals_extends rs M) as (_ & _ & H3 & H4).
  by apply getLiterals_again.
Qed.

Lemma getLiteral_apart r M :
  tablesOk M -> literalsApart M -> literalsApart (getLiteral r M).2.
Proof.
  intros (Hn & Hs & _ & _) (Hns & Hnb & Hsb & Ht & Hf).
  destruct r as [x|s|b]; simpl; [| |done].
  - unfold getLiteralNumber, profileNumber.
    destruct (literalNumbers M !! x) as [p|] eqn:Hx; [done|]. simpl.
    split_and!; simpl; try lia.
    + intros k1 k2 p q. rewrite lookup_insert.
      destruct (decide (x = k1)) as [<-|]; [|intros Hp Hq; by eapply Hns].
      intros [= <-] Hq. apply Hs in Hq. simpl in Hq. lia.
    + intros k p. rewrite lookup_insert.
      destruct (decide (x = k)) as [<-|]; [|apply Hnb].
      intros [= <-]. lia.
    + done.
  - unfold getLiteralString, profileString.
    destruct (literalStrings M !! s) as [p|] eqn:Hx; [done|]. simpl.
    split_and!; simpl; try lia.
    + intros k1 k2 p q Hp. rewrite lookup_insert.
      destruct (decide (s = k2)) as [<-|]; [|intros Hq; by eapply Hns].
      intros [= <-]. apply Hn in Hp. simpl in Hp. lia.
    + done.
    + intros k p. rewrite lookup_insert.
      destruct (decide (s = k)) as [<-|]; [|apply Hsb].
      intros [= <-]. lia.
Qed.

Lemma afterLiterals_apart rs M :
  tablesOk M -> literalsApart M -> literalsApart (afterLiterals rs M).
Proof.
  revert M. induction rs as [|r rs IH]; intros M HM HA; [done|].
  simpl. apply IH; [by apply getLiteral_ok | by apply getLiteral_apart].
Qed.

Lemma literalsApart_newModule : literalsApart newModule.
Proof.
  unfold literalsApart, newModule. simpl. split_and!; try lia.
  - intros k1 k2 p q Hk. by rewrite lookup_empty in Hk.
  - intros k p Hk. by rewrite lookup_empty in Hk.
  - intros k p Hk. by rewrite lookup_empty in Hk.
Qed.

(** X20. Literals of different kinds are different objects: on a module
    whose tables keep the kinds apart (a new module does), the object
    returned for a number is never the object returned for a string, and
    neither is one of the two boolean literals, whatever was requested in
    between. *)
Theorem literal_kinds_apart (M : LiteralTables) (rs : list Request)
    (i j : nat) (a b : nat) :
  tablesOk M -> literalsApart M ->
  getLiterals rs M !! i = Some a -> getLiterals rs M !! j = Some b ->
  (forall x s, rs !! i = Some (ReqNumber x) -> rs !! j = Some (ReqString s) ->
               a <> b) /\
  (forall x, rs !! i = Some (ReqNumber x) ->
             a <> literalTrue M /\ a <> literalFalse M) /\
  (forall s, rs !! i = Some (ReqString s) ->
             a <> literalTrue M /\ a <> literalFalse M).
Proof.
  intros HM HA Hi Hj.
  destruct (afterLiterals_apart rs M HM HA) as (Hns & Hnb & Hsb & _).
  destruct (afterLiterals_extends rs M) as (_ & _ & Ht & Hf).
  rewrite Ht, Hf in Hnb, Hsb.
  apply getLiterals_filed in Hi, Hj.
  split_and!.
  - intros x s Hx Hs. rewrite Hx in Hi. rewrite Hs in Hj. by eapply Hns.
  - intros x Hx. rewrite Hx in Hi. by eapply Hnb.
  - intros s Hs. rewrite Hs in Hi. by eapply Hsb.
Qed.

Lemma literal_kinds_apart_witness :
  getLiterals [ReqNumber 7%N; ReqBool true; ReqString "x"] newModule
    = [2; 0; 3] /\
  2 <> 3 /\ 2 <> literalTrue newModule.
Proof.
  split; [reflexivity|].
  destruct (literal_kinds_apart newModule
              [ReqNumber 7%N; ReqBool true; ReqString "x"] 0 2 2 3
              tablesOk_newModule literalsApart_newModule eq_refl eq_refl)
    as (H1 & H2 & _).
  split.
  - exact (H1 7%N "x" eq_refl eq_refl).
  - exact (proj1 (H2 7%N eq_refl)).
Defined.

(** ** The use-def registry *)

Import IR.

Lemma users_setUsers h v l v' :
  users (setUsers h v l) v' = if decide (v = v') then l else users h v'.
Proof.
  unfold users, setUsers; simpl. rewrite lookup_insert.
  by destruct (decide (v = v')).
Qed.

Lemma operands_setUsers h v l i : operands (setUsers h v l) i = operands h i.
Proof. done. Qed.

Lemma operands_setOperands h i l i' :
  operands (setOperands h i l) i' =
  if decide (i = i') then l else operands h i'.
Proof.
  unfold operands, setOperands; simpl. rewrite lookup_insert.
  by destruct (decide (i = i')).
Qed.

Lemma users_setOperands h i l v : users (setOperands h i l) v = users h v.
Proof. done. Qed.

Lemma users_emptyState v : users emptyState v = [].
Proof. done. Qed.

Lemma operands_emptyState i : operands emptyState i = [].
Proof. done. Qed.

Lemma live_None I k : live None I k.
Proof. done. Qed.
#[local] Hint Resolve live_None : core.

Lemma consistent_InvH h : UseDefConsistent h <-> InvH None h.
Proof.
  split.
  - intros [Hf Hb]. split.
    + intros I k p j _. apply Hf.
    + intros I k k' p j _ _ Hk Hk'.
      destruct (Hb p j I (Hf _ _ _ _ Hk)) as (k0 & _ & Hu).
      rewrite (Hu k Hk). by rewrite (Hu k' Hk').
    + intros p j I Hu. destruct (Hb p j I Hu) as (k & Hk & _). eauto.
  - intros [Hf Hi Hs]. split.
    + intros I k p j. by apply Hf.
    + intros p j I Hu. destruct (Hs p j I Hu) as (k & _ & Hk).
      exists k. split; [done|]. intros k' Hk'. by apply (Hi I k' k p j).
Qed.

Lemma InvH_empty : InvH None emptyState.
Proof.
  split.
  - intros I k p j _. by rewrite operands_emptyState.
  - intros I k k' p j _ _. by rewrite operands_emptyState.
  - intros p j I. by rewrite users_emptyState.
Qed.

(** A slot that holds null can be left out of a consistent state. *)
Lemma InvH_hole_null h I k j :
  InvH None h -> operands h I !! k = Some (None, j) -> InvH (Some (I, k)) h.
Proof.
  intros [Hf Hi Hs] Hnull. split.
  - intros I' k' p j' _. by apply Hf.
  - intros I' k1 k2 p j' _ _. by apply Hi.
  - intros p j' I' Hu. destruct (Hs p j' I' Hu) as (k0 & _ & Hk0).
    exists k0. split; [|done]. intros [= -> ->]. congruence.
Qed.

Lemma last_lookup_length {A} (l : list A) :
  last l = l !! (length l - 1).
Proof. rewrite last_lookup. f_equal. lia. Qed.

Lemma findFirst_Some {A} (P : A -> Prop) `{!forall x, Decision (P x)}
    (l : list A) (i : nat) :
  findFirst P l = Some i <->
  exists x, l !! i = Some x /\ P x /\
            forall j y, l !! j = Some y -> j < i -> ~ P y.
Proof.
  unfold findFirst. split.
  - intros Hfind. apply fmap_Some in Hfind as ([i' x] & Hf & ->).
    apply list_find_Some in Hf. eauto.
  - intros (x & Hx). apply fmap_Some. exists (i, x). split; [|done].
    by apply list_find_Some.
Qed.

Lemma findFirst_None {A} (P : A -> Prop) `{!forall x, Decision (P x)}
    (l : list A) :
  findFirst P l = None <-> Forall (fun x => ~ P x) l.
Proof.
  unfold findFirst. rewrite fmap_None. apply list_find_None.
Qed.

Lemma findFirst_exists {A} (P : A -> Prop) `{!forall x, Decision (P x)}
    (l : list A) (k : nat) (x : A) :
  l !! k = Some x -> P x -> exists i, findFirst P l = Some i /\ i <= k.
Proof.
  intros Hk HP. destruct (findFirst P l) as [i|] eqn:Hf.
  - exists i. split; [done|]. apply findFirst_Some in Hf as (y & Hy & HPy & Hmin).
    destruct (decide (i <= k)); [done|]. exfalso. apply (Hmin k x Hk); [lia|done].
  - apply findFirst_None in Hf. rewrite Forall_forall in Hf. exfalso.
    apply (Hf x); [|done]. apply list_elem_of_lookup. eauto.
Qed.

(** What [removeUse] does to a consistent state: the last user [L] is moved
    into the vacated position [j], and (when [j] is not the last position
    [n]) the slot of [L] that held [(c, n)] is patched to [(c, j)]. *)
Lemma removeUse_spec h c j I k :
  InvH None h -> operands h I !! k = Some (Some c, j) ->
  exists h1 n L kL,
    removeUse h c (Some c, j) = Some h1 /\
    length (users h c) = S n /\ j <= n /\ users h c !! n = Some L /\
    operands h L !! kL = Some (Some c, n) /\
    (forall p, users h1 p =
               if decide (p = c) then take n (<[j := L]> (users h c))
               else users h p) /\
    (forall x, operands h1 x =
               if decide (x = L /\ j <> n)
               then <[kL := (Some c, j)]> (operands h x)
               else operands h x) /\
    InstList h1 = InstList h /\ Parent h1 = Parent h /\
    BasicBlockList h1 = BasicBlockList h.
Proof.
  intros [Hf Hi Hs] Hk.
  pose proof (Hf I k c j (live_None _ _) Hk) as Hu.
  pose proof (lookup_lt_Some _ _ _ Hu) as Hlt.
  destruct (length (users h c)) as [|n] eqn:Hlen; [lia|].
  destruct (lookup_lt_is_Some_2 (users h c) n) as [L HL]; [lia|].
  destruct (Hs c n L HL) as (kL & _ & HkL).
  assert (Hlast : last (users h c) = Some L).
  { rewrite last_lookup_length, Hlen. by replace (S n - 1) with n by lia. }
  unfold removeUse, hasUsers, getNumUsers. rewrite Hlen. simpl.
  rewrite bool_decide_eq_true_2 by done. simpl.
  rewrite Hlast. simpl. rewrite Hu. simpl.
  replace (n - 0) with n by lia.
  assert (Hlen' : length (take n (<[j:=L]> (users h c))) = n).
  { rewrite length_take, length_insert. lia. }
  rewrite Hlen'.
  destruct (decide (j = n)) as [->|Hne].
  - rewrite bool_decide_eq_false_2 by (intros ?; done).
    eexists _, n, L, kL. split; [done|]. split_and!; try done.
    + intros p. by rewrite users_setUsers; destruct (decide (c = p)), (decide (p = c)); subst.
    + intros x. rewrite operands_setUsers.
      destruct (decide (x = L /\ n <> n)) as [[_ ?]|]; done.
  - rewrite bool_decide_eq_true_2 by done.
    assert (Hmoved : take n (<[j:=L]> (users h c)) !! j = Some L).
    { rewrite lookup_take_lt by lia. apply list_lookup_insert_eq. lia. }
    rewrite Hmoved. simpl. rewrite operands_setUsers.
    destruct (findFirst_exists (fun u : Use => u = (Some c, n)) (operands h L)
                kL (Some c, n) HkL eq_refl) as (i & Hfi & Hle).
    rewrite Hfi.
    apply findFirst_Some in Hfi as (y & Hy & -> & _).
    assert (i = kL) as -> by (by apply (Hi L i kL c n)).
    eexists _, n, L, kL. split; [done|]. split_and!; try done; [lia| |].
    + intros p. rewrite users_setOperands, users_setUsers.
      by destruct (decide (c = p)), (decide (p = c)); subst.
    + intros x. rewrite operands_setOperands, operands_setUsers.
      destruct (decide (L = x)) as [<-|]; [by rewrite decide_True|].
      rewrite decide_False; [done|]. intros [-> _]. done.
Qed.

Lemma lookup_swap_remove {A} (us : list A) n j L i :
  length us = S n -> j <= n ->
  take n (<[j := L]> us) !! i =
  if decide (i < n) then (if decide (i = j) then Some L else us !! i)
  else None.
Proof.
  intros Hlen Hj. destruct (decide (i < n)) as [Hi|Hi].
  - rewrite lookup_take_lt by done.
    destruct (decide (i = j)) as [->|Hne].
    + apply list_lookup_insert_eq. lia.
    + by apply list_lookup_insert_ne.
  - apply lookup_take_ge. lia.
Qed.

Lemma lookup_patch (ops : list Use) (b : Prop) `{!Decision b} kL u i :
  kL < length ops ->
  (if decide b then <[kL := u]> ops else ops) !! i =
  if decide (b /\ i = kL) then Some u else ops !! i.
Proof.
  intros Hlt. destruct (decide b) as [Hb|Hb].
  - destruct (decide (i = kL)) as [->|Hne].
    + rewrite decide_True by done. by apply list_lookup_insert_eq.
    + rewrite decide_False by (intros [_ ?]; done).
      by apply list_lookup_insert_ne.
  - by rewrite decide_False by (intros [? _]; done).
Qed.

(** After [removeUse] the state is consistent again, up to the slot whose
    use was unregistered. *)
Lemma removeUse_InvH h c j I k h1 n L kL :
  InvH None h -> operands h I !! k = Some (Some c, j) ->
  length (users h c) = S n -> j <= n -> users h c !! n = Some L ->
  operands h L !! kL = Some (Some c, n) ->
  (forall p, users h1 p =
             if decide (p = c) then take n (<[j := L]> (users h c))
             else users h p) ->
  (forall x, operands h1 x =
             if decide (x = L /\ j <> n)
             then <[kL := (Some c, j)]> (operands h x)
             else operands h x) ->
  InvH (Some (I, k)) h1.
Proof.
  intros [Hf Hi Hs] Hk Hlen Hj HL HkL Hus Hops.
  pose proof (Hf I k c j (live_None _ _) Hk) as Hu.
  assert (Hop : forall x i, operands h1 x !! i =
            if decide ((x = L /\ j <> n) /\ i = kL) then Some (Some c, j)
            else operands h x !! i).
  { intros x i. rewrite Hops.
    destruct (decide (x = L)) as [->|Hx].
    - apply lookup_patch. by eapply lookup_lt_Some.
    - rewrite !decide_False; [done| |]; intros H; apply Hx; tauto. }
  assert (Huc : forall i, users h1 c !! i =
            if decide (i < n) then (if decide (i = j) then Some L
                                    else users h c !! i) else None).
  { intros i. rewrite Hus, decide_True by done. by apply lookup_swap_remove. }
  split.
  - intros I' k' p j' Hlive. rewrite Hop.
    destruct (decide ((I' = L /\ j <> n) /\ k' = kL)) as [[[-> Hne] ->]|Hnp].
    + intros [= <- <-]. rewrite Huc, decide_True by lia. by rewrite decide_True.
    + intros Hk'. pose proof (Hf I' k' p j' (live_None _ _) Hk') as Hu'.
      destruct (decide (p = c)) as [->|Hpc]; [|by rewrite Hus, decide_False].
      pose proof (lookup_lt_Some _ _ _ Hu') as Hlt'.
      destruct (decide (j' = j)) as [->|Hjj].
      { exfalso. apply Hlive. f_equal.
        assert (I' = I) as -> by congruence.
        f_equal. by apply (Hi I k k' c j). }
      destruct (decide (j' = n)) as [->|Hjn].
      { exfalso. assert (I' = L) as -> by congruence.
        assert (k' = kL) by (by apply (Hi L k' kL c n)).
        apply Hnp. split; [split; [done|lia] | done]. }
      rewrite Huc, decide_True by lia. by rewrite decide_False.
  - intros I' k1 k2 p j' Hl1 Hl2. rewrite !Hop.
    destruct (decide ((I' = L /\ j <> n) /\ k1 = kL)) as [[[E1 Hne1] K1]|Hn1];
      destruct (decide ((I' = L /\ j <> n) /\ k2 = kL)) as [[[E2 Hne2] K2]|Hn2].
    + intros _ _. by subst.
    + intros [= <- <-] H2. exfalso. subst I'.
      pose proof (Hf L k2 c j (live_None _ _) H2) as Hu2.
      assert (L = I) as -> by congruence.
      apply Hl2. f_equal. f_equal. by apply (Hi I k k2 c j).
    + intros H1 [= <- <-]. exfalso. subst I'.
      pose proof (Hf L k1 c j (live_None _ _) H1) as Hu1.
      assert (L = I) as -> by congruence.
      apply Hl1. f_equal. f_equal. by apply (Hi I k k1 c j).
    + by apply Hi.
  - intros p j' I'. destruct (decide (p = c)) as [->|Hpc].
    + rewrite Huc. destruct (decide (j' < n)) as [Hlt|]; [|done].
      destruct (decide (j' = j)) as [->|Hjj].
      * intros [= <-]. exists kL. split.
        -- intros [= -> ->]. rewrite Hk in HkL. injection HkL. lia.
        -- rewrite Hop, decide_True; [done|]. split; [split; [done|lia] | done].
      * intros Hu'. destruct (Hs c j' I' Hu') as (k0 & _ & Hk0).
        exists k0. split.
        -- intros [= -> ->]. rewrite Hk in Hk0. by injection Hk0.
        -- rewrite Hop, decide_False; [done|].
           intros [[-> _] ->]. rewrite HkL in Hk0. injection Hk0. lia.
    + rewrite Hus, decide_False by done. intros Hu'.
      destruct (Hs p j' I' Hu') as (k0 & _ & Hk0).
      exists k0. split.
      * intros [= -> ->]. rewrite Hk in Hk0. by injection Hk0.
      * rewrite Hop, decide_False; [done|].
        intros [[-> _] ->]. rewrite HkL in Hk0. by injection Hk0.
Qed.

(** Writing null into the slot that was left out restores the invariant. *)
Lemma InvH_fill_null h1 h' I k :
  InvH (Some (I, k)) h1 ->
  (forall p, users h' p = users h1 p) ->
  (forall x i, operands h' x !! i =
               if decide (x = I /\ i = k) then Some (None, 0)
               else operands h1 x !! i) ->
  InvH None h'.
Proof.
  intros [Hf Hi Hs] Hus Hop. split.
  - intros x i p j _. rewrite Hop, Hus.
    destruct (decide (x = I /\ i = k)) as [|Hn]; [done|].
    apply Hf. intros [= -> ->]. by apply Hn.
  - intros x i1 i2 p j _ _. rewrite !Hop.
    destruct (decide (x = I /\ i1 = k)) as [|Hn1]; [done|].
    destruct (decide (x = I /\ i2 = k)) as [|Hn2]; [done|].
    apply Hi; intros [= -> ->]; [by apply Hn1 | by apply Hn2].
  - intros p j x. rewrite Hus. intros Hu.
    destruct (Hs p j x Hu) as (k0 & Hlive & Hk0).
    exists k0. split; [done|]. rewrite Hop, decide_False; [done|].
    intros [-> ->]. by apply Hlive.
Qed.

(** Registering the instruction with the new value ([addUser]) and writing
    the returned use into the slot restores the invariant. *)
Lemma InvH_fill_use h1 h' I k v :
  InvH (Some (I, k)) h1 ->
  (forall p, users h' p =
             if decide (p = v) then users h1 v ++ [I] else users h1 p) ->
  (forall x i, operands h' x !! i =
               if decide (x = I /\ i = k)
               then Some (Some v, length (users h1 v))
               else operands h1 x !! i) ->
  InvH None h'.
Proof.
  intros [Hf Hi Hs] Hus Hop.
  assert (Hlive : forall x i, ~ (x = I /\ i = k) -> live (Some (I, k)) x i).
  { intros x i Hn [= -> ->]. by apply Hn. }
  split.
  - intros x i p j _. rewrite Hop, Hus.
    destruct (decide (x = I /\ i = k)) as [[-> ->]|Hn].
    + intros [= <- <-]. rewrite decide_True by done.
      rewrite lookup_app_r by lia. by rewrite Nat.sub_diag.
    + intros Hk. pose proof (Hf x i p j (Hlive _ _ Hn) Hk) as Hu.
      destruct (decide (p = v)) as [->|]; [|done].
      rewrite lookup_app_l; [done|]. by eapply lookup_lt_Some.
  - intros x i1 i2 p j _ _. rewrite !Hop.
    destruct (decide (x = I /\ i1 = k)) as [[E1 K1]|Hn1];
      destruct (decide (x = I /\ i2 = k)) as [[E2 K2]|Hn2].
    + intros _ _. by subst.
    + intros [= <- <-] H2. exfalso.
      pose proof (Hf x i2 v _ (Hlive _ _ Hn2) H2) as Hu.
      apply lookup_lt_Some in Hu. lia.
    + intros H1 [= <- <-]. exfalso.
      pose proof (Hf x i1 v _ (Hlive _ _ Hn1) H1) as Hu.
      apply lookup_lt_Some in Hu. lia.
    + apply Hi; by apply Hlive.
  - intros p j x. rewrite Hus.
    assert (Hold : users h1 p !! j = Some x ->
                   exists k0, live None x k0 /\
                              operands h' x !! k0 = Some (Some p, j)).
    { intros Hu. destruct (Hs p j x Hu) as (k0 & Hl & Hk0).
      exists k0. split; [done|]. rewrite Hop, decide_False; [done|].
      intros [-> ->]. by apply Hl. }
    destruct (decide (p = v)) as [->|]; [|done].
    intros Hu. apply lookup_app_Some in Hu as [Hu|[Hge Hu]]; [by apply Hold|].
    apply list_lookup_singleton_Some in Hu as [Hz ->].
    exists k. split; [done|]. rewrite Hop, decide_True by done.
    do 3 f_equal. lia.
Qed.

Lemma elem_of_uses h I p j :
  (Some p, j) ∈ uses h I <-> exists k, operands h I !! k = Some (Some p, j).
Proof.
  unfold uses. rewrite list_elem_of_filter, list_elem_of_lookup.
  unfold nonNull. simpl. split; [by intros [_ ?] | by intros ?].
Qed.

Lemma NoDup_filter_lookup (l : list Use) :
  NoDup (filter nonNull l) <->
  forall k k' u, nonNull u -> l !! k = Some u -> l !! k' = Some u -> k = k'.
Proof.
  induction l as [|x l IH].
  - split; [by intros _ k k' u _ ?|]. intros _. constructor.
  - rewrite filter_cons. split.
    + intros Hnd k k' u Hu Hk Hk'.
      assert (Hx : nonNull x ->
                   (x ∉ filter nonNull l) /\ NoDup (filter nonNull l)).
      { intros Hx. rewrite decide_True in Hnd by done.
        by apply NoDup_cons in Hnd. }
      assert (Hl : NoDup (filter nonNull l)).
      { destruct (decide (nonNull x)); [by apply Hx|done]. }
      destruct k as [|k], k' as [|k']; simpl in *; try done.
      * injection Hk as ->. exfalso. apply (proj1 (Hx Hu)).
        apply list_elem_of_filter. split; [done|].
        apply list_elem_of_lookup. eauto.
      * injection Hk' as ->. exfalso. apply (proj1 (Hx Hu)).
        apply list_elem_of_filter. split; [done|].
        apply list_elem_of_lookup. eauto.
      * f_equal. by apply (proj1 IH Hl k k' u).
    + intros Hinj.
      assert (Hl : NoDup (filter nonNull l)).
      { apply IH. intros k k' u Hu Hk Hk'.
        assert (S k = S k') by (by apply (Hinj (S k) (S k') u)). lia. }
      destruct (decide (nonNull x)) as [Hx|]; [|done].
      apply NoDup_cons. split; [|done].
      intros Hin. apply list_elem_of_filter in Hin as [_ Hin].
      apply list_elem_of_lookup in Hin as [i Hi].
      assert (0 = S i) by (by apply (Hinj 0 (S i) x)). lia.
Qed.

Lemma InvH_alt h :
  InvH None h <->
  (forall I p j, (Some p, j) ∈ uses h I -> users h p !! j = Some I) /\
  (forall I, NoDup (uses h I)) /\
  (forall p j I, users h p !! j = Some I -> (Some p, j) ∈ uses h I).
Proof.
  split.
  - intros [Hf Hi Hs]. split_and!.
    + intros I p j Hin. apply elem_of_uses in Hin as [k Hk]. by apply (Hf I k).
    + intros I. apply NoDup_filter_lookup. intros k k' [[p|] j] Hu; [|done].
      by apply Hi.
    + intros p j I Hu. apply elem_of_uses.
      destruct (Hs p j I Hu) as (k & _ & Hk). eauto.
  - intros (Hf & Hi & Hs). split.
    + intros I k p j _ Hk. apply Hf. apply elem_of_uses. eauto.
    + intros I k k' p j _ _ Hk Hk'.
      by apply (proj1 (NoDup_filter_lookup _) (Hi I) k k' (Some p, j)).
    + intros p j I Hu. apply Hs, elem_of_uses in Hu as [k Hk]. eauto.
Qed.

(** Operand vectors may be reshaped freely as long as their non-null slots
    stay the same, in the same order. *)
Lemma InvH_reshape h h' :
  InvH None h ->
  (forall p, users h' p = users h p) ->
  (forall x, uses h' x = uses h x) ->
  InvH None h'.
Proof.
  rewrite !InvH_alt. intros (Hf & Hi & Hs) Hus Hops. split_and!.
  - intros I p j. rewrite Hops, Hus. apply Hf.
  - intros I. rewrite Hops. apply Hi.
  - intros p j I. rewrite Hops, Hus. apply Hs.
Qed.

Lemma uses_setOperands h I l x :
  filter nonNull l = uses h I -> uses (setOperands h I l) x = uses h x.
Proof.
  intros Hl. unfold uses at 1. rewrite operands_setOperands.
  by destruct (decide (I = x)) as [<-|].
Qed.

Lemma filter_nonNull_snoc_null (l : list Use) j :
  filter nonNull (l ++ [(None, j)]) = filter nonNull l.
Proof. rewrite filter_app. simpl. apply app_nil_r. Qed.

Lemma filter_nonNull_delete_null (l : list Use) k j :
  l !! k = Some (None, j) -> filter nonNull (delete k l) = filter nonNull l.
Proof.
  intros Hk. rewrite delete_take_drop.
  rewrite <- (take_drop_middle l k (None, j) Hk) at 3.
  by rewrite !filter_app.
Qed.

Lemma filter_nonNull_idemp (l : list Use) :
  filter nonNull (filter nonNull l) = filter nonNull l.
Proof.
  induction l as [|x l IH]; [done|]. rewrite filter_cons.
  destruct (decide (nonNull x)); [|done].
  rewrite filter_cons, decide_True by done. by rewrite IH.
Qed.

Lemma producers_lookup h i k :
  producers h i !! k = fst <$> operands h i !! k.
Proof. unfold producers. apply list_lookup_fmap. Qed.

Lemma producers_length h i : length (producers h i) = length (operands h i).
Proof. unfold producers. apply length_fmap. Qed.

(** Unregistering the current use of a slot (the first half of
    [setOperand]). *)
Lemma unregister_spec h I k cur :
  InvH None h -> operands h I !! k = Some cur ->
  exists h1,
    match cur.1 with Some c => removeUse h c cur | None => Some h end = Some h1 /\
    InvH (Some (I, k)) h1 /\
    (forall x, producers h1 x = producers h x) /\
    (forall p, Some p <> cur.1 -> users h1 p = users h p) /\
    (forall c, cur.1 = Some c -> length (users h1 c) = length (users h c) - 1) /\
    (forall p, users h1 p ⊆ users h p) /\
    InstList h1 = InstList h /\ Parent h1 = Parent h /\
    BasicBlockList h1 = BasicBlockList h.
Proof.
  intros Hinv Hcur. destruct cur as [[c|] j]; simpl.
  - destruct (removeUse_spec h c j I k Hinv Hcur)
      as (h1 & n & L & kL & Hr & Hlen & Hj & HL & HkL & Hus & Hops & HI & HP & HB).
    exists h1. split; [done|]. split_and!; try done.
    + by eapply removeUse_InvH.
    + intros x. unfold producers. rewrite Hops.
      destruct (decide (x = L /\ j <> n)) as [[-> _]|]; [|done].
      rewrite list_fmap_insert. simpl. apply list_insert_id.
      by rewrite list_lookup_fmap, HkL.
    + intros p Hp. rewrite Hus, decide_False; [done|]. congruence.
    + intros c' [= <-]. rewrite Hus, decide_True by done.
      rewrite length_take, length_insert. lia.
    + intros p. rewrite Hus. destruct (decide (p = c)) as [->|]; [|done].
      intros x Hx. apply list_elem_of_lookup in Hx as [i Hx].
      rewrite (lookup_swap_remove _ n j L i Hlen Hj) in Hx.
      destruct (decide (i < n)); [|done].
      apply list_elem_of_lookup.
      destruct (decide (i = j)); [injection Hx as <-|]; eauto.
  - exists h. split; [done|]. split_and!; try done.
    by eapply InvH_hole_null.
Qed.

Section UseDefFacts.

Context {ValueKind : Type}.
Context (getKind : ValueId -> ValueKind).
Context (canSetOperandImpl : ValueKind -> ValueKind -> nat -> bool).

Local Abbreviation canSetOperand := (canSetOperand getKind canSetOperandImpl).
Local Abbreviation setOperand := (setOperand getKind canSetOperandImpl).
Local Abbreviation pushOperand := (pushOperand getKind canSetOperandImpl).
Local Abbreviation removeOperand := (removeOperand getKind canSetOperandImpl).
Local Abbreviation replaceFirstOperandWith :=
  (replaceFirstOperandWith getKind canSetOperandImpl).
Local Abbreviation eraseOperandStep :=
  (eraseOperandStep getKind canSetOperandImpl).
Local Abbreviation eraseOperand := (eraseOperand getKind canSetOperandImpl).
Local Abbreviation replaceAllUsesLoop :=
  (replaceAllUsesLoop getKind canSetOperandImpl).
Local Abbreviation replaceAllUsesWith :=
  (replaceAllUsesWith getKind canSetOperandImpl).
Local Abbreviation removeAllUsesLoop :=
  (removeAllUsesLoop getKind canSetOperandImpl).
Local Abbreviation removeAllUses := (removeAllUses getKind canSetOperandImpl).
Local Abbreviation runOp := (runOp getKind canSetOperandImpl).
Local Abbreviation runOps := (runOps getKind canSetOperandImpl).
Local Abbreviation releaseOperandStep :=
  (releaseOperandStep getKind canSetOperandImpl).
Local Abbreviation Instruction_eraseFromParent :=
  (Instruction_eraseFromParent getKind canSetOperandImpl).
Local Abbreviation eraseInstructionsLoop :=
  (eraseInstructionsLoop getKind canSetOperandImpl).
Local Abbreviation BasicBlock_eraseFromParent :=
  (BasicBlock_eraseFromParent getKind canSetOperandImpl).

Lemma setOperand_ok h I v k cur :
  InvH None h -> operands h I !! k = Some cur ->
  (forall w, v = Some w -> cur.1 <> v ->
             canSetOperand I (getKind w) k = true) ->
  exists h', setOperand h I v k = Some h' /\ SetOperandPost h h' I k cur v.
Proof.
  intros Hinv Hcur Hcan. unfold IR.setOperand. rewrite Hcur. simpl.
  destruct (decide (cur.1 = v)) as [Heq|Hne].
  { rewrite bool_decide_eq_true_2 by done. exists h. split; [done|].
    split; try done.
    - intros x. destruct (decide (x = I)) as [->|]; [|done].
      symmetry. apply list_insert_id. rewrite producers_lookup, Hcur.
      simpl. by rewrite Heq.
    - intros c Hc Hv. congruence. }
  rewrite bool_decide_eq_false_2 by done.
  destruct (unregister_spec h I k cur Hinv Hcur)
    as (h1 & Hr & Hinv1 & Hprod & Hus & Hold & Hsub1 & HI & HP & HB).
  rewrite Hr. simpl.
  assert (Hk1 : k < length (operands h1 I)).
  { rewrite <- producers_length, Hprod, producers_length.
    by eapply lookup_lt_Some. }
  destruct v as [w|].
  - rewrite (Hcan w) by done. unfold addUser.
    eexists. split; [done|].
    set (h2 := setUsers h1 w (users h1 w ++ [I])).
    split; try done.
    + apply (InvH_fill_use h1 _ I k w Hinv1).
      * intros p. rewrite users_setOperands. unfold h2. rewrite users_setUsers.
        by destruct (decide (w = p)), (decide (p = w)); subst.
      * intros x i. rewrite operands_setOperands. unfold h2.
        rewrite !operands_setUsers.
        destruct (decide (I = x)) as [<-|Hx].
        -- destruct (decide (i = k)) as [->|Hik].
           ++ rewrite decide_True by done. by apply list_lookup_insert_eq.
           ++ rewrite decide_False by (intros [_ ?]; done).
              by apply list_lookup_insert_ne.
        -- by rewrite decide_False by (intros [? _]; done).
    + intros x. unfold producers at 1. rewrite operands_setOperands.
      unfold h2. rewrite !operands_setUsers.
      destruct (decide (I = x)) as [<-|Hx].
      * rewrite decide_True by done. rewrite list_fmap_insert. simpl.
        f_equal. apply Hprod.
      * rewrite decide_False by done. apply Hprod.
    + intros p Hp1 Hp2. rewrite users_setOperands. unfold h2.
      rewrite users_setUsers, decide_False by congruence. by apply Hus.
    + intros c Hc Hv. rewrite users_setOperands. unfold h2.
      rewrite users_setUsers, decide_False by congruence. by apply Hold.
    + intros p Hp. rewrite users_setOperands. unfold h2.
      rewrite users_setUsers, decide_False by congruence. apply Hsub1.
  - eexists. split; [done|]. split; try done.
    + apply (InvH_fill_null h1 _ I k Hinv1).
      * intros p. by rewrite users_setOperands.
      * intros x i. rewrite operands_setOperands.
        destruct (decide (I = x)) as [<-|Hx].
        -- destruct (decide (i = k)) as [->|Hik].
           ++ rewrite decide_True by done. by apply list_lookup_insert_eq.
           ++ rewrite decide_False by (intros [_ ?]; done).
              by apply list_lookup_insert_ne.
        -- by rewrite decide_False by (intros [? _]; done).
    + intros x. unfold producers at 1. rewrite operands_setOperands.
      destruct (decide (I = x)) as [<-|Hx].
      * rewrite decide_True by done. rewrite list_fmap_insert. simpl.
        f_equal. apply Hprod.
      * rewrite decide_False by done. apply Hprod.
    + intros p Hp1 Hp2. rewrite users_setOperands. by apply Hus.
    + intros c Hc Hv. rewrite users_setOperands. by apply Hold.
    + intros p Hp. rewrite users_setOperands. apply Hsub1.
Qed.

Lemma setOperand_inv h I v k h' :
  InvH None h -> setOperand h I v k = Some h' ->
  exists cur, operands h I !! k = Some cur /\ SetOperandPost h h' I k cur v.
Proof.
  intros Hinv Hset.
  destruct (operands h I !! k) as [cur|] eqn:Hcur;
    [|by unfold IR.setOperand in Hset; rewrite Hcur in Hset].
  exists cur. split; [done|].
  destruct (setOperand_ok h I v k cur Hinv Hcur) as (h'' & Hset' & Hpost).
  - intros w -> Hne. unfold IR.setOperand in Hset. rewrite Hcur in Hset.
    simpl in Hset. rewrite bool_decide_eq_false_2 in Hset by done.
    destruct (match cur.1 with Some c => removeUse h c cur | None => Some h end);
      [|done].
    simpl in Hset. by destruct (canSetOperand I (getKind w) k).
  - rewrite Hset in Hset'. by injection Hset' as ->.
Qed.

Lemma setOperand_InvH h I v k h' :
  InvH None h -> setOperand h I v k = Some h' -> InvH None h'.
Proof.
  intros Hinv Hset.
  destruct (setOperand_inv h I v k h' Hinv Hset) as (cur & _ & Hpost).
  apply Hpost.
Qed.

Lemma pushOperand_InvH h I v h' :
  InvH None h -> pushOperand h I v = Some h' -> InvH None h'.
Proof.
  intros Hinv. unfold IR.pushOperand. apply setOperand_InvH.
  apply (InvH_reshape h); [done|done|].
  intros x. apply uses_setOperands, filter_nonNull_snoc_null.
Qed.

Lemma removeOperand_InvH h I k h' :
  InvH None h -> removeOperand h I k = Some h' -> InvH None h'.
Proof.
  intros Hinv. unfold IR.removeOperand.
  destruct (setOperand h I None k) as [h1|] eqn:Hset; [|done]. simpl.
  intros [= <-].
  destruct (setOperand_inv h I None k h1 Hinv Hset) as (cur & Hcur & Hpost).
  apply (InvH_reshape h1); [apply Hpost|done|].
  intros x. apply uses_setOperands.
  pose proof (sop_prod _ _ _ _ _ _ Hpost I) as Hp.
  rewrite decide_True in Hp by done.
  assert (Hk : producers h1 I !! k = Some None).
  { rewrite Hp. apply list_lookup_insert_eq. rewrite producers_length.
    by eapply lookup_lt_Some. }
  rewrite producers_lookup in Hk.
  destruct (operands h1 I !! k) as [[o j]|] eqn:Hk1; [|done].
  simpl in Hk. injection Hk as ->.
  by eapply filter_nonNull_delete_null.
Qed.

Lemma replaceFirstOperandWith_InvH h I o n h' :
  InvH None h -> replaceFirstOperandWith h I o n = Some h' -> InvH None h'.
Proof.
  intros Hinv. unfold IR.replaceFirstOperandWith.
  destruct (findFirst _ _) as [i|]; [|done]. by apply setOperand_InvH.
Qed.

Lemma foldl_eraseOperandStep_None I V l :
  foldl (eraseOperandStep I V) None l = None.
Proof. induction l as [|i l IH]; [done|]. simpl. apply IH. Qed.

Lemma foldl_eraseOperandStep_InvH I V l h h' :
  InvH None h ->
  foldl (eraseOperandStep I V) (Some h) l = Some h' -> InvH None h'.
Proof.
  revert h. induction l as [|i l IH]; intros h Hinv; simpl.
  - by intros [= <-].
  - destruct (getOperand h I i) as [o|];
      [|by rewrite foldl_eraseOperandStep_None]. simpl.
    destruct (bool_decide (o = Some V)); [|by apply IH].
    destruct (setOperand h I None i) as [h1|] eqn:Hset;
      [|by rewrite foldl_eraseOperandStep_None].
    apply IH. by eapply setOperand_InvH.
Qed.

Lemma eraseOperand_InvH h I V h' :
  InvH None h -> eraseOperand h I V = Some h' -> InvH None h'.
Proof.
  intros Hinv. unfold IR.eraseOperand.
  destruct (foldl _ _ _) as [h1|] eqn:Hfold; [|done]. simpl.
  destruct (hasUser _ _ _); [done|]. intros [= <-].
  apply (InvH_reshape h1); [by eapply foldl_eraseOperandStep_InvH|done|].
  intros x. apply uses_setOperands, filter_nonNull_idemp.
Qed.

Lemma replaceAllUsesLoop_InvH fuel h v w h' :
  InvH None h -> replaceAllUsesLoop fuel h v w = Some h' -> InvH None h'.
Proof.
  revert h. induction fuel as [|fuel IH]; intros h Hinv; simpl.
  - destruct (last (users h v)); [done | by intros [= <-]].
  - destruct (last (users h v)) as [u|]; [|by intros [= <-]].
    destruct (replaceFirstOperandWith h u (Some v) w) as [h1|] eqn:Hr; [|done].
    simpl. apply IH. by eapply replaceFirstOperandWith_InvH.
Qed.

Lemma replaceAllUsesWith_InvH h v w h' :
  InvH None h -> replaceAllUsesWith h v w = Some h' -> InvH None h'.
Proof.
  intros Hinv. unfold IR.replaceAllUsesWith.
  destruct (bool_decide (Some v = w)); [by intros [= <-]|].
  by apply replaceAllUsesLoop_InvH.
Qed.

Lemma removeAllUsesLoop_InvH fuel h v h' :
  InvH None h -> removeAllUsesLoop fuel h v = Some h' -> InvH None h'.
Proof.
  revert h. induction fuel as [|fuel IH]; intros h Hinv; simpl.
  - destruct (last (users h v)); [done | by intros [= <-]].
  - destruct (last (users h v)) as [u|]; [|by intros [= <-]].
    destruct (eraseOperand h u v) as [h1|] eqn:Hr; [|done].
    simpl. apply IH. by eapply eraseOperand_InvH.
Qed.

Lemma runOp_InvH h op h' :
  InvH None h -> runOp h op = Some h' -> InvH None h'.
Proof.
  intros Hinv. destruct op; simpl.
  - by apply pushOperand_InvH.
  - by apply setOperand_InvH.
  - by apply removeOperand_InvH.
  - by apply replaceFirstOperandWith_InvH.
  - by apply eraseOperand_InvH.
  - by apply replaceAllUsesWith_InvH.
  - by apply removeAllUsesLoop_InvH.
Qed.

Lemma runOps_InvH ops h h' :
  InvH None h -> runOps h ops = Some h' -> InvH None h'.
Proof.
  revert h. induction ops as [|op ops IH]; intros h Hinv; simpl.
  - by intros [= <-].
  - destruct (runOp h op) as [h1|] eqn:Hop; [|done]. simpl.
    apply IH. by eapply runOp_InvH.
Qed.

Lemma filter_ext_in {A} (P Q : A -> Prop) `{!forall x, Decision (P x)}
    `{!forall x, Decision (Q x)} (l : list A) :
  (forall x, x ∈ l -> P x <-> Q x) -> filter P l = filter Q l.
Proof.
  induction l as [|x l IH]; intros Hext; [done|].
  rewrite !filter_cons.
  assert (Hx : P x <-> Q x) by (apply Hext; left).
  rewrite IH by (intros y Hy; apply Hext; by right).
  destruct (decide (P x)) as [HP|HP], (decide (Q x)) as [HQ|HQ]; tauto.
Qed.

(** The first loop of [eraseOperand] over the positions [l]: the slots
    among them that hold [V] are nulled, one user of [V] less for each. *)
Lemma eraseFold_spec I V l h :
  InvH None h -> NoDup l -> (forall i, i ∈ l -> i < length (producers h I)) ->
  exists h1,
    foldl (eraseOperandStep I V) (Some h) l = Some h1 /\
    InvH None h1 /\
    (forall k, producers h1 I !! k =
               if decide (k ∈ l /\ producers h I !! k = Some (Some V))
               then Some None else producers h I !! k) /\
    length (users h1 V) +
      length (filter (fun i => producers h I !! i = Some (Some V)) l) =
    length (users h V).
Proof.
  revert h. induction l as [|i l IH]; intros h Hinv Hnd Hl.
  - exists h. split; [done|]. split; [done|]. split.
    + intros k. rewrite decide_False; [done|]. intros [Hk _].
      by apply elem_of_nil in Hk.
    + rewrite filter_nil. simpl. lia.
  - apply NoDup_cons in Hnd as [Hi Hnd].
    assert (Hlt : i < length (operands h I)).
    { rewrite <- producers_length. apply Hl. left. }
    destruct (lookup_lt_is_Some_2 _ _ Hlt) as [cur Hcur].
    assert (Hget : getOperand h I i = Some cur.1).
    { unfold getOperand. by rewrite Hcur. }
    assert (Hpi : producers h I !! i = Some cur.1).
    { by rewrite producers_lookup, Hcur. }
    cbn [foldl]. unfold IR.eraseOperandStep at 2. cbn [mbind option_bind].
    rewrite Hget. cbn [mbind option_bind].
    destruct (decide (cur.1 = Some V)) as [HV|HV].
    + rewrite bool_decide_eq_true_2 by done.
      destruct (setOperand_ok h I None i cur Hinv Hcur)
        as (h0 & Hset & Hpost); [done|].
      rewrite Hset.
      pose proof (sop_prod _ _ _ _ _ _ Hpost I) as Hp0.
      rewrite decide_True in Hp0 by done.
      assert (Hsame : forall k, k <> i ->
                producers h0 I !! k = producers h I !! k).
      { intros k Hk. rewrite Hp0. by apply list_lookup_insert_ne. }
      destruct (IH h0) as (h1 & Hfold & Hinv1 & Hprod & Hcount);
        [apply Hpost | done | |].
      { intros k Hk. rewrite Hp0, length_insert. apply Hl. by right. }
      exists h1. split; [done|]. split; [done|]. split.
      * intros k. rewrite Hprod. destruct (decide (k = i)) as [->|Hki].
        -- rewrite decide_False by (intros [? _]; done).
           rewrite decide_True by (split; [left | congruence]).
           rewrite Hp0. apply list_lookup_insert_eq.
           by rewrite producers_length.
        -- rewrite Hsame by done.
           destruct (decide (k ∈ l /\ producers h I !! k = Some (Some V)))
             as [[Hk Hv]|Hn].
           ++ rewrite decide_True; [done|]. split; [by right | done].
           ++ rewrite decide_False; [done|]. intros [Hk Hv]. apply Hn.
              split; [|done]. by apply elem_of_cons in Hk as [?|?].
      * rewrite filter_cons, decide_True by congruence.
        rewrite (filter_ext_in
                   (fun j => producers h0 I !! j = Some (Some V))
                   (fun j => producers h I !! j = Some (Some V)) l) in Hcount.
        2:{ intros j Hj. rewrite Hsame; [done|]. by intros ->. }
        pose proof (sop_users_old _ _ _ _ _ _ Hpost V HV ltac:(done)) as Hold.
        assert (Hpos : 0 < length (users h V)).
        { destruct cur as [o j]. simpl in HV. subst o.
          pose proof (inv_fwd _ _ Hinv I i V j (live_None _ _) Hcur) as Hu.
          apply lookup_lt_Some in Hu. lia. }
        simpl. lia.
    + rewrite bool_decide_eq_false_2 by done.
      destruct (IH h Hinv Hnd) as (h1 & Hfold & Hinv1 & Hprod & Hcount).
      { intros k Hk. apply Hl. by right. }
      exists h1. split; [done|]. split; [done|]. split.
      * intros k. rewrite Hprod.
        destruct (decide (k ∈ l /\ producers h I !! k = Some (Some V)))
          as [[Hk Hv]|Hn].
        -- rewrite decide_True; [done|]. split; [by right | done].
        -- rewrite decide_False; [done|]. intros [Hk Hv]. apply Hn.
           split; [|done]. apply elem_of_cons in Hk as [->|?]; [|done].
           congruence.
      * rewrite filter_cons, decide_False by congruence. done.
Qed.

(** [eraseOperand] returns on a consistent state, and takes [V] as many
    users off as the instruction had slots holding [V]. *)
Lemma eraseOperand_returns h I V :
  InvH None h ->
  exists h2,
    eraseOperand h I V = Some h2 /\ InvH None h2 /\
    (I ∈ users h V -> length (users h2 V) < length (users h V)).
Proof.
  intros Hinv.
  destruct (eraseFold_spec I V (seq 0 (getNumOperands h I)) h Hinv)
    as (h1 & Hfold & Hinv1 & Hprod & Hcount).
  { apply NoDup_seq. }
  { intros i Hi. apply elem_of_seq in Hi. rewrite producers_length.
    unfold getNumOperands in Hi. lia. }
  assert (Hno : forall k, producers h1 I !! k <> Some (Some V)).
  { intros k. rewrite Hprod.
    destruct (decide (k ∈ seq 0 (getNumOperands h I) /\
                      producers h I !! k = Some (Some V))) as [|Hn]; [done|].
    intros Hk. apply Hn. split; [|done]. apply elem_of_seq.
    apply lookup_lt_Some in Hk. rewrite producers_length in Hk.
    unfold getNumOperands. lia. }
  assert (Hnot : I ∉ users h1 V).
  { intros Hin. apply list_elem_of_lookup in Hin as [j Hj].
    destruct (inv_surj _ _ Hinv1 V j I Hj) as (k & _ & Hk).
    apply (Hno k). by rewrite producers_lookup, Hk. }
  unfold IR.eraseOperand. rewrite Hfold. cbn [mbind option_bind].
  unfold hasUser. rewrite users_setOperands.
  rewrite bool_decide_eq_false_2 by done.
  eexists. split; [done|]. split.
  - apply (InvH_reshape h1); [done|done|].
    intros x. apply uses_setOperands, filter_nonNull_idemp.
  - intros Hin. rewrite users_setOperands.
    apply list_elem_of_lookup in Hin as [j Hj].
    destruct (inv_surj _ _ Hinv V j I Hj) as (k & _ & Hk).
    assert (Hk' : k ∈ filter (fun i => producers h I !! i = Some (Some V))
                         (seq 0 (getNumOperands h I))).
    { apply list_elem_of_filter. split.
      - by rewrite producers_lookup, Hk.
      - apply elem_of_seq. apply lookup_lt_Some in Hk.
        unfold getNumOperands. lia. }
    destruct (filter _ (seq 0 (getNumOperands h I))) as [|x xs];
      [by apply elem_of_nil in Hk'|]. simpl in Hcount. lia.
Qed.

(** [removeAllUses] returns on a consistent state: the number of users is
    fuel enough for its loop. *)
Lemma removeAllUsesLoop_returns fuel h v :
  InvH None h -> length (users h v) <= fuel ->
  exists h', removeAllUsesLoop fuel h v = Some h' /\
             InvH None h' /\ users h' v = [].
Proof.
  revert h. induction fuel as [|fuel IH]; intros h Hinv Hlen.
  - assert (Hnil : users h v = []) by (apply nil_length_inv; lia).
    exists h. simpl. by rewrite Hnil.
  - destruct (last (users h v)) as [u|] eqn:Hlast.
    + destruct (eraseOperand_returns h u v Hinv) as (h1 & He & Hinv1 & Hdec).
      assert (Hin : u ∈ users h v).
      { rewrite last_lookup in Hlast. apply list_elem_of_lookup. eauto. }
      destruct (IH h1 Hinv1) as (h' & Hloop & Hinv' & Hnil).
      { specialize (Hdec Hin). lia. }
      exists h'. simpl. rewrite Hlast, He. done.
    + apply last_None in Hlast. exists h. simpl. by rewrite Hlast.
Qed.

Lemma removeAllUses_returns h v :
  InvH None h ->
  exists h', removeAllUses h v = Some h' /\ InvH None h' /\ users h' v = [].
Proof. intros Hinv. by apply removeAllUsesLoop_returns. Qed.

(** One round of the loop: the last user's first slot that holds [v]. *)
Lemma replaceFirst_round h v w u :
  InvH None h -> last (users h v) = Some u -> w <> Some v ->
  (forall w' i j, w = Some w' -> operands h u !! i = Some (Some v, j) ->
                  canSetOperand u (getKind w') i = true) ->
  exists h1 i,
    replaceFirstOperandWith h u (Some v) w = Some h1 /\
    InvH None h1 /\
    producers h u !! i = Some (Some v) /\
    (forall x, producers h1 x =
               if decide (x = u) then <[i := w]> (producers h u)
               else producers h x) /\
    length (users h1 v) = length (users h v) - 1.
Proof.
  intros Hinv Hlast Hw Hcan.
  rewrite last_lookup in Hlast.
  destruct (inv_surj _ _ Hinv v _ u Hlast) as (k & _ & Hk).
  destruct (findFirst_exists (fun x : Use => x.1 = Some v) (operands h u)
              k (Some v, _) Hk eq_refl) as (i & Hfi & _).
  unfold IR.replaceFirstOperandWith. rewrite Hfi.
  apply findFirst_Some in Hfi as ([o j] & Hi & Ho & _). simpl in Ho. subst o.
  destruct (setOperand_ok h u w i (Some v, j) Hinv Hi)
    as (h1 & Hset & Hpost).
  { intros w' -> _. by eapply Hcan. }
  exists h1, i. split_and!; [done|apply Hpost| | |].
  - by rewrite producers_lookup, Hi.
  - intros x. rewrite (sop_prod _ _ _ _ _ _ Hpost).
    by destruct (decide (x = u)) as [->|].
  - by apply (sop_users_old _ _ _ _ _ _ Hpost).
Qed.

Lemma replaceAllUsesLoop_ok h v w n hi :
  w <> Some v -> mayReplace getKind canSetOperandImpl h v w ->
  InvH None hi -> length (users hi v) = n -> partlyReplaced h hi v w ->
  exists h',
    replaceAllUsesLoop n hi v w = Some h' /\
    users h' v = [] /\ InvH None h' /\ partlyReplaced h h' v w.
Proof.
  intros Hw Hcan. revert hi.
  induction n as [|n IH]; intros hi Hinv Hlen Hrel.
  - apply nil_length_inv in Hlen. exists hi.
    split; [|done]. simpl. by rewrite Hlen.
  - destruct (last (users hi v)) as [u|] eqn:Hlast;
      [|apply last_None in Hlast; by rewrite Hlast in Hlen].
    destruct (replaceFirst_round hi v w u Hinv Hlast Hw)
      as (h1 & i & Hr & Hinv1 & Hi & Hprod & Hlen1).
    { intros w' i j -> Hij. destruct (Hrel u i) as [Heq|[Hv Hwi]].
      - rewrite !producers_lookup, Hij in Heq. simpl in Heq.
        destruct (operands h u !! i) as [[o j0]|] eqn:Hh; [|done].
        simpl in Heq. injection Heq as <-. by eapply Hcan.
      - rewrite producers_lookup, Hij in Hwi. simpl in Hwi. congruence. }
    destruct (IH h1) as (h' & Hloop & Hnil & Hinv' & Hrel'); [done|lia|..].
    { intros x k. rewrite Hprod.
      destruct (decide (x = u)) as [->|]; [|apply Hrel].
      destruct (decide (k = i)) as [->|Hne].
      - right. rewrite list_lookup_insert_eq
          by (by eapply lookup_lt_Some). split; [|done].
        destruct (Hrel u i) as [Heq|[Hv Hwi]]; [congruence|].
        congruence.
      - rewrite list_lookup_insert_ne by done. apply Hrel. }
    exists h'. split; [|done]. simpl. rewrite Hlast, Hr. done.
Qed.

(** C2. [v.replaceAllUsesWith(w)] on a consistent state, where [w] is legal
    in the slots that hold [v]: the loop takes the last user and replaces its
    first slot that holds [v], again and again until [v] has no users.  When
    [w] differs from [v] the call returns, [v] has no users afterwards and
    exactly the slots that held [v] hold [w], however many of them one user
    had.  When [w] is [v] the call changes nothing. *)
Theorem replaceAllUsesWith_correct (h : State) (v : ValueId)
    (w : option ValueId) :
  UseDefConsistent h -> mayReplace getKind canSetOperandImpl h v w ->
  (w = Some v -> replaceAllUsesWith h v w = Some h) /\
  (w <> Some v ->
   (forall u, last (users h v) = Some u ->
      replaceAllUsesWith h v w =
      h1 ← replaceFirstOperandWith h u (Some v) w;
      replaceAllUsesWith h1 v w) /\
   exists h',
     replaceAllUsesWith h v w = Some h' /\
     users h' v = [] /\
     (forall u, producers h' u =
                (fun p => if decide (p = Some v) then w else p) <$>
                  producers h u) /\
     UseDefConsistent h').
Proof.
  rewrite consistent_InvH. intros Hinv Hcan. split.
  { intros ->. unfold IR.replaceAllUsesWith.
    by rewrite bool_decide_eq_true_2. }
  intros Hw. split.
  { intros u Hlast.
    destruct (replaceFirst_round h v w u Hinv Hlast Hw)
      as (h1 & i & Hr & Hinv1 & Hi & Hprod & Hlen1).
    { intros w' i j Hw'. by apply Hcan. }
    assert (Hn : getNumUsers h v = S (getNumUsers h1 v)).
    { unfold getNumUsers. rewrite Hlen1.
      destruct (users h v); [done | simpl; lia]. }
    unfold IR.replaceAllUsesWith at 1.
    rewrite bool_decide_eq_false_2 by congruence.
    rewrite Hn. simpl. rewrite Hlast, Hr. simpl.
    unfold IR.replaceAllUsesWith.
    by rewrite bool_decide_eq_false_2 by congruence. }
  destruct (replaceAllUsesLoop_ok h v w (length (users h v)) h Hw Hcan Hinv eq_refl)
    as (h' & Hloop & Hnil & Hinv' & Hrel).
  { intros u k. by left. }
  exists h'. unfold IR.replaceAllUsesWith.
  rewrite bool_decide_eq_false_2 by congruence.
  split; [done|]. split; [done|]. split; [|by apply consistent_InvH].
  intros u. apply list_eq. intros k. rewrite list_lookup_fmap.
  assert (Hnov : producers h' u !! k <> Some (Some v)).
  { rewrite producers_lookup. intros Hk.
    destruct (operands h' u !! k) as [[o j]|] eqn:Hou; [|done].
    simpl in Hk. injection Hk as ->.
    pose proof (inv_fwd _ _ Hinv' u k v j (live_None _ _) Hou) as Hu.
    by rewrite Hnil in Hu. }
  destruct (Hrel u k) as [Heq|[Hv Hwk]].
  - rewrite <- Heq. destruct (producers h' u !! k) as [p|]; [|done].
    simpl. rewrite decide_False; [done|]. congruence.
  - rewrite Hv, Hwk. simpl. by rewrite decide_True.
Qed.

(** Each operation returns when it is called within its contract on a
    consistent state. *)
Lemma runOp_returns h op :
  InvH None h -> opContract getKind canSetOperandImpl h op ->
  is_Some (runOp h op).
Proof.
  intros Hinv. destruct op as [i v|i v k|i k|i o n|i v|v w|v]; simpl.
  - intros Hcan. unfold pushOperand.
    set (h1 := setOperands h i (operands h i ++ [(None, 0)])).
    assert (Hinv1 : InvH None h1).
    { apply (InvH_reshape h); [done|done|].
      intros x. apply uses_setOperands, filter_nonNull_snoc_null. }
    assert (Hops : operands h1 i = operands h i ++ [(None, 0)]).
    { unfold h1. by rewrite operands_setOperands, decide_True. }
    assert (Hn : getNumOperands h1 i - 1 = getNumOperands h i).
    { unfold getNumOperands. rewrite Hops, length_app. simpl. lia. }
    rewrite Hn.
    destruct (setOperand_ok h1 i v
                (getNumOperands h i) (None, 0) Hinv1) as (h' & Hset & _).
    + rewrite Hops. unfold getNumOperands.
      rewrite lookup_app_r by lia. by rewrite Nat.sub_diag.
    + intros w Hw _. by apply Hcan.
    + by exists h'.
  - intros [Hk Hcan].
    destruct (lookup_lt_is_Some_2 _ _ Hk) as [cur Hcur].
    destruct (setOperand_ok h i v k cur Hinv Hcur)
      as (h' & Hset & _).
    + intros w Hw Hne. apply Hcan; [done|].
      rewrite producers_lookup, Hcur. simpl. congruence.
    + by exists h'.
  - intros Hk. unfold removeOperand.
    destruct (lookup_lt_is_Some_2 _ _ Hk) as [cur Hcur].
    destruct (setOperand_ok h i None k cur Hinv Hcur)
      as (h' & Hset & _); [done|].
    rewrite Hset. by eexists.
  - intros [Hin Hcan]. unfold replaceFirstOperandWith.
    apply list_elem_of_lookup in Hin as [k Hk].
    rewrite producers_lookup in Hk.
    destruct (operands h i !! k) as [u|] eqn:Hu; [|done].
    simpl in Hk. injection Hk as Hk.
    destruct (findFirst_exists (fun x : Use => x.1 = o) (operands h i) k u Hu Hk)
      as (k0 & Hfind & _).
    rewrite Hfind. apply findFirst_Some in Hfind as (cur & Hcur & Hc & _).
    destruct (setOperand_ok h i n k0 cur Hinv Hcur)
      as (h' & Hset & _).
    + intros w Hw Hne. apply Hcan; [done| |congruence].
      rewrite producers_lookup, Hcur. simpl. congruence.
    + by exists h'.
  - intros _. destruct (eraseOperand_returns h i v Hinv)
      as (h' & He & _). by exists h'.
  - intros Hmay. unfold replaceAllUsesWith.
    destruct (decide (Some v = w)) as [Heq|Hne].
    + rewrite bool_decide_eq_true_2 by done. by eexists.
    + rewrite bool_decide_eq_false_2 by done.
      assert (Hw : w <> Some v) by (by intros ->).
      assert (Hrel : partlyReplaced h h v w) by (intros u k; by left).
      destruct (replaceAllUsesLoop_ok h v w
                  (length (users h v)) h Hw Hmay Hinv eq_refl Hrel)
        as (h' & Hloop & _).
      by exists h'.
  - intros _.
    destruct (removeAllUses_returns h v Hinv)
      as (h' & Hr & _). by exists h'.
Qed.

(** C1. Invariant 1 (bidirectional use-def consistency) holds after every
    sequence of [pushOperand], [setOperand], [removeOperand],
    [replaceFirstOperandWith], [eraseOperand], [replaceAllUsesWith] and
    [removeAllUses] that starts in a consistent state.  In every state so
    reached each of these operations returns when called within its
    contract, and the swap-with-last removal of [removeUse] moves the last
    user into the vacated position and patches that user's operand slot
    from [(self, lastIndex)] to [(self, removedIndex)]. *)
Theorem use_def_consistency_preserved (ops : list Op) (h h' : State) :
  UseDefConsistent h -> runOps h ops = Some h' ->
  UseDefConsistent h' /\
  (forall op, opContract getKind canSetOperandImpl h' op ->
              is_Some (runOp h' op)) /\
  forall self j I k,
    operands h' I !! k = Some (Some self, j) ->
    exists h1 lastIndex L kL,
      removeUse h' self (Some self, j) = Some h1 /\
      length (users h' self) = S lastIndex /\
      users h' self !! lastIndex = Some L /\
      operands h' L !! kL = Some (Some self, lastIndex) /\
      users h1 self = take lastIndex (<[j := L]> (users h' self)) /\
      (j <> lastIndex ->
       operands h1 L = <[kL := (Some self, j)]> (operands h' L)).
Proof.
  rewrite !consistent_InvH. intros Hinv Hrun.
  assert (Hinv' : InvH None h') by (by eapply runOps_InvH).
  split; [done|]. split; [intros op; by apply runOp_returns|].
  intros self j I k Hk.
  destruct (removeUse_spec h' self j I k Hinv' Hk)
    as (h1 & n & L & kL & Hr & Hlen & Hj & HL & HkL & Hus & Hops & _).
  exists h1, n, L, kL. split_and!; try done.
  - by rewrite Hus, decide_True.
  - intros Hne. by rewrite Hops, decide_True.
Qed.

(** ** Moving and erasing *)

(** C10. [I.moveBefore(I)] is a no-op: the block's instruction list, the
    parent pointer and all use lists are what they were. *)
Theorem moveBefore_self_noop (h : State) (this : ValueId) :
  moveBefore h this this = Some h /\
  forall h', moveBefore h this this = Some h' ->
    InstList h' = InstList h /\ Parent h' = Parent h /\
    Users h' = Users h /\ Operands h' = Operands h.
Proof.
  assert (Hm : moveBefore h this this = Some h).
  { unfold moveBefore. by rewrite bool_decide_eq_true_2. }
  split; [done|]. intros h'. rewrite Hm. by intros [= <-].
Qed.

Lemma Shrinks_refl h : Shrinks h h.
Proof. by split. Qed.

Lemma Shrinks_trans h1 h2 h3 : Shrinks h1 h2 -> Shrinks h2 h3 -> Shrinks h1 h3.
Proof.
  intros [Hu1 Hs1 Hi1 Hp1 Hb1] [Hu2 Hs2 Hi2 Hp2 Hb2]. split.
  - intros p. by trans (users h2 p).
  - intros x. by rewrite Hs2.
  - by rewrite Hi2.
  - by rewrite Hp2.
  - by rewrite Hb2.
Qed.

Lemma SetOperandPost_Shrinks h h' I k cur :
  operands h I !! k = Some cur ->
  SetOperandPost h h' I k cur None -> Shrinks h h'.
Proof.
  intros Hcur Hpost. split; try apply Hpost.
  - intros p. by apply (sop_users_sub _ _ _ _ _ _ Hpost).
  - intros x. rewrite (sop_prod _ _ _ _ _ _ Hpost).
    destruct (decide (x = I)); [|done]. by rewrite length_insert.
Qed.

Lemma setOperand_None_Shrinks h I k h' :
  InvH None h -> setOperand h I None k = Some h' ->
  InvH None h' /\ Shrinks h h' /\
  producers h' I = <[k := None]> (producers h I).
Proof.
  intros Hinv Hset.
  destruct (setOperand_inv h I None k h' Hinv Hset) as (cur & Hcur & Hpost).
  split; [apply Hpost|]. split; [by eapply SetOperandPost_Shrinks|].
  rewrite (sop_prod _ _ _ _ _ _ Hpost). by rewrite decide_True.
Qed.

Lemma replaceAllUsesLoop_None_Shrinks n h v h' :
  InvH None h -> replaceAllUsesLoop n h v None = Some h' -> Shrinks h h'.
Proof.
  revert h. induction n as [|n IH]; intros h Hinv; simpl.
  - destruct (last (users h v)); [done|]. intros [= <-]. apply Shrinks_refl.
  - destruct (last (users h v)) as [u|]; [|intros [= <-]; apply Shrinks_refl].
    unfold IR.replaceFirstOperandWith.
    destruct (findFirst _ _) as [i|]; [|done].
    destruct (setOperand h u None i) as [h1|] eqn:Hset; [|done]. simpl.
    destruct (setOperand_None_Shrinks h u i h1 Hinv Hset) as (Hinv1 & Hs & _).
    intros Hloop. eapply Shrinks_trans; [done|]. by apply IH.
Qed.

(** [v.replaceAllUsesWith(null)] on a consistent state returns and leaves
    [v] without users. *)
Lemma replaceAllUsesWith_None_spec h v :
  InvH None h ->
  exists h', replaceAllUsesWith h v None = Some h' /\
             InvH None h' /\ users h' v = [] /\ Shrinks h h'.
Proof.
  intros Hinv.
  destruct (replaceAllUsesLoop_ok h v None
              (length (users h v)) h) as (h' & Hloop & Hnil & Hinv' & _);
    try done.
  { intros u k. by left. }
  exists h'. unfold IR.replaceAllUsesWith. simpl. split; [done|].
  split; [done|]. split; [done|].
  by eapply replaceAllUsesLoop_None_Shrinks.
Qed.

Lemma foldl_releaseOperandStep_None I l :
  foldl (releaseOperandStep I) None l = None.
Proof. induction l as [|i l IH]; [done|]. simpl. apply IH. Qed.

(** The loop of [Instruction::eraseFromParent] over the positions [l]. *)
Lemma releaseLoop_spec l h I :
  InvH None h -> (forall i, i ∈ l -> i < length (producers h I)) ->
  exists h1,
    foldl (releaseOperandStep I) (Some h) l = Some h1 /\
    InvH None h1 /\ Shrinks h h1 /\
    (forall k, producers h I !! k = Some None ->
               producers h1 I !! k = Some None) /\
    (forall i, i ∈ l -> producers h1 I !! i = Some None).
Proof.
  revert h. induction l as [|i l IH]; intros h Hinv Hl.
  - exists h. split; [done|]. split; [done|]. split; [apply Shrinks_refl|].
    split; [done|]. intros i Hi. by apply elem_of_nil in Hi.
  - assert (Hi : i < length (operands h I)).
    { rewrite <- producers_length. apply Hl. left. }
    destruct (lookup_lt_is_Some_2 _ _ Hi) as [cur Hcur].
    destruct (setOperand_ok h I None i cur Hinv Hcur)
      as (h0 & Hset & Hpost); [done|].
    destruct (setOperand_None_Shrinks h I i h0 Hinv Hset) as (Hinv0 & Hs0 & Hp0).
    destruct (IH h0 Hinv0) as (h1 & Hfold & Hinv1 & Hs1 & Hnull & Hdone).
    { intros i' Hi'. rewrite (shr_size _ _ Hs0). apply Hl. by right. }
    exists h1. simpl. rewrite Hset. split; [done|]. split; [done|].
    split; [by eapply Shrinks_trans|].
    assert (Hkeep : forall k, producers h I !! k = Some None ->
                              producers h0 I !! k = Some None).
    { intros k Hk. rewrite Hp0. destruct (decide (k = i)) as [->|].
      - apply list_lookup_insert_eq. by rewrite producers_length.
      - by rewrite list_lookup_insert_ne. }
    split; [intros k Hk; by apply Hnull, Hkeep|].
    intros i' Hi'. apply elem_of_cons in Hi' as [->|Hi']; [|by apply Hdone].
    apply Hnull. rewrite Hp0. apply list_lookup_insert_eq.
    by rewrite producers_length.
Qed.

Lemma users_destroyInstruction h I p :
  users (destroyInstruction h I) p = if decide (p = I) then [] else users h p.
Proof.
  unfold users, destroyInstruction. simpl. rewrite lookup_delete.
  by destruct (decide (I = p)), (decide (p = I)); subst.
Qed.

Lemma operands_destroyInstruction h I x :
  operands (destroyInstruction h I) x =
  if decide (x = I) then [] else operands h x.
Proof.
  unfold operands, destroyInstruction. simpl. rewrite lookup_delete.
  by destruct (decide (I = x)), (decide (x = I)); subst.
Qed.

(** Destroying an instruction that has no users and holds only null
    operands keeps the invariant. *)
Lemma destroyInstruction_InvH h h' I :
  InvH None h -> users h I = [] ->
  (forall k o, producers h I !! k = Some o -> o = None) ->
  (forall p, users h' p = if decide (p = I) then [] else users h p) ->
  (forall x, operands h' x = if decide (x = I) then [] else operands h x) ->
  InvH None h'.
Proof.
  intros [Hf Hi Hs] Hnil Hnull Hus Hops.
  assert (Hown : forall k p j, operands h I !! k = Some (Some p, j) -> False).
  { intros k p j Hk. specialize (Hnull k (Some p)).
    rewrite producers_lookup, Hk in Hnull. by specialize (Hnull eq_refl). }
  split.
  - intros x k p j _. rewrite Hops, Hus.
    destruct (decide (x = I)) as [->|]; [done|]. intros Hk.
    pose proof (Hf x k p j (live_None _ _) Hk) as Hu.
    destruct (decide (p = I)) as [->|]; [by rewrite Hnil in Hu | done].
  - intros x k k' p j _ _. rewrite Hops.
    destruct (decide (x = I)) as [->|]; [done|]. by apply Hi.
  - intros p j x. rewrite Hus. destruct (decide (p = I)) as [->|]; [done|].
    intros Hu. destruct (Hs p j x Hu) as (k & _ & Hk).
    exists k. split; [done|]. rewrite Hops.
    destruct (decide (x = I)) as [->|]; [|done]. by destruct (Hown k p j).
Qed.

(** [Instruction::eraseFromParent] of an instruction without users. *)
Lemma Instruction_eraseFromParent_spec h I bb :
  InvH None h -> users h I = [] -> Parent h !! I = Some bb ->
  exists h2,
    Instruction_eraseFromParent h I = Some h2 /\
    InvH None h2 /\
    (forall p, users h2 p ⊆ users h p) /\
    (forall x, x <> I -> length (producers h2 x) = length (producers h x)) /\
    dead h2 I /\
    InstList h2 = <[bb := filter (fun x => x <> I) (instList h bb)]> (InstList h) /\
    Parent h2 = delete I (Parent h) /\
    BasicBlockList h2 = BasicBlockList h.
Proof.
  intros Hinv Hnil Hpar.
  destruct (releaseLoop_spec (seq 0 (getNumOperands h I)) h I Hinv)
    as (h1 & Hfold & Hinv1 & Hs1 & _ & Hnull).
  { intros i Hi. apply elem_of_seq in Hi. rewrite producers_length.
    unfold getNumOperands in Hi. lia. }
  unfold IR.Instruction_eraseFromParent. rewrite Hfold. simpl.
  rewrite (shr_parent _ _ Hs1), Hpar. simpl.
  eexists. split; [done|].
  assert (Hnil1 : users h1 I = []).
  { apply list_nil_subseteq. rewrite <- Hnil. apply (shr_users _ _ Hs1). }
  unfold BasicBlock_erase.
  set (h1' := setInstList h1 bb _).
  split_and!.
  - apply (destroyInstruction_InvH h1 _ I Hinv1 Hnil1).
    + intros k o Hk. pose proof (lookup_lt_Some _ _ _ Hk) as Hlt.
      rewrite (shr_size _ _ Hs1), producers_length in Hlt.
      rewrite Hnull in Hk; [congruence|]. apply elem_of_seq.
      unfold getNumOperands. lia.
    + intros p. by rewrite users_destroyInstruction.
    + intros x. by rewrite operands_destroyInstruction.
  - intros p. rewrite users_destroyInstruction.
    destruct (decide (p = I)); [apply list_subseteq_nil|].
    apply (shr_users _ _ Hs1).
  - intros x Hx. unfold producers. rewrite operands_destroyInstruction.
    rewrite decide_False by done. apply (shr_size _ _ Hs1).
  - split.
    + by rewrite users_destroyInstruction, decide_True.
    + by rewrite operands_destroyInstruction, decide_True.
  - simpl. unfold instList. by rewrite (shr_insts _ _ Hs1).
  - simpl. by rewrite (shr_parent _ _ Hs1).
  - simpl. by rewrite (shr_blocks _ _ Hs1).
Qed.

Lemma instList_lookup_insert h bb l m :
  InstList h = <[bb := l]> m -> instList h bb = l.
Proof. intros Hm. unfold instList. by rewrite Hm, lookup_insert_eq. Qed.

Lemma dead_no_operands h p : length (producers h p) = 0 -> operands h p = [].
Proof. rewrite producers_length. apply nil_length_inv. Qed.

Lemma blockContains_alt h bb :
  blockContains h bb <->
  forall i, i ∈ instList h bb -> Parent h !! i = Some bb.
Proof. apply Forall_forall. Qed.

(** One round of the loop of [BasicBlock::eraseFromParent]. *)
Lemma eraseInstructions_round h hi bb head rest :
  EraseInv h hi bb -> instList hi bb = head :: rest ->
  exists h2,
    (h1 ← replaceAllUsesWith hi head None;
     Instruction_eraseFromParent h1 head) = Some h2 /\
    EraseInv h h2 bb /\
    instList h2 bb = filter (fun x => x <> head) (instList hi bb).
Proof.
  intros [Hinv Hcont Hsub Hdead Hus Hpar Hbl] Hlist.
  rewrite blockContains_alt in Hcont.
  assert (Hhead : head ∈ instList hi bb) by (rewrite Hlist; left).
  destruct (replaceAllUsesWith_None_spec hi head Hinv)
    as (h1 & Hr & Hinv1 & Hnil1 & Hs1).
  rewrite Hr. simpl.
  destruct (Instruction_eraseFromParent_spec h1 head bb Hinv1 Hnil1)
    as (h2 & He & Hinv2 & Hus2 & Hlen2 & Hdead2 & HI2 & HP2 & HB2).
  { rewrite (shr_parent _ _ Hs1). by apply Hcont. }
  assert (Hl2 : instList h2 bb = filter (fun x => x <> head) (instList hi bb)).
  { rewrite (instList_lookup_insert _ _ _ _ HI2). unfold instList.
    by rewrite (shr_insts _ _ Hs1). }
  exists h2. split; [done|]. split; [|done]. split.
  - done.
  - apply blockContains_alt. intros i. rewrite Hl2. intros Hi.
    apply list_elem_of_filter in Hi as [Hne Hi].
    rewrite HP2, lookup_delete_ne by done. rewrite (shr_parent _ _ Hs1).
    by apply Hcont.
  - rewrite Hl2. intros i Hi. apply list_elem_of_filter in Hi as [_ Hi].
    by apply Hsub.
  - intros p Hp Hnot. destruct (decide (p = head)) as [->|Hne]; [done|].
    assert (Hpi : p ∉ instList hi bb).
    { intros Hin. apply Hnot. rewrite Hl2. by apply list_elem_of_filter. }
    destruct (Hdead p Hp Hpi) as [Hu Ho]. split.
    + apply list_nil_subseteq. rewrite <- Hu.
      trans (users h1 p); [apply Hus2 | apply (shr_users _ _ Hs1)].
    + apply dead_no_operands. rewrite Hlen2 by done.
      rewrite (shr_size _ _ Hs1). unfold producers. by rewrite Ho.
  - intros p. trans (users h1 p); [apply Hus2|].
    trans (users hi p); [apply (shr_users _ _ Hs1) | apply Hus].
  - intros x Hx. rewrite HP2, lookup_delete_ne.
    + rewrite (shr_parent _ _ Hs1). by apply Hpar.
    + intros <-. by apply Hx, Hsub.
  - by rewrite HB2, (shr_blocks _ _ Hs1).
Qed.

(** The loop returns, whatever the block holds, once the fuel covers the
    instructions of the block. *)
Lemma eraseInstructionsLoop_spec h bb fuel hi :
  EraseInv h hi bb -> length (instList hi bb) <= fuel ->
  exists hf,
    eraseInstructionsLoop fuel hi bb = Some hf /\
    EraseInv h hf bb /\ instList hf bb = [].
Proof.
  revert hi. induction fuel as [|fuel IH]; intros hi Hei Hlen.
  - destruct (instList hi bb) as [|head rest] eqn:Hl; [|simpl in Hlen; lia].
    exists hi. simpl. by rewrite Hl.
  - destruct (instList hi bb) as [|head rest] eqn:Hl.
    { exists hi. simpl. by rewrite Hl. }
    destruct (eraseInstructions_round h hi bb head rest Hei Hl)
      as (h2 & Hround & Hei2 & Hl2).
    destruct (IH h2 Hei2) as (hf & Hloop & Heif & Hnil).
    { rewrite Hl2, Hl, filter_cons, decide_False by (by intros ?).
      pose proof (length_filter (fun x => x <> head) rest). simpl in Hlen. lia. }
    exists hf. split; [|done]. simpl. rewrite Hl.
    destruct (replaceAllUsesWith hi head None) as [h1|]; [|done].
    simpl in *. by rewrite Hround.
Qed.

Lemma EraseInv_start h bb :
  InvH None h -> blockContains h bb -> EraseInv h h bb.
Proof. intros Hinv Hcont. by split. Qed.

(** C5. [bb.eraseFromParent()] on a consistent state whose block contains
    its instructions: when the call completes, no operand slot anywhere
    holds an instruction that was in the block, or the block itself; and the
    call does complete when the block has a parent, is not one of its own
    instructions, and is used by its own instructions only. *)
Theorem BasicBlock_eraseFromParent_severs (h : State) (bb : ValueId) :
  UseDefConsistent h -> blockContains h bb ->
  (forall h', BasicBlock_eraseFromParent h bb = Some h' ->
     forall I k p j,
       operands h' I !! k = Some (Some p, j) ->
       (p ∉ instList h bb) /\ p <> bb) /\
  (is_Some (Parent h !! bb) -> bb ∉ instList h bb ->
   users h bb ⊆ instList h bb ->
   is_Some (BasicBlock_eraseFromParent h bb)).
Proof.
  rewrite consistent_InvH. intros Hinv Hcont.
  destruct (eraseInstructionsLoop_spec h bb (length (instList h bb)) h)
    as (hf & Hloop & [Hinvf Hcontf Hsubf Hdeadf Husf Hparf Hblf] & Hnilf);
    [by apply EraseInv_start | done |].
  unfold IR.BasicBlock_eraseFromParent. rewrite Hloop. simpl. split.
  - intros h'. destruct (hasUsers hf bb) eqn:Hhas; [done|].
    destruct (Parent hf !! bb) as [f|]; [|done]. simpl. intros [= <-].
    intros I k p j Hk.
    change (operands hf I !! k = Some (Some p, j)) in Hk.
    pose proof (inv_fwd _ _ Hinvf I k p j (live_None _ _) Hk) as Hu.
    split.
    + intros Hp. destruct (Hdeadf p Hp) as [Hnil _];
        [rewrite Hnilf; apply not_elem_of_nil|].
      by rewrite Hnil in Hu.
    + intros ->. unfold hasUsers, getNumUsers in Hhas.
      apply negb_false_iff, Nat.eqb_eq, nil_length_inv in Hhas.
      by rewrite Hhas in Hu.
  - intros [f Hf] Hself Hown.
    assert (Hnou : users hf bb = []).
    { destruct (users hf bb) as [|u us] eqn:Hu; [done|]. exfalso.
      assert (Hin : u ∈ users hf bb) by (rewrite Hu; left).
      pose proof (Hown u (Husf bb u Hin)) as Hub.
      destruct (Hdeadf u Hub) as [_ Hops];
        [rewrite Hnilf; apply not_elem_of_nil|].
      assert (Hl : users hf bb !! 0 = Some u) by (by rewrite Hu).
      destruct (inv_surj _ _ Hinvf bb 0 u Hl) as (k & _ & Hk).
      by rewrite Hops in Hk. }
    unfold hasUsers, getNumUsers. rewrite Hnou. simpl.
    rewrite (Hparf bb Hself), Hf. done.
Qed.

End UseDefFacts.

(** *** The examples *)

Import Examples.

Lemma consistent_emptyState : UseDefConsistent emptyState.
Proof. apply consistent_InvH, InvH_empty. Qed.

(** The swap-with-last scenario of the specification. *)
Lemma use_def_consistency_preserved_witness :
  runOps anyKind anyOperand emptyState Examples.swapOps
    = Some Examples.swapExample /\
  users Examples.swapExample 1 = [21; 23] /\
  UseDefConsistent Examples.swapExample /\
  is_Some (runOp anyKind anyOperand Examples.swapExample (OpRemoveAllUses 1)).
Proof.
  assert (Hrun : runOps anyKind anyOperand emptyState Examples.swapOps
                 = Some Examples.swapExample) by (by vm_compute).
  split; [exact Hrun|]. split; [by vm_compute|].
  destruct (use_def_consistency_preserved anyKind anyOperand
              Examples.swapOps emptyState Examples.swapExample
              consistent_emptyState Hrun) as (Hc & Hret & _).
  split; [exact Hc|]. by apply Hret.
Defined.

Lemma build_consistent ops h :
  runOps anyKind anyOperand emptyState ops = Some h ->
  UseDefConsistent (build ops).
Proof.
  intros Hrun. unfold build. rewrite Hrun. simpl.
  apply consistent_InvH. eapply runOps_InvH; [apply InvH_empty | done].
Qed.

Lemma rauwExample_consistent : UseDefConsistent rauwExample.
Proof. eapply build_consistent. by vm_compute. Qed.

(** The invariant does not read the containers. *)
Lemma consistent_containers h insts parents blocks :
  UseDefConsistent h ->
  UseDefConsistent (mkState (Users h) (Operands h) insts parents blocks).
Proof.
  rewrite !consistent_InvH. intros Hinv. by apply (InvH_reshape h).
Qed.

Lemma blockExample_consistent : UseDefConsistent blockExample.
Proof.
  unfold blockExample. cbv zeta. apply consistent_containers.
  eapply build_consistent. by vm_compute.
Qed.

(** The scenario of the specification: [I1.replaceAllUsesWith(z)], [z = 3]. *)
Lemma replaceAllUsesWith_correct_witness :
  exists h',
    replaceAllUsesWith anyKind anyOperand rauwExample 10 (Some 3) = Some h' /\
    users h' 10 = [] /\ producers h' 11 = [Some 3; Some 3].
Proof.
  destruct (replaceAllUsesWith_correct anyKind anyOperand rauwExample 10
              (Some 3) rauwExample_consistent) as [_ H].
  { intros w' u k j _ _. reflexivity. }
  destruct (H ltac:(done)) as (_ & h' & Hr & Hnil & Hprod & _).
  exists h'. split; [done|]. split; [done|]. rewrite Hprod. by vm_compute.
Defined.

Lemma BasicBlock_eraseFromParent_severs_witness :
  is_Some (BasicBlock_eraseFromParent anyKind anyOperand blockExample 50) /\
  forall h',
    BasicBlock_eraseFromParent anyKind anyOperand blockExample 50 = Some h' ->
    forall I k p j,
      operands h' I !! k = Some (Some p, j) ->
      (p ∉ instList blockExample 50) /\ p <> 50.
Proof.
  destruct (BasicBlock_eraseFromParent_severs anyKind anyOperand
              blockExample 50 blockExample_consistent) as [Hsev Hok].
  { unfold blockContains. apply (bool_decide_unpack _). by vm_compute. }
  split; [|exact Hsev]. apply Hok.
  - exists 100. by vm_compute.
  - apply (bool_decide_unpack _). by vm_compute.
  - apply (bool_decide_unpack _). by vm_compute.
Defined.

Example blockExample_erased :
  (fun h' => (producers h' 12, instList h' 50, basicBlockList h' 100)) <$>
    BasicBlock_eraseFromParent anyKind anyOperand blockExample 50 =
  Some ([None], [], [51]).
Proof. by vm_compute. Qed.

(** ** The operand operations, one by one *)

Import Build.

Lemma insert_snoc_Permutation {A} (t : list A) j x L :
  t !! j = Some x -> t ++ [L] ≡ₚ x :: <[j := L]> t.
Proof.
  revert j. induction t as [|y t IH]; intros [|j] Hj; simplify_eq/=.
  - f_equiv. by rewrite Permutation_app_comm.
  - rewrite (IH j Hj). apply Permutation_swap.
Qed.

(** Swap-with-last removal keeps the other elements: the list before is the
    list after with the removed element put back. *)
Lemma swap_remove_Permutation {A} (us : list A) n j x L :
  length us = S n -> us !! j = Some x -> us !! n = Some L ->
  us ≡ₚ x :: take n (<[j := L]> us).
Proof.
  intros Hlen Hj Hn.
  assert (Hsplit : us = take n us ++ [L]).
  { rewrite <- (take_drop n us) at 1. f_equal.
    rewrite (drop_S us L n Hn). rewrite drop_ge by lia. done. }
  destruct (decide (j = n)) as [->|Hne].
  - rewrite take_insert_ge by lia.
    assert (x = L) as -> by congruence.
    rewrite Hsplit at 1. by rewrite Permutation_app_comm.
  - assert (Hjn : j < n).
    { apply lookup_lt_Some in Hj. lia. }
    rewrite take_insert_lt by done.
    rewrite Hsplit at 1. apply insert_snoc_Permutation.
    by rewrite lookup_take_lt.
Qed.

Lemma filter_fmap_comm {A B} (f : A -> B) (P : B -> Prop)
    `{!forall y, Decision (P y)} (l : list A) :
  filter P (f <$> l) = f <$> filter (fun x => P (f x)) l.
Proof.
  induction l as [|x l IH]; [done|]. rewrite fmap_cons, !filter_cons.
  destruct (decide (P (f x))); [|done]. by rewrite fmap_cons, IH.
Qed.

Section OperandFacts.

Context {ValueKind : Type}.
Context (getKind : ValueId -> ValueKind).
Context (canSetOperandImpl : ValueKind -> ValueKind -> nat -> bool).

Local Abbreviation canSetOperand := (canSetOperand getKind canSetOperandImpl).
Local Abbreviation setOperand := (setOperand getKind canSetOperandImpl).
Local Abbreviation pushOperand := (pushOperand getKind canSetOperandImpl).
Local Abbreviation removeOperand := (removeOperand getKind canSetOperandImpl).
Local Abbreviation replaceFirstOperandWith :=
  (replaceFirstOperandWith getKind canSetOperandImpl).
Local Abbreviation eraseOperandStep :=
  (eraseOperandStep getKind canSetOperandImpl).
Local Abbreviation eraseOperand := (eraseOperand getKind canSetOperandImpl).
Local Abbreviation removeAllUsesLoop :=
  (removeAllUsesLoop getKind canSetOperandImpl).
Local Abbreviation removeAllUses := (removeAllUses getKind canSetOperandImpl).
Local Abbreviation Instruction_copy :=
  (Instruction_copy getKind canSetOperandImpl).
Local Abbreviation replaceAllUsesLoop :=
  (replaceAllUsesLoop getKind canSetOperandImpl).
Local Abbreviation replaceAllUsesWith :=
  (replaceAllUsesWith getKind canSetOperandImpl).

Lemma getOperand_producers h I k : getOperand h I k = producers h I !! k.
Proof. unfold getOperand. by rewrite producers_lookup. Qed.

(** The use lists after [setOperand] has changed a slot. *)
Lemma setOperand_users h I v k cur h' :
  InvH None h -> operands h I !! k = Some cur -> cur.1 <> v ->
  setOperand h I v k = Some h' ->
  (forall c, cur.1 = Some c -> users h c ≡ₚ I :: users h' c) /\
  (forall w, v = Some w -> users h' w = users h w ++ [I]) /\
  (forall p, Some p <> cur.1 -> v <> Some p -> users h' p = users h p).
Proof.
  intros Hinv Hcur Hne. unfold IR.setOperand. rewrite Hcur. simpl.
  rewrite bool_decide_eq_false_2 by done.
  destruct cur as [[c|] j]; simpl in *.
  - destruct (removeUse_spec h c j I k Hinv Hcur)
      as (h1 & n & L & kL & Hr & Hlen & Hj & HL & HkL & Hus & _).
    rewrite Hr. simpl.
    pose proof (inv_fwd _ _ Hinv I k c j (live_None _ _) Hcur) as HjI.
    assert (Hperm : users h c ≡ₚ I :: users h1 c).
    { rewrite Hus, decide_True by done.
      by apply (swap_remove_Permutation _ n j I L). }
    destruct v as [w|].
    + destruct (canSetOperand I (getKind w) k); [|done].
      unfold addUser. intros [= <-]. split_and!.
      * intros c' [= <-]. rewrite users_setOperands, users_setUsers.
        rewrite decide_False by congruence. done.
      * intros w' [= <-]. rewrite users_setOperands, users_setUsers.
        rewrite decide_True by done. rewrite Hus.
        rewrite decide_False by congruence. done.
      * intros p Hp1 Hp2. rewrite users_setOperands, users_setUsers.
        rewrite decide_False by congruence. rewrite Hus.
        rewrite decide_False by congruence. done.
    + intros [= <-]. split_and!.
      * intros c' [= <-]. by rewrite users_setOperands.
      * done.
      * intros p Hp1 Hp2. rewrite users_setOperands, Hus.
        rewrite decide_False by congruence. done.
  - destruct v as [w|]; [|done].
    destruct (canSetOperand I (getKind w) k); [|done].
    unfold addUser. intros [= <-]. split_and!.
    + done.
    + intros w' [= <-]. rewrite users_setOperands, users_setUsers.
      by rewrite decide_True.
    + intros p Hp1 Hp2. rewrite users_setOperands, users_setUsers.
      rewrite decide_False by congruence. done.
Qed.

(** X1. [I.setOperand(v, k)] on a consistent state writes exactly one
    slot: afterwards [getOperand(k)] of [I] is [v], every other slot of
    every instruction reads as before (the index that [removeUse] patches in
    another slot does not change what the slot holds), and no operand
    vector changes its size. *)
Theorem setOperand_writes_one_slot (h h' : State) (I : ValueId)
    (v : option ValueId) (k : nat) :
  UseDefConsistent h -> setOperand h I v k = Some h' ->
  getOperand h' I k = Some v /\
  (forall x i, (x, i) <> (I, k) -> getOperand h' x i = getOperand h x i) /\
  (forall x, getNumOperands h' x = getNumOperands h x).
Proof.
  rewrite consistent_InvH. intros Hinv Hset.
  destruct (setOperand_inv getKind canSetOperandImpl h I v k h' Hinv Hset)
    as (cur & Hcur & Hpost).
  pose proof (sop_prod _ _ _ _ _ _ Hpost) as Hprod.
  assert (Hk : k < length (producers h I)).
  { rewrite producers_length. by eapply lookup_lt_Some. }
  split_and!.
  - rewrite getOperand_producers, Hprod, decide_True by done.
    by apply list_lookup_insert_eq.
  - intros x i Hxi. rewrite !getOperand_producers, Hprod.
    destruct (decide (x = I)) as [->|]; [|done].
    apply list_lookup_insert_ne. congruence.
  - intros x. unfold getNumOperands. rewrite <- !producers_length, Hprod.
    destruct (decide (x = I)) as [->|]; [|done]. by rewrite length_insert.
Qed.

(** X2. The use lists after [I.setOperand(v, k)] has replaced [old] by a
    different [v] in a consistent state: the value [old] loses one entry
    for [I] (its list may be reordered by the swap-with-last removal), the
    value [v] gets [I] appended at the end, and every other use list is
    unchanged. *)
Theorem setOperand_use_lists (h h' : State) (I : ValueId)
    (old v : option ValueId) (k : nat) :
  UseDefConsistent h -> getOperand h I k = Some old -> old <> v ->
  setOperand h I v k = Some h' ->
  (forall c, old = Some c -> users h c ≡ₚ I :: users h' c) /\
  (forall w, v = Some w -> users h' w = users h w ++ [I]) /\
  (forall p, Some p <> old -> Some p <> v -> users h' p = users h p).
Proof.
  rewrite consistent_InvH. intros Hinv Hold Hne Hset.
  unfold getOperand in Hold.
  destruct (operands h I !! k) as [cur|] eqn:Hcur; [|done].
  simpl in Hold. injection Hold as <-.
  destruct (setOperand_users h I v k cur h' Hinv Hcur Hne Hset)
    as (H1 & H2 & H3).
  split_and!; [done|done|]. intros p Hp1 Hp2. apply H3; congruence.
Qed.

(** X3. When [setOperand] returns: on a consistent state [I.setOperand(v, k)]
    completes exactly when [k] is an operand index and either the slot holds
    [v] already (nothing is checked or changed then) or [v] is null or of a
    kind that [canSetOperand] accepts at [k]. *)
Theorem setOperand_returns_iff (h : State) (I : ValueId)
    (v : option ValueId) (k : nat) :
  UseDefConsistent h ->
  (is_Some (setOperand h I v k) <->
   exists old, getOperand h I k = Some old /\
     (old = v \/
      forall w, v = Some w -> canSetOperand I (getKind w) k = true)) /\
  (forall old, getOperand h I k = Some old -> old = v ->
               setOperand h I v k = Some h).
Proof.
  rewrite consistent_InvH. intros Hinv. split; [split|].
  - intros [h' Hset]. unfold IR.setOperand in Hset. unfold getOperand.
    destruct (operands h I !! k) as [cur|] eqn:Hcur; [|done].
    simpl in *. exists cur.1. split; [done|].
    destruct (decide (cur.1 = v)) as [|Hne]; [by left|right].
    rewrite bool_decide_eq_false_2 in Hset by done.
    destruct (match cur.1 with Some c => removeUse h c cur | None => Some h end);
      [|done].
    simpl in Hset. intros w ->.
    by destruct (canSetOperand I (getKind w) k).
  - intros (old & Hold & Hcan). unfold getOperand in Hold.
    destruct (operands h I !! k) as [cur|] eqn:Hcur; [|done].
    simpl in Hold. injection Hold as <-.
    destruct (setOperand_ok getKind canSetOperandImpl h I v k cur Hinv Hcur)
      as (h' & Hset & _); [|by exists h'].
    intros w Hw Hne. destruct Hcan as [?|Hcan]; [done|]. by apply Hcan.
  - intros old Hold ->. unfold getOperand in Hold. unfold IR.setOperand.
    destruct (operands h I !! k) as [cur|] eqn:Hcur; [|done].
    simpl in *. injection Hold as Hold.
    by rewrite bool_decide_eq_true_2.
Qed.

(** [pushOperand] on a consistent state. *)
Lemma pushOperand_spec h I v :
  InvH None h ->
  (forall w, v = Some w ->
             canSetOperand I (getKind w) (getNumOperands h I) = true) ->
  exists h',
    pushOperand h I v = Some h' /\ InvH None h' /\
    producers h' I = producers h I ++ [v] /\
    (forall x, x <> I -> producers h' x = producers h x) /\
    (forall w, v = Some w -> users h' w = users h w ++ [I]) /\
    (forall p, v <> Some p -> users h' p = users h p).
Proof.
  intros Hinv Hcan. unfold IR.pushOperand.
  set (h1 := setOperands h I (operands h I ++ [(None, 0)])).
  assert (Hinv1 : InvH None h1).
  { apply (InvH_reshape h); [done|done|].
    intros x. apply uses_setOperands, filter_nonNull_snoc_null. }
  assert (Hops : operands h1 I = operands h I ++ [(None, 0)]).
  { unfold h1. by rewrite operands_setOperands, decide_True. }
  assert (Hn : getNumOperands h1 I - 1 = getNumOperands h I).
  { unfold getNumOperands. rewrite Hops, length_app. simpl. lia. }
  rewrite Hn.
  assert (Hcur : operands h1 I !! getNumOperands h I = Some (None, 0)).
  { rewrite Hops. unfold getNumOperands.
    rewrite lookup_app_r by lia. by rewrite Nat.sub_diag. }
  destruct (setOperand_ok getKind canSetOperandImpl h1 I v
              (getNumOperands h I) (None, 0) Hinv1 Hcur) as (h' & Hset & Hpost).
  { intros w Hw _. by apply Hcan. }
  exists h'. split; [done|]. split; [apply Hpost|].
  pose proof (sop_prod _ _ _ _ _ _ Hpost) as Hprod.
  split_and!.
  - rewrite Hprod, decide_True by done. unfold producers. rewrite Hops.
    rewrite fmap_app. simpl. unfold getNumOperands.
    rewrite <- (length_fmap fst (operands h I)).
    replace (length ((operands h I).*1)) with (length ((operands h I).*1) + 0)
      by lia.
    by rewrite insert_app_r.
  - intros x Hx. rewrite Hprod, decide_False by done.
    unfold producers, h1. rewrite operands_setOperands.
    by rewrite decide_False by done.
  - intros w ->.
    destruct (setOperand_users h1 I (Some w) (getNumOperands h I) (None, 0) h'
                Hinv1 Hcur ltac:(done) Hset) as (_ & Hnew & _).
    by rewrite (Hnew w eq_refl).
  - intros p Hp.
    rewrite (sop_users_other _ _ _ _ _ _ Hpost p); [done|done|congruence].
Qed.

(** X4. [I.pushOperand(v)] on a consistent state, where [v] is null or of
    a kind that the new last slot accepts: the call returns, the operands of
    [I] are the old ones followed by [v], no other instruction changes, and
    [v] (when not null) gets [I] appended to its users. *)
Theorem pushOperand_appends (h : State) (I : ValueId) (v : option ValueId) :
  UseDefConsistent h ->
  (forall w, v = Some w ->
             canSetOperand I (getKind w) (getNumOperands h I) = true) ->
  exists h',
    pushOperand h I v = Some h' /\
    producers h' I = producers h I ++ [v] /\
    (forall x, x <> I -> producers h' x = producers h x) /\
    (forall w, v = Some w -> users h' w = users h w ++ [I]) /\
    (forall p, v <> Some p -> users h' p = users h p).
Proof.
  rewrite consistent_InvH. intros Hinv Hcan.
  destruct (pushOperand_spec h I v Hinv Hcan)
    as (h' & Hpush & _ & Hrest).
  by exists h'.
Qed.

Lemma delete_insert_same {A} (l : list A) k x :
  delete k (<[k := x]> l) = delete k l.
Proof.
  rewrite !delete_take_drop. rewrite take_insert_ge by lia.
  by rewrite drop_insert_lt by lia.
Qed.

(** X5. [I.removeOperand(k)] on a consistent state returns exactly when
    [k] is an operand index.  It takes the slot [k] out of the operand
    vector (the slots behind it move down by one), leaves the other
    instructions alone, and the value that the slot held loses one entry
    for [I]. *)
Theorem removeOperand_deletes (h : State) (I : ValueId) (k : nat) :
  UseDefConsistent h ->
  (is_Some (removeOperand h I k) <-> k < getNumOperands h I) /\
  forall h', removeOperand h I k = Some h' ->
    producers h' I = delete k (producers h I) /\
    (forall x, x <> I -> producers h' x = producers h x) /\
    (forall c, getOperand h I k = Some (Some c) ->
               users h c ≡ₚ I :: users h' c) /\
    (forall p, getOperand h I k <> Some (Some p) -> users h' p = users h p).
Proof.
  rewrite consistent_InvH. intros Hinv. split; [split|].
  - intros [h' Hrem]. unfold IR.removeOperand, IR.setOperand in Hrem.
    destruct (operands h I !! k) as [cur|] eqn:Hcur; [|done].
    by eapply lookup_lt_Some.
  - intros Hk. destruct (lookup_lt_is_Some_2 _ _ Hk) as [cur Hcur].
    destruct (setOperand_ok getKind canSetOperandImpl h I None k cur Hinv Hcur)
      as (h1 & Hset & _); [done|].
    unfold IR.removeOperand. rewrite Hset. by eexists.
  - intros h'. unfold IR.removeOperand.
    destruct (setOperand h I None k) as [h1|] eqn:Hset; [|done]. simpl.
    intros [= <-].
    destruct (setOperand_inv getKind canSetOperandImpl h I None k h1 Hinv Hset)
      as (cur & Hcur & Hpost).
    pose proof (sop_prod _ _ _ _ _ _ Hpost) as Hprod.
    assert (Hget : getOperand h I k = Some cur.1).
    { unfold getOperand. by rewrite Hcur. }
    split_and!.
    + unfold producers at 1. rewrite operands_setOperands, decide_True by done.
      rewrite list_fmap_delete. fold (producers h1 I).
      rewrite Hprod, decide_True by done. apply delete_insert_same.
    + intros x Hx. unfold producers at 1.
      rewrite operands_setOperands, decide_False by done.
      fold (producers h1 x). by rewrite Hprod, decide_False.
    + intros c Hc. rewrite Hget in Hc. injection Hc as Hc.
      rewrite users_setOperands.
      destruct (setOperand_users h I None k cur h1 Hinv Hcur) as (Hold & _);
        [congruence|done|]. by apply Hold.
    + intros p Hp. rewrite Hget in Hp. rewrite users_setOperands.
      apply (sop_users_other _ _ _ _ _ _ Hpost p); congruence.
Qed.

Lemma nulled_filter (V : ValueId) (l : list (option ValueId)) :
  filter (fun o => o <> None)
         ((fun o => if decide (o = Some V) then None else o) <$> l) =
  filter (fun o => o <> None /\ o <> Some V) l.
Proof.
  induction l as [|o l IH]; [done|]. rewrite fmap_cons, !filter_cons, IH.
  destruct (decide (o = Some V)) as [->|Hne].
  - rewrite decide_False by (by intros ?).
    by rewrite decide_False by (intros [_ ?]; done).
  - destruct (decide (o <> None)) as [Hn|Hn].
    + by rewrite decide_True by done.
    + by rewrite decide_False by (intros [? _]; done).
Qed.

(** What the first loop of [eraseOperand] leaves alone. *)
Lemma eraseFold_frame I V l h h1 :
  InvH None h -> foldl (eraseOperandStep I V) (Some h) l = Some h1 ->
  (forall x, x <> I -> producers h1 x = producers h x) /\
  (forall p, p <> V -> users h1 p = users h p).
Proof.
  revert h. induction l as [|i l IH]; intros h Hinv; simpl.
  - by intros [= <-].
  - destruct (getOperand h I i) as [o|] eqn:Hget;
      [|by rewrite foldl_eraseOperandStep_None]. simpl.
    destruct (bool_decide (o = Some V)) eqn:Ho; [|by apply IH].
    apply bool_decide_eq_true in Ho. subst o.
    destruct (setOperand h I None i) as [h0|] eqn:Hset;
      [|by rewrite foldl_eraseOperandStep_None].
    intros Hfold.
    destruct (setOperand_inv getKind canSetOperandImpl h I None i h0 Hinv Hset)
      as (cur & Hcur & Hpost).
    assert (HcV : cur.1 = Some V).
    { unfold getOperand in Hget. rewrite Hcur in Hget. simpl in Hget.
      congruence. }
    destruct (IH h0 (sop_inv _ _ _ _ _ _ Hpost) Hfold) as [Hp Hu]. split.
    + intros x Hx. rewrite Hp by done.
      by rewrite (sop_prod _ _ _ _ _ _ Hpost), decide_False.
    + intros p Hpv. rewrite Hu by done.
      apply (sop_users_other _ _ _ _ _ _ Hpost p); congruence.
Qed.

(** [eraseOperand] on a consistent state. *)
Lemma eraseOperand_spec h I V :
  InvH None h ->
  exists h2,
    eraseOperand h I V = Some h2 /\ InvH None h2 /\
    producers h2 I =
      filter (fun o => o <> None /\ o <> Some V) (producers h I) /\
    (forall x, x <> I -> producers h2 x = producers h x) /\
    (I ∉ users h2 V) /\
    (forall p, p <> V -> users h2 p = users h p) /\
    (I ∈ users h V -> length (users h2 V) < length (users h V)).
Proof.
  intros Hinv.
  destruct (eraseOperand_returns getKind canSetOperandImpl h I V Hinv)
    as (h2 & He & Hinv2 & Hdec).
  exists h2. split; [done|]. split; [done|].
  destruct (eraseFold_spec getKind canSetOperandImpl I V
              (seq 0 (getNumOperands h I)) h Hinv)
    as (h1 & Hfold & Hinv1 & Hprod & _).
  { apply NoDup_seq. }
  { intros i Hi. apply elem_of_seq in Hi. rewrite producers_length.
    unfold getNumOperands in Hi. lia. }
  destruct (eraseFold_frame I V _ h h1 Hinv Hfold) as [Hframe Husers].
  unfold IR.eraseOperand in He. rewrite Hfold in He.
  cbn [mbind option_bind] in He.
  destruct (hasUser _ V I) eqn:Hhas; [done|]. injection He as <-.
  assert (Hnulled : producers h1 I =
            (fun o => if decide (o = Some V) then None else o) <$>
              producers h I).
  { apply list_eq. intros k. rewrite Hprod, list_lookup_fmap.
    destruct (producers h I !! k) as [o|] eqn:Hk; simpl.
    - destruct (decide (o = Some V)) as [->|Hne].
      + rewrite decide_True; [done|]. split; [|done]. apply elem_of_seq.
        apply lookup_lt_Some in Hk. rewrite producers_length in Hk.
        unfold getNumOperands. lia.
      + rewrite decide_False; [done|]. intros [_ ?]. congruence.
    - rewrite decide_False; [done|]. by intros [_ ?]. }
  split_and!.
  - unfold producers at 1. rewrite operands_setOperands, decide_True by done.
    rewrite <- nulled_filter, <- Hnulled. unfold producers.
    by rewrite filter_fmap_comm.
  - intros x Hx. unfold producers at 1.
    rewrite operands_setOperands, decide_False by done. by apply Hframe.
  - unfold hasUser in Hhas. by apply bool_decide_eq_false in Hhas.
  - intros p Hp. rewrite users_setOperands. by apply Husers.
  - done.
Qed.

(** X6. [I.eraseOperand(V)] on a consistent state returns; the operand
    vector of [I] keeps, in order, the slots that held neither [V] nor null
    (the compaction also drops the slots that were null before the call);
    no other instruction changes; [I] is no user of [V] afterwards and
    every other use list is unchanged. *)
Theorem eraseOperand_compacts (h : State) (I V : ValueId) :
  UseDefConsistent h ->
  exists h',
    eraseOperand h I V = Some h' /\
    producers h' I =
      filter (fun o => o <> None /\ o <> Some V) (producers h I) /\
    (forall x, x <> I -> producers h' x = producers h x) /\
    hasUser h' V I = false /\
    (forall p, p <> V -> users h' p = users h p).
Proof.
  rewrite consistent_InvH. intros Hinv.
  destruct (eraseOperand_spec h I V Hinv)
    as (h' & He & _ & Hprod & Hframe & Hnot & Hus & _).
  exists h'. split_and!; try done.
  unfold hasUser. by apply bool_decide_eq_false.
Qed.

(** The loop of [removeAllUses]: [h] is the state at the call, [hi] the
    state after some rounds. *)
Lemma removeAllUsesLoop_effect fuel h hi V :
  InvH None hi -> length (users hi V) <= fuel ->
  (forall x, producers hi x = producers h x \/
             (Some V ∈ producers h x /\
              producers hi x =
                filter (fun o => o <> None /\ o <> Some V) (producers h x))) ->
  (forall p, p <> V -> users hi p = users h p) ->
  exists h',
    removeAllUsesLoop fuel hi V = Some h' /\ InvH None h' /\
    users h' V = [] /\
    (forall x, producers h' x = producers h x \/
               (Some V ∈ producers h x /\
                producers h' x =
                  filter (fun o => o <> None /\ o <> Some V) (producers h x))) /\
    (forall p, p <> V -> users h' p = users h p).
Proof.
  revert hi. induction fuel as [|fuel IH]; intros hi Hinv Hlen Hrel Hus.
  - assert (Hnil : users hi V = []) by (apply nil_length_inv; lia).
    exists hi. simpl. by rewrite Hnil.
  - destruct (last (users hi V)) as [u|] eqn:Hlast.
    + destruct (eraseOperand_spec hi u V Hinv)
        as (h1 & He & Hinv1 & Hprod & Hframe & _ & Hus1 & Hdec).
      assert (Hin : u ∈ users hi V).
      { rewrite last_lookup in Hlast. apply list_elem_of_lookup. eauto. }
      assert (HuV : Some V ∈ producers hi u).
      { apply list_elem_of_lookup in Hin as [j Hj].
        destruct (inv_surj _ _ Hinv V j u Hj) as (k & _ & Hk).
        apply list_elem_of_lookup. exists k.
        by rewrite producers_lookup, Hk. }
      destruct (IH h1 Hinv1) as (h' & Hloop & Hinv' & Hnil & Hrel' & Hus').
      * specialize (Hdec Hin). lia.
      * intros x. destruct (decide (x = u)) as [->|Hx].
        -- right. destruct (Hrel u) as [Heq|[_ Heq]].
           ++ rewrite Hprod, Heq. split; [by rewrite <- Heq | done].
           ++ exfalso. rewrite Heq in HuV.
              apply list_elem_of_filter in HuV as [[_ ?] _]. done.
        -- rewrite Hframe by done. apply Hrel.
      * intros p Hp. rewrite Hus1 by done. by apply Hus.
      * exists h'. simpl. rewrite Hlast, He. done.
    + apply last_None in Hlast. exists hi. simpl. by rewrite Hlast.
Qed.

(** X7. [V.removeAllUses()] on a consistent state returns and leaves [V]
    without users.  Every instruction that held [V] keeps, in order, its
    slots that held neither [V] nor null; the instructions that did not hold
    [V] are unchanged, and so are the use lists of the other values. *)
Theorem removeAllUses_effect (h : State) (V : ValueId) :
  UseDefConsistent h ->
  exists h',
    removeAllUses h V = Some h' /\
    users h' V = [] /\
    (forall x, producers h' x =
               if decide (Some V ∈ producers h x)
               then filter (fun o => o <> None /\ o <> Some V) (producers h x)
               else producers h x) /\
    (forall p, p <> V -> users h' p = users h p) /\
    UseDefConsistent h'.
Proof.
  rewrite !consistent_InvH. intros Hinv.
  destruct (removeAllUsesLoop_effect (getNumUsers h V) h h V Hinv)
    as (h' & Hloop & Hinv' & Hnil & Hrel & Hus); [done|by left|done|].
  exists h'. split_and!; try done; [|by apply consistent_InvH].
  intros x. destruct (Hrel x) as [Heq|[HV Heq]].
  - rewrite decide_False; [done|]. intros HV. rewrite <- Heq in HV.
    apply list_elem_of_lookup in HV as [k Hk].
    rewrite producers_lookup in Hk.
    destruct (operands h' x !! k) as [[o j]|] eqn:Hok; [|done].
    simpl in Hk. injection Hk as ->.
    pose proof (inv_fwd _ _ Hinv' x k V j (live_None _ _) Hok) as Hu.
    by rewrite Hnil in Hu.
  - by rewrite decide_True.
Qed.

Lemma length_filter_lookup_seq {A} `{!EqDecision A} (l : list A) (x : A) :
  length (filter (fun j => l !! j = Some x) (seq 0 (length l))) =
  length (filter (fun y => y = x) l).
Proof.
  induction l as [|y l IH] using rev_ind; [done|].
  rewrite length_app. simpl. rewrite Nat.add_1_r, seq_S, !filter_app.
  rewrite !length_app. simpl.
  rewrite (filter_ext_in (fun j => (l ++ [y]) !! j = Some x)
                         (fun j => l !! j = Some x)).
  2:{ intros j Hj. apply elem_of_seq in Hj. by rewrite lookup_app_l by lia. }
  rewrite IH. f_equal. rewrite !filter_cons, !filter_nil.
  rewrite lookup_app_r by lia. rewrite Nat.sub_diag. simpl.
  destruct (decide (y = x)) as [->|Hne].
  - by rewrite decide_True.
  - rewrite decide_False; [done|]. congruence.
Qed.

(** X8. In a consistent state an instruction [I] is in the user list of a
    value [V] once for each of its operand slots that hold [V]; so
    [V.hasUser(I)] tells whether some operand of [I] is [V]. *)
Theorem users_count_slots (h : State) (V I : ValueId) :
  UseDefConsistent h ->
  length (filter (fun u => u = I) (users h V)) =
    length (filter (fun o => o = Some V) (producers h I)) /\
  (hasUser h V I = true <-> exists k, getOperand h I k = Some (Some V)).
Proof.
  rewrite consistent_InvH. intros Hinv. split.
  - rewrite <- length_filter_lookup_seq.
    unfold producers. rewrite filter_fmap_comm, length_fmap.
    set (A := filter (fun u : Use => u.1 = Some V) (operands h I)).
    rewrite <- (length_fmap snd A).
    apply Permutation_length. apply NoDup_Permutation.
    + apply NoDup_filter, NoDup_seq.
    + apply NoDup_fmap_2_strong.
      * intros [o1 j1] [o2 j2] H1 H2. simpl. intros <-.
        apply list_elem_of_filter in H1 as [H1 _].
        apply list_elem_of_filter in H2 as [H2 _]. simpl in *. congruence.
      * assert (HA : A = filter (fun u : Use => u.1 = Some V) (uses h I)).
        { unfold A, uses. rewrite list_filter_filter.
          apply filter_ext_in. intros [o j] _. unfold nonNull. simpl.
          split; [|by intros [? _]]. intros ->. done. }
        rewrite HA. apply NoDup_filter.
        by apply (proj1 (InvH_alt h) Hinv).
    + intros j. rewrite list_elem_of_filter, elem_of_seq, list_elem_of_fmap.
      split.
      * intros [Hj _].
        destruct (inv_surj _ _ Hinv V j I Hj) as (k & _ & Hk).
        exists (Some V, j). split; [done|]. apply list_elem_of_filter.
        split; [done|]. apply list_elem_of_lookup. eauto.
      * intros ([o j'] & -> & Hin). simpl.
        apply list_elem_of_filter in Hin as [Ho Hin]. simpl in Ho. subst o.
        apply list_elem_of_lookup in Hin as [k Hk].
        pose proof (inv_fwd _ _ Hinv I k V j' (live_None _ _) Hk) as Hu.
        split; [done|]. apply lookup_lt_Some in Hu. lia.
  - unfold hasUser. rewrite bool_decide_eq_true. split.
    + intros Hin. apply list_elem_of_lookup in Hin as [j Hj].
      destruct (inv_surj _ _ Hinv V j I Hj) as (k & _ & Hk).
      exists k. unfold getOperand. by rewrite Hk.
    + intros [k Hk]. unfold getOperand in Hk.
      destruct (operands h I !! k) as [[o j]|] eqn:Hok; [|done].
      simpl in Hk. injection Hk as ->.
      pose proof (inv_fwd _ _ Hinv I k V j (live_None _ _) Hok) as Hu.
      apply list_elem_of_lookup. eauto.
Qed.

(** X9. [I.replaceFirstOperandWith(Old, New)] on a consistent state
    rewrites the slot of lowest index that holds [Old] and nothing else;
    when no slot of [I] holds [Old] the scan runs into its
    [llvm_unreachable]. *)
Theorem replaceFirstOperandWith_lowest (h : State) (I : ValueId)
    (Old New : option ValueId) :
  UseDefConsistent h ->
  (Old ∉ producers h I -> replaceFirstOperandWith h I Old New = None) /\
  forall h', replaceFirstOperandWith h I Old New = Some h' ->
    exists i,
      getOperand h I i = Some Old /\
      (forall j, j < i -> getOperand h I j <> Some Old) /\
      producers h' I = <[i := New]> (producers h I) /\
      (forall x, x <> I -> producers h' x = producers h x).
Proof.
  rewrite consistent_InvH. intros Hinv. unfold IR.replaceFirstOperandWith.
  split.
  - intros Hnot.
    destruct (findFirst (fun u : Use => u.1 = Old) (operands h I)) as [i|] eqn:Hf;
      [|done].
    apply findFirst_Some in Hf as (u & Hu & Ho & _). exfalso. apply Hnot.
    apply list_elem_of_lookup. exists i. by rewrite producers_lookup, Hu, <- Ho.
  - intros h'.
    destruct (findFirst (fun u : Use => u.1 = Old) (operands h I)) as [i|] eqn:Hf;
      [|done].
    intros Hset. apply findFirst_Some in Hf as (u & Hu & Ho & Hmin).
    destruct (setOperand_inv getKind canSetOperandImpl h I New i h' Hinv Hset)
      as (cur & Hcur & Hpost).
    pose proof (sop_prod _ _ _ _ _ _ Hpost) as Hprod.
    exists i. split_and!.
    + unfold getOperand. by rewrite Hu, <- Ho.
    + intros j Hj. unfold getOperand.
      destruct (operands h I !! j) as [y|] eqn:Hy; [|done]. simpl.
      intros [= Hyo]. by apply (Hmin j y Hy Hj).
    + by rewrite Hprod, decide_True.
    + intros x Hx. by rewrite Hprod, decide_False.
Qed.

(** Pushing a sequence of operands. *)
Lemma pushOperands_spec vals h I :
  InvH None h ->
  (forall k w, vals !! k = Some (Some w) ->
     canSetOperand I (getKind w) (getNumOperands h I + k) = true) ->
  exists h',
    foldl (fun acc val => h ← acc; pushOperand h I val) (Some h) vals = Some h' /\
    InvH None h' /\
    producers h' I = producers h I ++ vals /\
    (forall x, x <> I -> producers h' x = producers h x) /\
    (forall w, users h' w =
       users h w ++
       replicate (length (filter (fun o => o = Some w) vals)) I).
Proof.
  revert h. induction vals as [|v vals IH]; intros h Hinv Hcan.
  - exists h. split; [done|]. split; [done|]. split_and!.
    + by rewrite app_nil_r.
    + done.
    + intros w. by rewrite app_nil_r.
  - destruct (pushOperand_spec h I v Hinv)
      as (h1 & Hpush & Hinv1 & Hprod1 & Hframe1 & Hnew1 & Hus1).
    { intros w ->. specialize (Hcan 0 w eq_refl).
      by rewrite Nat.add_0_r in Hcan. }
    assert (Hn1 : getNumOperands h1 I = S (getNumOperands h I)).
    { unfold getNumOperands. rewrite <- !producers_length, Hprod1, length_app.
      simpl. lia. }
    destruct (IH h1 Hinv1) as (h' & Hfold & Hinv' & Hprod & Hframe & Hus).
    { intros k w Hk. rewrite Hn1.
      replace (S (getNumOperands h I) + k) with (getNumOperands h I + S k)
        by lia.
      by apply Hcan. }
    exists h'. cbn [foldl mbind option_bind]. rewrite Hpush.
    split; [done|]. split; [done|]. split_and!.
    + rewrite Hprod, Hprod1, <- app_assoc. done.
    + intros x Hx. rewrite Hframe by done. by apply Hframe1.
    + intros w. rewrite Hus, filter_cons.
      destruct (decide (v = Some w)) as [->|Hne].
      * rewrite (Hnew1 w eq_refl), <- app_assoc. done.
      * by rewrite Hus1.
Qed.

(** X10. The constructor [Instruction(src, operands)], for a new object
    [this] of the kind of [src], in a consistent state in which every
    operand is null or of a kind that its slot accepts: it returns,
    [getOperand(i)] of the new instruction is [operands[i]], no other
    instruction changes, every value gets [this] appended to its users once
    per occurrence among the operands, and the state is consistent. *)
Theorem Instruction_copy_operands (h : State) (this src : ValueId)
    (vals : list (option ValueId)) :
  UseDefConsistent h -> operands h this = [] ->
  getKind this = getKind src ->
  getNumOperands h src = length vals ->
  (forall k w, vals !! k = Some (Some w) ->
     canSetOperandImpl (getKind src) (getKind w) k = true) ->
  exists h',
    Instruction_copy h this src vals = Some h' /\
    producers h' this = vals /\
    (forall x, x <> this -> producers h' x = producers h x) /\
    (forall w, users h' w =
       users h w ++
       replicate (length (filter (fun o => o = Some w) vals)) this) /\
    UseDefConsistent h'.
Proof.
  rewrite !consistent_InvH. intros Hinv Hfresh Hkind Hlen Hcan.
  destruct (pushOperands_spec vals h this Hinv)
    as (h' & Hfold & Hinv' & Hprod & Hframe & Hus).
  { intros k w Hk. unfold getNumOperands, IR.canSetOperand.
    rewrite Hfresh, Hkind. simpl. by apply Hcan. }
  exists h'. unfold Build.Instruction_copy.
  rewrite bool_decide_eq_true_2 by done.
  split; [done|]. split_and!; try done; [|by apply consistent_InvH].
  rewrite Hprod. unfold producers. by rewrite Hfresh.
Qed.

(** The use lists along the loop of [replaceAllUsesWith]: [h] is the state
    at the call, [hi] the state after some rounds. *)
Lemma replaceAllUsesLoop_users n h hi v w h' :
  w <> Some v -> InvH None hi ->
  (forall w', w = Some w' ->
     users hi w' ++ users hi v ≡ₚ users h w' ++ users h v) ->
  (forall p, p <> v -> w <> Some p -> users hi p = users h p) ->
  replaceAllUsesLoop n hi v w = Some h' ->
  (forall w', w = Some w' ->
     users h' w' ++ users h' v ≡ₚ users h w' ++ users h v) /\
  (forall p, p <> v -> w <> Some p -> users h' p = users h p).
Proof.
  intros Hw. revert hi. induction n as [|n IH]; intros hi Hinv Hnew Hother; simpl.
  - destruct (last (users hi v)); [done|]. by intros [= <-].
  - destruct (last (users hi v)) as [u|] eqn:Hlast; [|by intros [= <-]].
    unfold IR.replaceFirstOperandWith.
    destruct (findFirst (fun x : Use => x.1 = Some v) (operands hi u))
      as [i|] eqn:Hf; [|done].
    destruct (setOperand hi u w i) as [h1|] eqn:Hset; [|done].
    cbn [mbind option_bind]. intros Hloop.
    apply findFirst_Some in Hf as (cur & Hcur & Hc & _).
    destruct (setOperand_users hi u w i cur h1 Hinv Hcur) as (Hold & Hgain & Hrest);
      [congruence|done|].
    apply (IH h1); [by eapply setOperand_InvH| | |done].
    + intros w' ->. rewrite (Hgain w' eq_refl), <- (Hnew w' eq_refl).
      rewrite (Hold v Hc). rewrite <- app_assoc. done.
    + intros p Hp1 Hp2. rewrite Hrest; [by apply Hother|congruence|done].
Qed.

(** X27. Where the users go: [v.replaceAllUsesWith(w)] for [w] different
    from [v] and legal in the slots that hold [v], on a consistent state,
    returns; when [w] is not null its user list afterwards is its old one
    together with the users that [v] had (one entry per slot, in some
    order); the user lists of all other values are unchanged. *)
Theorem replaceAllUsesWith_moves_users (h : State) (v : ValueId)
    (w : option ValueId) :
  UseDefConsistent h -> mayReplace getKind canSetOperandImpl h v w ->
  w <> Some v ->
  exists h',
    replaceAllUsesWith h v w = Some h' /\
    users h' v = [] /\
    (forall w', w = Some w' -> users h' w' ≡ₚ users h w' ++ users h v) /\
    (forall p, p <> v -> w <> Some p -> users h' p = users h p).
Proof.
  rewrite consistent_InvH. intros Hinv Hcan Hw.
  destruct (replaceAllUsesLoop_ok getKind canSetOperandImpl h v w
              (length (users h v)) h Hw Hcan Hinv eq_refl)
    as (h' & Hloop & Hnil & _ & _).
  { intros u k. by left. }
  destruct (replaceAllUsesLoop_users (length (users h v)) h h v w h' Hw Hinv)
    as [Hnew Hother]; [done|done|done|].
  exists h'. unfold IR.replaceAllUsesWith.
  rewrite bool_decide_eq_false_2 by congruence.
  split; [done|]. split; [done|]. split; [|done].
  intros w' Hw'. rewrite <- (Hnew w' Hw'), Hnil. by rewrite app_nil_r.
Qed.

End OperandFacts.

(** *** On the example [I1 = add(x, y)], [I2 = mul(I1, I1)] *)

Lemma setOperand_writes_one_slot_witness :
  exists h',
    setOperand anyKind anyOperand rauwExample 11 (Some 2) 0 = Some h' /\
    getOperand h' 11 0 = Some (Some 2) /\
    getOperand h' 11 1 = Some (Some 10) /\
    getNumOperands h' 11 = 2.
Proof.
  destruct (setOperand anyKind anyOperand rauwExample 11 (Some 2) 0)
    as [h'|] eqn:Hset; [|by vm_compute in Hset].
  destruct (setOperand_writes_one_slot anyKind anyOperand rauwExample h' 11
              (Some 2) 0 rauwExample_consistent Hset) as (H1 & H2 & H3).
  exists h'. split; [done|]. split; [done|]. split.
  - rewrite H2 by done. by vm_compute.
  - rewrite H3. by vm_compute.
Defined.

Lemma setOperand_use_lists_witness :
  exists h',
    setOperand anyKind anyOperand rauwExample 11 (Some 2) 0 = Some h' /\
    users h' 2 = [10; 11] /\
    users rauwExample 10 ≡ₚ 11 :: users h' 10.
Proof.
  destruct (setOperand anyKind anyOperand rauwExample 11 (Some 2) 0)
    as [h'|] eqn:Hset; [|by vm_compute in Hset].
  destruct (setOperand_use_lists anyKind anyOperand rauwExample h' 11
              (Some 10) (Some 2) 0 rauwExample_consistent)
    as (H1 & H2 & _); [by vm_compute|done|done|].
  exists h'. split; [done|]. split.
  - rewrite (H2 2 eq_refl). by vm_compute.
  - by apply H1.
Defined.

Lemma setOperand_returns_iff_witness :
  is_Some (setOperand anyKind anyOperand rauwExample 11 (Some 2) 1) /\
  setOperand anyKind anyOperand rauwExample 11 (Some 10) 1 = Some rauwExample /\
  ~ is_Some (setOperand anyKind anyOperand rauwExample 11 (Some 2) 2).
Proof.
  split; [|split].
  - apply (setOperand_returns_iff anyKind anyOperand rauwExample 11 (Some 2) 1
             rauwExample_consistent).
    exists (Some 10). split; [by vm_compute|]. right. by intros w _.
  - apply (proj2 (setOperand_returns_iff anyKind anyOperand rauwExample 11
                    (Some 10) 1 rauwExample_consistent) (Some 10));
      [by vm_compute|done].
  - intros Hs.
    apply (setOperand_returns_iff anyKind anyOperand rauwExample 11 (Some 2) 2
             rauwExample_consistent) in Hs as (old & Hold & _).
    by vm_compute in Hold.
Defined.

Lemma pushOperand_appends_witness :
  exists h',
    pushOperand anyKind anyOperand rauwExample 11 (Some 1) = Some h' /\
    producers h' 11 = [Some 10; Some 10; Some 1] /\
    users h' 1 = [10; 11].
Proof.
  destruct (pushOperand_appends anyKind anyOperand rauwExample 11 (Some 1)
              rauwExample_consistent) as (h' & Hp & Hprod & _ & Hus & _).
  { by intros w _. }
  exists h'. split; [done|]. split.
  - rewrite Hprod. by vm_compute.
  - rewrite (Hus 1 eq_refl). by vm_compute.
Defined.

Lemma removeOperand_deletes_witness :
  is_Some (removeOperand anyKind anyOperand rauwExample 10 0) /\
  forall h', removeOperand anyKind anyOperand rauwExample 10 0 = Some h' ->
    producers h' 10 = [Some 2] /\ users h' 2 = [10].
Proof.
  destruct (removeOperand_deletes anyKind anyOperand rauwExample 10 0
              rauwExample_consistent) as [Hret Heff].
  split.
  - apply Hret. vm_compute. lia.
  - intros h' Hrem. destruct (Heff h' Hrem) as (Hprod & _ & _ & Hus).
    split.
    + rewrite Hprod. by vm_compute.
    + rewrite (Hus 2); by vm_compute.
Defined.

Lemma eraseOperand_compacts_witness :
  exists h',
    eraseOperand anyKind anyOperand rauwExample 11 10 = Some h' /\
    producers h' 11 = [] /\ producers h' 10 = [Some 1; Some 2] /\
    hasUser h' 10 11 = false.
Proof.
  destruct (eraseOperand_compacts anyKind anyOperand rauwExample 11 10
              rauwExample_consistent) as (h' & He & Hprod & Hframe & Hno & _).
  exists h'. split; [done|]. split; [|split; [|done]].
  - rewrite Hprod. by vm_compute.
  - rewrite Hframe by done. by vm_compute.
Defined.

Lemma removeAllUses_effect_witness :
  exists h',
    removeAllUses anyKind anyOperand rauwExample 1 = Some h' /\
    users h' 1 = [] /\ producers h' 10 = [Some 2] /\
    producers h' 11 = [Some 10; Some 10].
Proof.
  destruct (removeAllUses_effect anyKind anyOperand rauwExample 1
              rauwExample_consistent) as (h' & Hr & Hnil & Hprod & _).
  exists h'. split; [done|]. split; [done|]. rewrite !Hprod.
  split; by vm_compute.
Defined.

Lemma users_count_slots_witness :
  length (filter (fun u => u = 11) (users rauwExample 10)) = 2 /\
  hasUser rauwExample 10 11 = true.
Proof.
  destruct (users_count_slots rauwExample 10 11 rauwExample_consistent)
    as [Hcount Hhas].
  split.
  - rewrite Hcount. by vm_compute.
  - apply Hhas. exists 0. by vm_compute.
Defined.

Lemma replaceFirstOperandWith_lowest_witness :
  replaceFirstOperandWith anyKind anyOperand rauwExample 11 (Some 2) (Some 1)
    = None /\
  forall h',
    replaceFirstOperandWith anyKind anyOperand rauwExample 11 (Some 10) (Some 1)
      = Some h' ->
    exists i, getOperand rauwExample 11 i = Some (Some 10) /\
              producers h' 11 = <[i := Some 1]> (producers rauwExample 11).
Proof.
  split.
  - apply (replaceFirstOperandWith_lowest anyKind anyOperand rauwExample 11
             (Some 2) (Some 1) rauwExample_consistent).
    apply (bool_decide_unpack _). by vm_compute.
  - intros h' Hr.
    destruct (proj2 (replaceFirstOperandWith_lowest anyKind anyOperand
                       rauwExample 11 (Some 10) (Some 1)
                       rauwExample_consistent) h' Hr)
      as (i & Hi & _ & Hprod & _).
    exists i. split; [exact Hi | exact Hprod].
Defined.

Lemma Instruction_copy_operands_witness :
  exists h',
    Instruction_copy anyKind anyOperand rauwExample 12 11 [Some 10; Some 10]
      = Some h' /\
    producers h' 12 = [Some 10; Some 10] /\
    users h' 10 = [11; 11; 12; 12].
Proof.
  destruct (Instruction_copy_operands anyKind anyOperand rauwExample 12 11
              [Some 10; Some 10] rauwExample_consistent)
    as (h' & Hc & Hprod & _ & Hus & _);
    [by vm_compute|done|by vm_compute|by intros k w _|].
  exists h'. split; [done|]. split; [done|]. rewrite Hus. by vm_compute.
Defined.

Lemma replaceAllUsesWith_moves_users_witness :
  exists h',
    replaceAllUsesWith anyKind anyOperand rauwExample 10 (Some 1) = Some h' /\
    users h' 10 = [] /\ users h' 1 ≡ₚ [10; 11; 11].
Proof.
  destruct (replaceAllUsesWith_moves_users anyKind anyOperand rauwExample 10
              (Some 1) rauwExample_consistent)
    as (h' & Hr & Hnil & Hnew & _).
  - intros w' u k j _ _. reflexivity.
  - discriminate.
  - exists h'. split; [exact Hr|]. split; [exact Hnil|].
    exact (Hnew 1 eq_refl).
Defined.

(** ** Use registration, moving and erasing, one by one *)

Import Segment.

(** X11. Registering a use and removing it again: [V.removeUse(V.addUser(I))]
    returns and restores every use list; no operand vector is touched,
    because the entry removed is the last one. *)
Theorem removeUse_addUser (h : State) (V I : ValueId) :
  exists h2,
    removeUse (addUser h V I).1 V (addUser h V I).2 = Some h2 /\
    (forall p, users h2 p = users h p) /\
    Operands h2 = Operands h.
Proof.
  unfold addUser, removeUse. cbn [fst snd].
  assert (Hus : users (setUsers h V (users h V ++ [I])) V = users h V ++ [I]).
  { by rewrite users_setUsers, decide_True. }
  unfold hasUsers, getNumUsers. rewrite Hus, length_app. cbn [length].
  replace (length (users h V) + 1 =? 0)%nat with false
    by (symmetry; apply Nat.eqb_neq; lia).
  rewrite bool_decide_eq_true_2 by done. cbn [negb].
  rewrite last_snoc. cbn [mbind option_bind].
  rewrite lookup_app_r by lia. rewrite Nat.sub_diag. cbn [lookup list_lookup].
  cbn [mbind option_bind].
  replace (length (users h V) + 1 - 1) with (length (users h V)) by lia.
  assert (Htake : take (length (users h V))
                    (<[length (users h V) := I]> (users h V ++ [I])) = users h V).
  { rewrite take_insert_ge by lia. by rewrite take_app_length. }
  rewrite Htake. rewrite bool_decide_eq_false_2 by (intros Hne; by apply Hne).
  eexists. split; [done|]. split; [|done].
  intros p. rewrite users_setUsers.
  destruct (decide (V = p)) as [->|Hne]; [done|].
  by rewrite users_setUsers, decide_False.
Qed.

Lemma instList_setInstList h b l b' :
  instList (setInstList h b l) b' = if decide (b = b') then l else instList h b'.
Proof.
  unfold instList, setInstList; simpl. rewrite lookup_insert.
  by destruct (decide (b = b')).
Qed.

Lemma filter_all {A} (P : A -> Prop) `{!forall x, Decision (P x)} (l : list A) :
  (forall x, x ∈ l -> P x) -> filter P l = l.
Proof.
  induction l as [|x l IH]; intros HP; [done|].
  rewrite filter_cons, decide_True by (apply HP; left).
  f_equal. apply IH. intros y Hy. apply HP. by right.
Qed.

Lemma filter_replicate_ne {A} `{!EqDecision A} (x : A) m :
  filter (fun u => u <> x) (replicate m x) = [].
Proof.
  induction m as [|m IH]; [done|]. simpl.
  by rewrite filter_cons, decide_False by (intros Hne; by apply Hne).
Qed.

(** X12. [I.moveBefore(Later)] for two different instructions that are
    linked in their parent blocks, in a state in which every block holds
    each of its instructions once and is their parent: the call returns,
    [I] is taken out of its block and stands immediately before [Later] in
    the block of [Later], the order of the other instructions is kept, the
    parent of [I] is the block of [Later], no use list and no operand
    changes, and the blocks still hold their instructions once and are
    their parents. *)
Theorem moveBefore_places (h : State) (this Later bb bb' : ValueId) :
  Linked h -> this <> Later ->
  Parent h !! this = Some bb -> this ∈ instList h bb ->
  Parent h !! Later = Some bb' -> Later ∈ instList h bb' ->
  exists h' pre post,
    moveBefore h this Later = Some h' /\
    filter (fun x => x <> this) (instList h bb') = pre ++ Later :: post /\
    instList h' bb' = pre ++ this :: Later :: post /\
    Parent h' !! this = Some bb' /\
    (bb <> bb' ->
     instList h' bb = filter (fun x => x <> this) (instList h bb)) /\
    (forall b, b <> bb -> b <> bb' -> instList h' b = instList h b) /\
    Users h' = Users h /\ Operands h' = Operands h /\
    Linked h'.
Proof.
  intros Hlinked Hne Hpar Hin HparL HinL.
  assert (Hcont : forall b x, x ∈ instList h b -> Parent h !! x = Some b).
  { intros b. apply blockContains_alt, Hlinked. }
  assert (Honly : forall b, this ∈ instList h b -> b = bb).
  { intros b Hb. apply Hcont in Hb. congruence. }
  set (h1 := BasicBlock_remove h bb this).
  assert (Hl1 : instList h1 bb' = filter (fun x => x <> this) (instList h bb')).
  { unfold h1, BasicBlock_remove. rewrite instList_setInstList.
    destruct (decide (bb = bb')) as [->|Hbb]; [done|].
    symmetry. apply filter_all. intros x Hx ->. by apply Hbb, eq_sym, Honly. }
  assert (HLin : Later ∈ instList h1 bb').
  { rewrite Hl1. apply list_elem_of_filter. split; [congruence|done]. }
  apply list_elem_of_lookup in HLin as [k0 Hk0].
  destruct (findFirst_exists (fun x => x = Later) (instList h1 bb') k0 Later
              Hk0 eq_refl) as (k & Hfind & _).
  pose proof Hfind as Hfind'.
  apply findFirst_Some in Hfind' as (y & Hk & -> & Hmin).
  set (pre := take k (instList h1 bb')).
  set (post := drop (S k) (instList h1 bb')).
  assert (Hsplit : instList h1 bb' = pre ++ Later :: post).
  { symmetry. by apply take_drop_middle. }
  assert (Hdrop : drop k (instList h1 bb') = Later :: post).
  { by apply drop_S. }
  assert (Hmove : moveBefore h this Later =
            Some (setParent (setInstList h1 bb' (pre ++ this :: Later :: post))
                    this bb')).
  { unfold moveBefore. rewrite bool_decide_eq_false_2 by done.
    rewrite Hpar. cbn [mbind option_bind]. fold h1.
    change (Parent h1) with (Parent h). rewrite HparL. cbn [mbind option_bind].
    unfold insertBeforeInList. rewrite Hfind. cbn [mbind option_bind].
    by rewrite Hdrop. }
  eexists _, pre, post. split; [exact Hmove|].
  assert (Hnew : instList (setParent (setInstList h1 bb'
                             (pre ++ this :: Later :: post)) this bb') bb'
                 = pre ++ this :: Later :: post).
  { change (instList (setParent ?s _ _) ?b) with (instList s b).
    by rewrite instList_setInstList, decide_True. }
  assert (Hother : forall b, b <> bb' ->
            instList (setParent (setInstList h1 bb'
                        (pre ++ this :: Later :: post)) this bb') b
            = instList h1 b).
  { intros b Hb.
    change (instList (setParent ?s _ _) ?b) with (instList s b).
    by rewrite instList_setInstList, decide_False. }
  assert (Hh1 : forall b, instList h1 b =
            if decide (bb = b) then filter (fun x => x <> this) (instList h bb)
            else instList h b).
  { intros b. unfold h1, BasicBlock_remove. by rewrite instList_setInstList. }
  split_and!.
  - by rewrite <- Hl1.
  - done.
  - simpl. apply lookup_insert_eq.
  - intros Hbb. rewrite Hother by done. by rewrite Hh1, decide_True.
  - intros b Hb Hb'. rewrite Hother by done. by rewrite Hh1, decide_False.
  - done.
  - done.
  - intros b. rewrite blockContains_alt.
    assert (Hpar' : forall x, x <> this ->
              Parent (setParent (setInstList h1 bb'
                        (pre ++ this :: Later :: post)) this bb') !! x
              = Parent h !! x).
    { intros x Hx. simpl. by rewrite lookup_insert_ne. }
    destruct (decide (b = bb')) as [->|Hb'].
    + rewrite Hnew. split.
      * intros x Hx. destruct (decide (x = this)) as [->|Hxt].
        -- simpl. apply lookup_insert_eq.
        -- rewrite Hpar' by done. apply Hcont.
           assert (Hx' : x ∈ pre ++ Later :: post).
           { rewrite elem_of_app, !elem_of_cons in Hx.
             rewrite elem_of_app, elem_of_cons. tauto. }
           rewrite <- Hsplit, Hl1 in Hx'.
           by apply list_elem_of_filter in Hx' as [_ ?].
      * assert (Hnd : NoDup (pre ++ Later :: post)).
        { rewrite <- Hsplit, Hl1. apply NoDup_filter, Hlinked. }
        assert (Hnot : this ∉ pre ++ Later :: post).
        { rewrite <- Hsplit, Hl1. intros Hx.
          by apply list_elem_of_filter in Hx as [? _]. }
        rewrite <- Permutation_middle. by apply NoDup_cons.
    + rewrite Hother by done. rewrite Hh1.
      destruct (decide (bb = b)) as [<-|Hb].
      * split; [|apply NoDup_filter, Hlinked].
        intros x Hx. apply list_elem_of_filter in Hx as [Hxt Hx].
        rewrite Hpar' by done. by apply Hcont.
      * split; [|apply Hlinked]. intros x Hx.
        rewrite Hpar'; [by apply Hcont|]. intros ->. by apply Hb, eq_sym, Honly.
Qed.

Section EraseFacts.

Context {ValueKind : Type}.
Context (getKind : ValueId -> ValueKind).
Context (canSetOperandImpl : ValueKind -> ValueKind -> nat -> bool).

Local Abbreviation setOperand := (setOperand getKind canSetOperandImpl).
Local Abbreviation replaceAllUsesWith :=
  (replaceAllUsesWith getKind canSetOperandImpl).
Local Abbreviation releaseOperandStep :=
  (releaseOperandStep getKind canSetOperandImpl).
Local Abbreviation Instruction_eraseFromParent :=
  (Instruction_eraseFromParent getKind canSetOperandImpl).
Local Abbreviation eraseInstructionsLoop :=
  (eraseInstructionsLoop getKind canSetOperandImpl).
Local Abbreviation BasicBlock_eraseFromParent :=
  (BasicBlock_eraseFromParent getKind canSetOperandImpl).
Local Abbreviation eraseBlocksLoop :=
  (eraseBlocksLoop getKind canSetOperandImpl).
Local Abbreviation Function_eraseFromParent :=
  (Function_eraseFromParent getKind canSetOperandImpl).

(** What the loop of [Instruction::eraseFromParent] does to the other
    instructions and to the use lists. *)
Lemma releaseLoop_users l h I h1 :
  InvH None h -> foldl (releaseOperandStep I) (Some h) l = Some h1 ->
  (forall x, x <> I -> producers h1 x = producers h x) /\
  (forall p, exists m, users h p ≡ₚ replicate m I ++ users h1 p).
Proof.
  revert h. induction l as [|i l IH]; intros h Hinv; simpl.
  - intros [= <-]. split; [done|]. intros p. by exists 0.
  - destruct (setOperand h I None i) as [h0|] eqn:Hset;
      [|by rewrite foldl_releaseOperandStep_None].
    intros Hfold.
    destruct (setOperand_inv getKind canSetOperandImpl h I None i h0 Hinv Hset)
      as (cur & Hcur & Hpost).
    destruct (IH h0 (sop_inv _ _ _ _ _ _ Hpost) Hfold) as [Hp Hu]. split.
    + intros x Hx. rewrite Hp by done.
      by rewrite (sop_prod _ _ _ _ _ _ Hpost), decide_False.
    + intros p. destruct (Hu p) as [m Hm].
      destruct (decide (cur.1 = Some p)) as [Hc|Hc].
      * destruct (setOperand_users getKind canSetOperandImpl h I None i cur h0
                    Hinv Hcur) as (Hold & _); [congruence|done|].
        exists (S m). rewrite (Hold p Hc), Hm. done.
      * exists m. rewrite <- Hm.
        rewrite (sop_users_other _ _ _ _ _ _ Hpost p); [done|congruence|done].
Qed.

(** X13. [I.eraseFromParent()] for an instruction without users that is
    linked in a block, in a consistent state: the call returns; every use
    list loses its entries for [I] and nothing else; the operands of the
    other instructions are unchanged; [I] is gone from its block and has
    neither parent nor operands; and the state is consistent. *)
Theorem Instruction_eraseFromParent_releases (h : State) (I bb : ValueId) :
  UseDefConsistent h -> users h I = [] -> Parent h !! I = Some bb ->
  exists h',
    Instruction_eraseFromParent h I = Some h' /\
    (forall p, users h' p ≡ₚ filter (fun u => u <> I) (users h p)) /\
    (forall x, x <> I -> producers h' x = producers h x) /\
    instList h' bb = filter (fun x => x <> I) (instList h bb) /\
    Parent h' !! I = None /\ operands h' I = [] /\
    UseDefConsistent h'.
Proof.
  rewrite !consistent_InvH. intros Hinv Hnil Hpar.
  destruct (Instruction_eraseFromParent_spec getKind canSetOperandImpl h I bb
              Hinv Hnil Hpar)
    as (h2 & He & Hinv2 & Hsub & Hlen & [Hd1 Hd2] & HI & HP & HB).
  exists h2. split; [done|].
  unfold IR.Instruction_eraseFromParent in He.
  destruct (foldl (releaseOperandStep I) (Some h) _) as [h1|] eqn:Hfold;
    [|done].
  cbn [mbind option_bind] in He.
  destruct (Parent h1 !! I) as [bb0|]; [|done].
  cbn [mbind option_bind] in He. injection He as He.
  destruct (releaseLoop_users _ h I h1 Hinv Hfold) as [Hp Hu].
  assert (Hus2 : forall p, p <> I -> users h2 p = users h1 p).
  { intros p Hpi. rewrite <- He. unfold BasicBlock_erase.
    by rewrite users_destroyInstruction, decide_False. }
  split_and!; [| | | |done|by apply consistent_InvH].
  - intros p. destruct (decide (p = I)) as [->|Hpi].
    { by rewrite Hd1, Hnil. }
    destruct (Hu p) as [m Hm]. rewrite Hm, filter_app, filter_replicate_ne.
    rewrite Hus2 by done. simpl. rewrite filter_all; [done|].
    intros x Hx ->. rewrite <- Hus2 in Hx by done.
    apply list_elem_of_lookup in Hx as [j Hj].
    destruct (inv_surj _ _ Hinv2 p j I Hj) as (k & _ & Hk).
    by rewrite Hd2 in Hk.
  - intros x Hx. rewrite <- Hp by done. rewrite <- He.
    unfold producers, BasicBlock_erase.
    by rewrite operands_destroyInstruction, decide_False.
  - by apply (instList_lookup_insert _ _ _ _ HI).
  - rewrite HP. apply lookup_delete_eq.
Qed.

(** What the loop of [BasicBlock::eraseFromParent] leaves alone: the
    instruction lists of the other blocks; and no operand vector grows. *)
Lemma eraseInstructionsLoop_frame h bb fuel hi hf :
  EraseInv h hi bb -> eraseInstructionsLoop fuel hi bb = Some hf ->
  (forall b, b <> bb -> InstList hf !! b = InstList hi !! b) /\
  (forall x, length (producers hf x) <= length (producers hi x)).
Proof.
  revert hi. induction fuel as [|fuel IH]; intros hi Hei; simpl.
  - destruct (instList hi bb); [|done]. by intros [= <-].
  - destruct (instList hi bb) as [|head rest] eqn:Hl; [by intros [= <-]|].
    destruct (eraseInstructions_round getKind canSetOperandImpl h hi bb head
                rest Hei Hl) as (h2 & Hround & Hei2 & _).
    destruct (replaceAllUsesWith_None_spec getKind canSetOperandImpl hi head
                (ei_inv _ _ _ Hei)) as (h1 & Hr & Hinv1 & Hnil1 & Hs1).
    rewrite Hr in Hround |- *. cbn [mbind option_bind] in Hround |- *.
    rewrite Hround. cbn [mbind option_bind]. intros Hloop.
    destruct (IH h2 Hei2 Hloop) as [Hfr Hsz].
    assert (Hpar1 : Parent h1 !! head = Some bb).
    { rewrite (shr_parent _ _ Hs1).
      apply (proj1 (blockContains_alt hi bb) (ei_contains _ _ _ Hei)).
      rewrite Hl. left. }
    destruct (Instruction_eraseFromParent_spec getKind canSetOperandImpl
                h1 head bb Hinv1 Hnil1 Hpar1)
      as (h2' & He & _ & _ & Hlen & [_ Hd] & HI2 & _).
    rewrite Hround in He. injection He as <-. split.
    + intros b Hb. rewrite (Hfr b Hb), HI2, lookup_insert_ne by done.
      by rewrite (shr_insts _ _ Hs1).
    + intros x. etrans; [apply Hsz|].
      destruct (decide (x = head)) as [->|Hx].
      * unfold producers at 1. rewrite Hd. simpl. lia.
      * rewrite Hlen by done. by rewrite (shr_size _ _ Hs1).
Qed.

(** The instructions that the loop has erased have no parent. *)
Lemma eraseInstructionsLoop_parents h bb fuel hi hf :
  EraseInv h hi bb -> eraseInstructionsLoop fuel hi bb = Some hf ->
  (forall i, i ∈ instList h bb -> i ∉ instList hi bb ->
             Parent hi !! i = None) ->
  forall i, i ∈ instList h bb -> i ∉ instList hf bb -> Parent hf !! i = None.
Proof.
  revert hi. induction fuel as [|fuel IH]; intros hi Hei; simpl.
  - destruct (instList hi bb) eqn:Hl; [|done]. intros [= <-] Hstart i Hi Hn.
    apply Hstart; [done|]. apply not_elem_of_nil.
  - destruct (instList hi bb) as [|head rest] eqn:Hl.
    { intros [= <-] Hstart i Hi Hn. apply Hstart; [done|].
      apply not_elem_of_nil. }
    destruct (eraseInstructions_round getKind canSetOperandImpl h hi bb head
                rest Hei Hl) as (h2 & Hround & Hei2 & Hl2).
    destruct (replaceAllUsesWith_None_spec getKind canSetOperandImpl hi head
                (ei_inv _ _ _ Hei)) as (h1 & Hr & Hinv1 & Hnil1 & Hs1).
    rewrite Hr in Hround |- *. cbn [mbind option_bind] in Hround |- *.
    rewrite Hround. cbn [mbind option_bind]. intros Hloop Hstart.
    assert (Hpar1 : Parent h1 !! head = Some bb).
    { rewrite (shr_parent _ _ Hs1).
      apply (proj1 (blockContains_alt hi bb) (ei_contains _ _ _ Hei)).
      rewrite Hl. left. }
    destruct (Instruction_eraseFromParent_spec getKind canSetOperandImpl
                h1 head bb Hinv1 Hnil1 Hpar1)
      as (h2' & He2 & _ & _ & _ & _ & _ & HP2 & _).
    rewrite Hround in He2. injection He2 as <-.
    apply (IH h2 Hei2 Hloop). intros i Hi Hnot2. rewrite HP2.
    destruct (decide (i = head)) as [->|Hih]; [apply lookup_delete_eq|].
    rewrite lookup_delete_ne by done. rewrite (shr_parent _ _ Hs1).
    apply Hstart; [done|]. intros Hin. apply Hnot2. rewrite Hl2.
    apply list_elem_of_filter. split; [done|]. by rewrite Hl.
Qed.

(** [BasicBlock::eraseFromParent] of a block that is used by its own
    instructions only. *)
Lemma BasicBlock_eraseFromParent_spec h bb f :
  InvH None h -> blockContains h bb -> users h bb ⊆ instList h bb ->
  Parent h !! bb = Some f -> bb ∉ instList h bb ->
  exists h',
    BasicBlock_eraseFromParent h bb = Some h' /\ InvH None h' /\
    (forall p, users h' p ⊆ users h p) /\
    users h' bb = [] /\
    (forall i, i ∈ instList h bb -> dead h' i) /\
    (forall x, length (producers h' x) <= length (producers h x)) /\
    BasicBlockList h' =
      <[f := filter (fun x => x <> bb) (basicBlockList h f)]> (BasicBlockList h) /\
    (forall b, b <> bb -> InstList h' !! b = InstList h !! b) /\
    (forall x, x ∉ instList h bb -> x <> bb -> Parent h' !! x = Parent h !! x).
Proof.
  intros Hinv Hcont Hown Hpar Hself.
  destruct (eraseInstructionsLoop_spec getKind canSetOperandImpl h bb
              (length (instList h bb)) h)
    as (hf & Hloop & Heif & Hnilf);
    [by apply EraseInv_start | done |].
  destruct (eraseInstructionsLoop_frame h bb _ h hf
              (EraseInv_start h bb Hinv Hcont) Hloop) as [Hfr Hsz].
  destruct Heif as [Hinvf Hcontf Hsubf Hdeadf Husf Hparf Hblf].
  assert (Hnou : users hf bb = []).
  { destruct (users hf bb) as [|u us] eqn:Hu; [done|]. exfalso.
    assert (Hin : u ∈ users hf bb) by (rewrite Hu; left).
    pose proof (Hown u (Husf bb u Hin)) as Hub.
    destruct (Hdeadf u Hub) as [_ Hops];
      [rewrite Hnilf; apply not_elem_of_nil|].
    assert (Hl : users hf bb !! 0 = Some u) by (by rewrite Hu).
    destruct (inv_surj _ _ Hinvf bb 0 u Hl) as (k & _ & Hk).
    by rewrite Hops in Hk. }
  unfold IR.BasicBlock_eraseFromParent. rewrite Hloop.
  cbn [mbind option_bind]. unfold hasUsers, getNumUsers. rewrite Hnou.
  simpl. rewrite (Hparf bb Hself), Hpar. cbn [mbind option_bind].
  eexists. split; [done|].
  set (h' := destroyBasicBlock _ bb).
  assert (Hus' : forall p, users h' p = users hf p).
  { intros p. unfold h', users, destroyBasicBlock. simpl.
    destruct (decide (p = bb)) as [->|Hp].
    - rewrite lookup_delete_eq. simpl. symmetry. exact Hnou.
    - by rewrite lookup_delete_ne. }
  assert (Hops' : forall x, operands h' x = operands hf x) by done.
  split_and!.
  - by apply (InvH_reshape hf).
  - intros p. rewrite Hus'. apply Husf.
  - by rewrite Hus'.
  - intros i Hi. destruct (Hdeadf i Hi) as [Hd1 Hd2].
    { rewrite Hnilf. apply not_elem_of_nil. }
    split; [by rewrite Hus' | by rewrite Hops'].
  - intros x. unfold producers at 1. rewrite Hops'. apply Hsz.
  - unfold h'. simpl. unfold basicBlockList. by rewrite Hblf.
  - intros b Hb. unfold h'. simpl. rewrite lookup_delete_ne by done.
    by apply Hfr.
  - intros x Hx Hxb. unfold h'. simpl. rewrite lookup_delete_ne by done.
    by apply Hparf.
Qed.

(** X25. What [bb.eraseFromParent()] leaves behind, for a block that has
    a parent function, contains its instructions, is none of them, and is
    used by them only, in a consistent state: the call returns and the
    state is consistent; the block is gone from the block list of its
    function, which keeps its other blocks in order; the block and its
    instructions have no parent, no users and no operands left; and the
    instruction lists of the other blocks and the parents of everything
    else are unchanged. *)
Theorem BasicBlock_eraseFromParent_leaves (h : State) (bb f : ValueId) :
  UseDefConsistent h -> blockContains h bb ->
  users h bb ⊆ instList h bb -> Parent h !! bb = Some f ->
  bb ∉ instList h bb ->
  exists h',
    BasicBlock_eraseFromParent h bb = Some h' /\
    UseDefConsistent h' /\
    basicBlockList h' f = filter (fun x => x <> bb) (basicBlockList h f) /\
    instList h' bb = [] /\ users h' bb = [] /\ Parent h' !! bb = None /\
    (forall i, i ∈ instList h bb ->
       users h' i = [] /\ operands h' i = [] /\ Parent h' !! i = None) /\
    (forall b, b <> bb -> instList h' b = instList h b) /\
    (forall x, x ∉ instList h bb -> x <> bb ->
               Parent h' !! x = Parent h !! x).
Proof.
  rewrite consistent_InvH. intros Hinv Hcont Hown Hpar Hself.
  destruct (BasicBlock_eraseFromParent_spec h bb f Hinv Hcont Hown Hpar Hself)
    as (h' & He & Hinv' & Hus & Hnil & Hdead & Hsz & HB & HI & HP).
  exists h'. split; [done|]. split; [by apply consistent_InvH|].
  destruct (eraseInstructionsLoop_spec getKind canSetOperandImpl h bb
              (length (instList h bb)) h)
    as (hf & Hloop & Heif & Hnilf);
    [by apply EraseInv_start | done |].
  unfold IR.BasicBlock_eraseFromParent in He. rewrite Hloop in He.
  cbn [mbind option_bind] in He.
  destruct (hasUsers hf bb); [done|].
  destruct (Parent hf !! bb) as [f'|] eqn:Hpf; [|done].
  cbn [mbind option_bind] in He. injection He as He.
  assert (Hparent : forall x, Parent h' !! x =
            if decide (x = bb) then None else Parent hf !! x).
  { intros x. rewrite <- He. simpl.
    destruct (decide (x = bb)) as [->|Hx].
    - apply lookup_delete_eq.
    - by rewrite lookup_delete_ne. }
  assert (Hgone : forall i, i ∈ instList h bb -> Parent hf !! i = None).
  { intros i Hi.
    apply (eraseInstructionsLoop_parents h bb _ h hf
             (EraseInv_start h bb Hinv Hcont) Hloop); [done|done|].
    rewrite Hnilf. apply not_elem_of_nil. }
  split_and!.
  - unfold basicBlockList at 1. by rewrite HB, lookup_insert_eq.
  - rewrite <- He. unfold instList. simpl. by rewrite lookup_delete_eq.
  - done.
  - by rewrite Hparent, decide_True.
  - intros i Hi. destruct (Hdead i Hi) as [Hd1 Hd2].
    split; [done|]. split; [done|].
    rewrite Hparent. destruct (decide (i = bb)); [done|]. by apply Hgone.
  - intros b Hb. unfold instList. by rewrite HI.
  - done.
Qed.

(** X26. Why the users are taken off first: [I.eraseFromParent()] for an
    instruction that another instruction still uses, in a consistent state,
    returns, and the state it leaves is not consistent: the operand slot of
    the user still holds [I], which is registered nowhere. *)
Theorem Instruction_eraseFromParent_dangling (h : State) (I u bb : ValueId) :
  UseDefConsistent h -> u ∈ users h I -> u <> I ->
  Parent h !! I = Some bb ->
  exists h',
    Instruction_eraseFromParent h I = Some h' /\
    Some I ∈ producers h' u /\ users h' I = [] /\
    ~ UseDefConsistent h'.
Proof.
  rewrite consistent_InvH. intros Hinv Hu Hne Hpar.
  destruct (releaseLoop_spec getKind canSetOperandImpl
              (seq 0 (getNumOperands h I)) h I Hinv)
    as (h1 & Hfold & Hinv1 & Hs1 & _).
  { intros i Hi. apply elem_of_seq in Hi. rewrite producers_length.
    unfold getNumOperands in Hi. lia. }
  destruct (releaseLoop_users _ h I h1 Hinv Hfold) as [Hp _].
  unfold IR.Instruction_eraseFromParent. rewrite Hfold.
  cbn [mbind option_bind]. rewrite (shr_parent _ _ Hs1), Hpar.
  cbn [mbind option_bind]. eexists. split; [done|].
  apply list_elem_of_lookup in Hu as [j Hj].
  destruct (inv_surj _ _ Hinv I j u Hj) as (k & _ & Hk).
  assert (Hprod : producers (BasicBlock_erase h1 bb I) u = producers h u).
  { unfold producers, BasicBlock_erase.
    rewrite operands_destroyInstruction, decide_False by done.
    by apply Hp. }
  assert (Hin : Some I ∈ producers (BasicBlock_erase h1 bb I) u).
  { rewrite Hprod. apply list_elem_of_lookup. exists k.
    by rewrite producers_lookup, Hk. }
  assert (Hnil : users (BasicBlock_erase h1 bb I) I = []).
  { unfold BasicBlock_erase. by rewrite users_destroyInstruction, decide_True. }
  split; [done|]. split; [done|].
  rewrite consistent_InvH. intros Hinv'.
  apply list_elem_of_lookup in Hin as [k' Hk'].
  rewrite producers_lookup in Hk'.
  destruct (operands (BasicBlock_erase h1 bb I) u !! k') as [[o j']|] eqn:Ho;
    [|done].
  simpl in Hk'. injection Hk' as ->.
  pose proof (inv_fwd _ _ Hinv' u k' I j' (live_None _ _) Ho) as Hbad.
  by rewrite Hnil in Hbad.
Qed.

Lemma EraseFunInv_start h f :
  InvH None h -> FunctionContains h f -> EraseFunInv h h f.
Proof. intros Hinv Hcont. split; try done. Qed.

(** One round of the loop of [Function::eraseFromParent]. *)
Lemma eraseBlocks_round h hi f head rest :
  EraseFunInv h hi f -> basicBlockList hi f = head :: rest ->
  exists h2,
    (h1 ← replaceAllUsesWith hi head None;
     BasicBlock_eraseFromParent h1 head) = Some h2 /\
    EraseFunInv h h2 f /\
    basicBlockList h2 f = filter (fun x => x <> head) (basicBlockList hi f).
Proof.
  intros [Hinv [Hf Hcont] Hsub Hsame Hus Hgone] Hlist.
  assert (Hhead : head ∈ basicBlockList hi f) by (rewrite Hlist; left).
  destruct (Hcont head Hhead) as (Hpar & Hbc & Hself).
  rewrite blockContains_alt in Hbc.
  destruct (replaceAllUsesWith_None_spec getKind canSetOperandImpl hi head Hinv)
    as (h1 & Hr & Hinv1 & Hnil1 & Hs1).
  rewrite Hr. cbn [mbind option_bind].
  assert (Hil1 : forall b, instList h1 b = instList hi b).
  { intros b. unfold instList. by rewrite (shr_insts _ _ Hs1). }
  destruct (BasicBlock_eraseFromParent_spec h1 head f Hinv1)
    as (h2 & He & Hinv2 & Hus2 & Hnil2 & Hdead2 & Hsz2 & HB2 & HI2 & HP2).
  { apply blockContains_alt. intros i. rewrite Hil1, (shr_parent _ _ Hs1).
    apply Hbc. }
  { rewrite Hnil1. apply list_subseteq_nil. }
  { by rewrite (shr_parent _ _ Hs1). }
  { by rewrite Hil1. }
  assert (Hl2 : basicBlockList h2 f =
                filter (fun x => x <> head) (basicBlockList hi f)).
  { unfold basicBlockList at 1. rewrite HB2, lookup_insert_eq. simpl.
    unfold basicBlockList. by rewrite (shr_blocks _ _ Hs1). }
  assert (Hil2 : forall b, b <> head -> instList h2 b = instList hi b).
  { intros b Hb. unfold instList. rewrite (HI2 b Hb).
    by rewrite (shr_insts _ _ Hs1). }
  assert (Hp2 : forall x, x ∉ instList hi head -> x <> head ->
                          Parent h2 !! x = Parent hi !! x).
  { intros x Hx Hxh. rewrite HP2; [|by rewrite Hil1|done].
    by rewrite (shr_parent _ _ Hs1). }
  exists h2. split; [done|]. split; [|done]. split.
  - done.
  - split.
    + rewrite Hl2. intros Hin. by apply list_elem_of_filter in Hin as [_ ?].
    + intros bb2. rewrite Hl2. intros Hin.
      apply list_elem_of_filter in Hin as [Hne Hin].
      destruct (Hcont bb2 Hin) as (Hpar2 & Hbc2 & Hself2).
      rewrite blockContains_alt in Hbc2.
      assert (Hnot : bb2 ∉ instList hi head).
      { intros Hx. apply Hbc in Hx. rewrite Hpar2 in Hx.
        injection Hx as <-. done. }
      split_and!.
      * by rewrite Hp2.
      * apply blockContains_alt. intros i. rewrite Hil2 by done. intros Hi.
        rewrite Hp2; [by apply Hbc2| |].
        -- intros Hx. apply Hbc in Hx. rewrite (Hbc2 i Hi) in Hx. congruence.
        -- intros ->. rewrite (Hbc2 head Hi) in Hpar. injection Hpar as ->.
           done.
      * by rewrite Hil2.
  - rewrite Hl2. intros x Hx. apply list_elem_of_filter in Hx as [_ Hx].
    by apply Hsub.
  - intros bb2. rewrite Hl2. intros Hin.
    apply list_elem_of_filter in Hin as [Hne Hin].
    rewrite Hil2 by done. by apply Hsame.
  - intros p. trans (users h1 p); [apply Hus2|].
    trans (users hi p); [apply (shr_users _ _ Hs1) | apply Hus].
  - intros bb Hbb. rewrite Hl2. intros Hnot2.
    destruct (decide (bb = head)) as [->|Hne].
    + split; [done|]. intros i Hi. apply Hdead2.
      by rewrite Hil1, (Hsame head Hhead).
    + assert (Hnot : bb ∉ basicBlockList hi f).
      { intros Hin. apply Hnot2. by apply list_elem_of_filter. }
      destruct (Hgone bb Hbb Hnot) as [Hu Hd]. split.
      * apply list_nil_subseteq. rewrite <- Hu.
        trans (users h1 bb); [apply Hus2 | apply (shr_users _ _ Hs1)].
      * intros i Hi. destruct (Hd i Hi) as [Hd1 Hd2]. split.
        -- apply list_nil_subseteq. rewrite <- Hd1.
           trans (users h1 i); [apply Hus2 | apply (shr_users _ _ Hs1)].
        -- apply dead_no_operands.
           pose proof (Hsz2 i) as Hle. rewrite (shr_size _ _ Hs1) in Hle.
           unfold producers in Hle at 2. rewrite Hd2 in Hle. simpl in Hle. lia.
Qed.

(** The loop returns once the fuel covers the blocks of the function. *)
Lemma eraseBlocksLoop_spec h f fuel hi :
  EraseFunInv h hi f -> length (basicBlockList hi f) <= fuel ->
  exists hf,
    eraseBlocksLoop fuel hi f = Some hf /\
    EraseFunInv h hf f /\ basicBlockList hf f = [].
Proof.
  revert hi. induction fuel as [|fuel IH]; intros hi Hei Hlen.
  - destruct (basicBlockList hi f) as [|head rest] eqn:Hl; [|simpl in Hlen; lia].
    exists hi. simpl. by rewrite Hl.
  - destruct (basicBlockList hi f) as [|head rest] eqn:Hl.
    { exists hi. simpl. by rewrite Hl. }
    destruct (eraseBlocks_round h hi f head rest Hei Hl)
      as (h2 & Hround & Hei2 & Hl2).
    destruct (IH h2 Hei2) as (hf & Hloop & Heif & Hnil).
    { rewrite Hl2, Hl, filter_cons, decide_False by (by intros ?).
      pose proof (length_filter (fun x => x <> head) rest). simpl in Hlen. lia. }
    exists hf. split; [|done]. simpl. rewrite Hl.
    destruct (replaceAllUsesWith hi head None) as [h1|]; [|done].
    simpl in *. by rewrite Hround.
Qed.

(** X14. [F.eraseFromParent()] on a consistent state in which the function
    contains its blocks and the blocks their instructions.  When the call
    completes, no operand slot anywhere holds the function, one of its
    blocks or an instruction of one of its blocks; the function has no
    blocks and is unlinked from the function list of the module; and the
    state is consistent.  The call does complete when every user of the
    function is an instruction of one of its own blocks: the users of a
    block are taken off before the block is erased, so the assertions of
    [BasicBlock::eraseFromParent] hold on the way. *)
Theorem Function_eraseFromParent_severs (M : ModuleState) (f : ValueId) :
  UseDefConsistent (ir M) -> FunctionContains (ir M) f ->
  (forall M', Function_eraseFromParent M f = Some M' ->
     (forall I k p j,
        operands (ir M') I !! k = Some (Some p, j) ->
        p <> f /\
        forall bb, bb ∈ basicBlockList (ir M) f ->
                   p <> bb /\ p ∉ instList (ir M) bb) /\
     basicBlockList (ir M') f = [] /\
     FunctionList M' = filter (fun x => x <> f) (FunctionList M) /\
     UseDefConsistent (ir M')) /\
  ((forall u, u ∈ users (ir M) f ->
      exists bb, bb ∈ basicBlockList (ir M) f /\ u ∈ instList (ir M) bb) ->
   is_Some (Function_eraseFromParent M f)).
Proof.
  rewrite consistent_InvH. intros Hinv Hcont.
  destruct (eraseBlocksLoop_spec (ir M) f
              (length (basicBlockList (ir M) f)) (ir M))
    as (hf & Hloop & [Hinvf Hcontf Hsubf Hsamef Husf Hgonef] & Hnilf);
    [by apply EraseFunInv_start | done |].
  assert (Hgone : forall bb, bb ∈ basicBlockList (ir M) f ->
            users hf bb = [] /\ forall i, i ∈ instList (ir M) bb -> dead hf i).
  { intros bb Hbb. apply Hgonef; [done|]. rewrite Hnilf.
    apply not_elem_of_nil. }
  unfold Build.Function_eraseFromParent. rewrite Hloop.
  cbn [mbind option_bind]. split.
  - intros M'. destruct (hasUsers hf f) eqn:Hhas; [done|]. intros [= <-].
    simpl. split_and!; [|done|done|by apply consistent_InvH].
    intros I k p j Hk.
    pose proof (inv_fwd _ _ Hinvf I k p j (live_None _ _) Hk) as Hu.
    split.
    + intros ->. unfold hasUsers, getNumUsers in Hhas.
      apply negb_false_iff, Nat.eqb_eq, nil_length_inv in Hhas.
      by rewrite Hhas in Hu.
    + intros bb Hbb. destruct (Hgone bb Hbb) as [Hnb Hd]. split.
      * intros ->. by rewrite Hnb in Hu.
      * intros Hp. destruct (Hd p Hp) as [Hnp _]. by rewrite Hnp in Hu.
  - intros Hown.
    assert (Hnou : users hf f = []).
    { destruct (users hf f) as [|u us] eqn:Hu; [done|]. exfalso.
      assert (Hin : u ∈ users hf f) by (rewrite Hu; left).
      destruct (Hown u (Husf f u Hin)) as (bb & Hbb & Hub).
      destruct (Hgone bb Hbb) as [_ Hd]. destruct (Hd u Hub) as [_ Hops].
      assert (Hl : users hf f !! 0 = Some u) by (by rewrite Hu).
      destruct (inv_surj _ _ Hinvf f 0 u Hl) as (k & _ & Hk).
      by rewrite Hops in Hk. }
    unfold hasUsers, getNumUsers. rewrite Hnou. simpl. by eexists.
Qed.

End EraseFacts.

(** *** On the example function 100 with the blocks 50 and 51 *)

Lemma blockExample_Linked : Linked blockExample.
Proof.
  intros bb.
  destruct (decide (bb = 50)) as [->|H50].
  { split; [unfold blockContains|]; apply (bool_decide_unpack _); by vm_compute. }
  destruct (decide (bb = 51)) as [->|H51].
  { split; [unfold blockContains|]; apply (bool_decide_unpack _); by vm_compute. }
  assert (Hnil : instList blockExample bb = []).
  { unfold instList.
    change (InstList blockExample)
      with (<[50 := [10; 11; 13]]> (<[51 := [12]]> (∅ : gmap nat (list nat)))).
    rewrite !lookup_insert_ne by done. by rewrite lookup_empty. }
  unfold blockContains. rewrite Hnil. split; constructor.
Qed.

Lemma moveBefore_places_witness :
  exists h',
    moveBefore blockExample 12 13 = Some h' /\
    Parent h' !! 12 = Some 50 /\ instList h' 51 = [] /\ Linked h'.
Proof.
  destruct (moveBefore_places blockExample 12 13 51 50 blockExample_Linked)
    as (h' & pre & post & Hm & _ & _ & Hpar & Hold & _ & _ & _ & Hl);
    [done|by vm_compute|apply (bool_decide_unpack _); by vm_compute
    |by vm_compute|apply (bool_decide_unpack _); by vm_compute|].
  exists h'. split; [done|]. split; [done|]. split; [|done].
  rewrite Hold by done. by vm_compute.
Defined.

Lemma Instruction_eraseFromParent_releases_witness :
  exists h',
    Instruction_eraseFromParent anyKind anyOperand blockExample 13 = Some h' /\
    instList h' 50 = [10; 11] /\ operands h' 13 = [] /\
    users h' 50 ≡ₚ [].
Proof.
  destruct (Instruction_eraseFromParent_releases anyKind anyOperand
              blockExample 13 50 blockExample_consistent)
    as (h' & He & Hus & _ & Hl & _ & Hops & _);
    [by vm_compute|by vm_compute|].
  exists h'. split; [done|]. split; [|split; [done|]].
  - rewrite Hl. by vm_compute.
  - rewrite Hus. by vm_compute.
Defined.

Lemma blockExample_FunctionContains : FunctionContains blockExample 100.
Proof.
  split; [apply (bool_decide_unpack _); by vm_compute|].
  assert (Hl : basicBlockList blockExample 100 = [50; 51]) by (by vm_compute).
  intros bb. rewrite Hl. intros Hbb.
  apply elem_of_cons in Hbb as [->|Hbb];
    [|apply list_elem_of_singleton in Hbb as ->].
  - split_and!; [by vm_compute|apply blockExample_Linked|].
    apply (bool_decide_unpack _). by vm_compute.
  - split_and!; [by vm_compute|apply blockExample_Linked|].
    apply (bool_decide_unpack _). by vm_compute.
Qed.

Lemma Function_eraseFromParent_severs_witness :
  is_Some (Function_eraseFromParent anyKind anyOperand
             (mkModuleState blockExample [100; 101] [] ∅) 100) /\
  forall M',
    Function_eraseFromParent anyKind anyOperand
      (mkModuleState blockExample [100; 101] [] ∅) 100 = Some M' ->
    FunctionList M' = [101] /\ basicBlockList (ir M') 100 = [] /\
    UseDefConsistent (ir M').
Proof.
  destruct (Function_eraseFromParent_severs anyKind anyOperand
              (mkModuleState blockExample [100; 101] [] ∅) 100
              blockExample_consistent blockExample_FunctionContains)
    as [Hsev Hok].
  split.
  - apply Hok. simpl.
    assert (Hnil : users blockExample 100 = []) by (by vm_compute).
    rewrite Hnil. intros u Hu. apply elem_of_nil in Hu. destruct Hu.
  - intros M' He. destruct (Hsev M' He) as (_ & Hb & Hf & Hc).
    split; [|exact (conj Hb Hc)]. rewrite Hf. reflexivity.
Defined.

Lemma BasicBlock_eraseFromParent_leaves_witness :
  exists h',
    BasicBlock_eraseFromParent anyKind anyOperand blockExample 50 = Some h' /\
    UseDefConsistent h' /\
    basicBlockList h' 100 = [51] /\ instList h' 51 = [12] /\
    Parent h' !! 10 = None.
Proof.
  destruct (BasicBlock_eraseFromParent_leaves anyKind anyOperand
              blockExample 50 100 blockExample_consistent)
    as (h' & He & Hc & Hb & _ & _ & _ & Hin & Hfr & _).
  - apply blockExample_Linked.
  - apply (bool_decide_unpack _). vm_compute. reflexivity.
  - vm_compute. reflexivity.
  - apply (bool_decide_unpack _). vm_compute. reflexivity.
  - exists h'. split; [exact He|]. split; [exact Hc|]. split; [|split].
    + rewrite Hb. vm_compute. reflexivity.
    + rewrite (Hfr 51) by discriminate. vm_compute. reflexivity.
    + apply (Hin 10). apply (bool_decide_unpack _). vm_compute. reflexivity.
Defined.

Lemma Instruction_eraseFromParent_dangling_witness :
  exists h',
    Instruction_eraseFromParent anyKind anyOperand blockExample 10 = Some h' /\
    Some 10 ∈ producers h' 12 /\ users h' 10 = [] /\
    ~ UseDefConsistent h'.
Proof.
  apply (Instruction_eraseFromParent_dangling anyKind anyOperand
           blockExample 10 12 50 blockExample_consistent).
  - apply (bool_decide_unpack _). vm_compute. reflexivity.
  - discriminate.
  - vm_compute. reflexivity.
Defined.

(** ** The function-use graph *)

Import Segment.

Lemma popBack_None l : popBack l = None <-> l = [].
Proof.
  unfold popBack. destruct (reverse l) as [|x r] eqn:Hr.
  - split; [|done]. intros _. apply (f_equal reverse) in Hr.
    by rewrite reverse_involutive in Hr.
  - split; [done|]. intros ->. by rewrite reverse_nil in Hr.
Qed.

Lemma popBack_Some l l' x : popBack l = Some (l', x) <-> l = l' ++ [x].
Proof.
  unfold popBack. destruct (reverse l) as [|y r] eqn:Hr.
  - split; [done|]. intros ->. rewrite reverse_snoc in Hr. done.
  - apply (f_equal reverse) in Hr. rewrite reverse_involutive in Hr.
    rewrite reverse_cons in Hr. subst l. split.
    + by intros [= <- <-].
    + intros Heq. apply app_inj_tail in Heq as [-> ->]. done.
Qed.

Lemma elem_of_setVectorInsert wl x y :
  y ∈ setVectorInsert wl x <-> y ∈ wl \/ y = x.
Proof.
  unfold setVectorInsert. case_bool_decide as Hin.
  - split; [by left|]. intros [?| ->]; done.
  - rewrite elem_of_app, list_elem_of_singleton. done.
Qed.

Lemma NoDup_setVectorInsert wl x : NoDup wl -> NoDup (setVectorInsert wl x).
Proof.
  intros Hnd. unfold setVectorInsert. case_bool_decide as Hin; [done|].
  apply NoDup_app. split; [done|]. split; [|apply NoDup_singleton].
  intros y Hy Hyx. apply list_elem_of_singleton in Hyx as ->. done.
Qed.

Lemma elem_of_foldl_setVectorInsert xs wl y :
  y ∈ foldl setVectorInsert wl xs <-> y ∈ wl \/ y ∈ xs.
Proof.
  revert wl. induction xs as [|x xs IH]; intros wl; simpl.
  - split; [by left|]. intros [?|Hn]; [done|]. by apply elem_of_nil in Hn.
  - rewrite IH, elem_of_setVectorInsert, elem_of_cons. tauto.
Qed.

Lemma NoDup_foldl_setVectorInsert xs wl :
  NoDup wl -> NoDup (foldl setVectorInsert wl xs).
Proof.
  revert wl. induction xs as [|x xs IH]; intros wl Hnd; simpl; [done|].
  by apply IH, NoDup_setVectorInsert.
Qed.

(** The loop that fills the worklist, over the indices [is]. *)
Lemma initialWorklist_fold (cjs : list nat) (idx : list nat) (wl : list nat) :
  NoDup wl -> Forall (fun i => i < length cjs) idx ->
  exists wl',
    foldl (fun acc i => wl ← acc; f ← cjs !! i; Some (setVectorInsert wl f))
          (Some wl) idx = Some wl' /\
    NoDup wl' /\
    forall y, y ∈ wl' <-> y ∈ wl \/ exists i, i ∈ idx /\ cjs !! i = Some y.
Proof.
  revert wl. induction idx as [|i idx IH]; intros wl Hnd Hidx.
  - exists wl. split; [done|]. split; [done|]. intros y. split; [by left|].
    intros [?|(i & Hi & _)]; [done|]. by apply elem_of_nil in Hi.
  - apply Forall_cons in Hidx as [Hi Hidx].
    destruct (lookup_lt_is_Some_2 cjs i Hi) as [f Hf].
    destruct (IH (setVectorInsert wl f)) as (wl' & Hfold & Hnd' & Hel);
      [by apply NoDup_setVectorInsert | done |].
    exists wl'. simpl. rewrite Hf. simpl. split; [done|]. split; [done|].
    intros y. rewrite Hel, elem_of_setVectorInsert. split.
    + intros [[?| ->]|(j & Hj & Hy)]; [by left | |].
      * right. exists i. split; [left | done].
      * right. exists j. split; [by right | done].
    + intros [?|(j & Hj & Hy)]; [by left; left|].
      apply elem_of_cons in Hj as [->|Hj].
      * left. right. congruence.
      * right. eauto.
Qed.

Lemma elem_of_wrappers M first last y :
  y ∈ wrappers M first last <->
  exists i, i ∈ seq first (S last - first) /\ cjsModules_ M !! i = Some y.
Proof.
  unfold wrappers. rewrite list_elem_of_lookup. split.
  - intros (k & Hk). apply lookup_take_Some in Hk as [Hk Hlt].
    rewrite lookup_drop in Hk. exists (first + k). split; [|done].
    apply elem_of_seq. lia.
  - intros (i & Hi & Hy). apply elem_of_seq in Hi.
    exists (i - first). rewrite lookup_take_lt by lia.
    rewrite lookup_drop. by replace (first + (i - first)) with i by lia.
Qed.

Lemma initialWorklist_spec M first last :
  (first <= last -> last < length (cjsModules_ M)) ->
  exists wl,
    initialWorklist (cjsModules_ M) first last = Some wl /\
    NoDup wl /\ forall y, y ∈ wl <-> y ∈ wrappers M first last.
Proof.
  intros Hrange.
  destruct (initialWorklist_fold (cjsModules_ M) (seq first (S last - first)) [])
    as (wl & Hfold & Hnd & Hel).
  - constructor.
  - apply Forall_forall. intros i Hi. apply elem_of_seq in Hi. lia.
  - exists wl. split; [done|]. split; [done|]. intros y.
    rewrite Hel, elem_of_wrappers. split; [|by right].
    intros [Hn|?]; [by apply elem_of_nil in Hn | done].
Qed.

Lemma targetsOf_addEdge g k f a :
  targetsOf (addEdge g k f) a =
  if decide (a = k) then {[f]} ∪ targetsOf g k else targetsOf g a.
Proof.
  unfold addEdge, targetsOf at 1. rewrite lookup_insert.
  by destruct (decide (k = a)), (decide (a = k)); subst.
Qed.

Lemma targetsOf_insert_own g k a :
  targetsOf (<[k := targetsOf g k]> g) a = targetsOf g a.
Proof.
  unfold targetsOf at 1. rewrite lookup_insert.
  by destruct (decide (k = a)) as [->|].
Qed.

Lemma targetsOf_empty a : targetsOf ∅ a = ∅.
Proof. unfold targetsOf. by rewrite lookup_empty. Qed.

Lemma addUserEdge_None h f us : foldl (addUserEdge h f) None us = None.
Proof. induction us as [|u us IH]; [done|]. simpl. apply IH. Qed.

Lemma addFunctionEdges_None h fs : foldl (addFunctionEdges h) None fs = None.
Proof.
  induction fs as [|f fs IH]; [done|]. cbn [foldl].
  unfold addFunctionEdges at 2. by rewrite addUserEdge_None.
Qed.

Lemma addUserEdge_step h f g user :
  addUserEdge h f (Some g) user =
  (fun fn => addEdge g fn f) <$> userFunction h user.
Proof.
  unfold addUserEdge, userFunction. simpl.
  destruct (Parent h !! user) as [bb|]; [|done]. simpl.
  by destruct (Parent h !! bb).
Qed.

(** The inner loop of [populateCJSModuleUseGraph]. *)
Lemma addUserEdge_fold h f us g :
  Forall (fun user => is_Some (userFunction h user)) us ->
  exists g',
    foldl (addUserEdge h f) (Some g) us = Some g' /\
    forall a b, b ∈ targetsOf g' a <->
                b ∈ targetsOf g a \/
                (b = f /\ exists user, user ∈ us /\ userFunction h user = Some a).
Proof.
  revert g. induction us as [|u us IH]; intros g Hus.
  - exists g. split; [done|]. intros a b. split; [by left|].
    intros [?|(_ & u & Hu & _)]; [done|]. by apply elem_of_nil in Hu.
  - apply Forall_cons in Hus as [[fn Hfn] Hus].
    destruct (IH (addEdge g fn f) Hus) as (g' & Hfold & Hg').
    exists g'. cbn [foldl]. rewrite addUserEdge_step, Hfn. simpl.
    split; [done|]. intros a b. rewrite Hg', targetsOf_addEdge. split.
    + intros [Hb|(-> & user & Hu & Hp)].
      * destruct (decide (a = fn)) as [->|]; [|by left].
        apply elem_of_union in Hb as [Hb|Hb]; [|by left].
        apply elem_of_singleton in Hb as ->. right. split; [done|].
        exists u. split; [left | done].
      * right. split; [done|]. exists user. split; [by right | done].
    + intros [Hb|(-> & user & Hu & Hp)].
      * left. destruct (decide (a = fn)) as [->|]; [|done].
        apply elem_of_union. by right.
      * apply elem_of_cons in Hu as [->|Hu].
        -- left. rewrite Hfn in Hp. injection Hp as ->.
           rewrite decide_True by done. apply elem_of_union. left.
           by apply elem_of_singleton.
        -- right. split; [done|]. eauto.
Qed.

(** The outer loop of [populateCJSModuleUseGraph]. *)
Lemma addFunctionEdges_fold h fs g :
  Forall (fun f => Forall (fun user => is_Some (userFunction h user))
                          (users h f)) fs ->
  exists g',
    foldl (addFunctionEdges h) (Some g) fs = Some g' /\
    forall a b, b ∈ targetsOf g' a <->
                b ∈ targetsOf g a \/
                (b ∈ fs /\ exists user, user ∈ users h b /\
                                        userFunction h user = Some a).
Proof.
  revert g. induction fs as [|f fs IH]; intros g Hfs.
  - exists g. split; [done|]. intros a b. split; [by left|].
    intros [?|(Hb & _)]; [done|]. by apply elem_of_nil in Hb.
  - apply Forall_cons in Hfs as [Hf Hfs].
    destruct (addUserEdge_fold h f (users h f) g Hf) as (g1 & Hin & Hg1).
    destruct (IH g1 Hfs) as (g' & Hfold & Hg').
    exists g'. cbn [foldl]. unfold addFunctionEdges at 2. rewrite Hin.
    split; [done|]. intros a b. rewrite Hg', Hg1, elem_of_cons. split.
    + intros [[?|(-> & Hu)]|(Hb & Hu)]; [by left | right | right]; eauto.
    + intros [?|([->|Hb] & Hu)]; [by left; left | left; right | right]; eauto.
Qed.

Lemma usesFunction_userFunction M a b :
  usesFunction M a b <->
  b ∈ FunctionList M /\
  exists user, user ∈ users (ir M) b /\ userFunction (ir M) user = Some a.
Proof.
  unfold usesFunction, userFunction. split.
  - intros (Hb & user & bb & Hu & Hp & Hpp). split; [done|].
    exists user. split; [done|]. by rewrite Hp.
  - intros (Hb & user & Hu & Hp). split; [done|].
    destruct (Parent (ir M) !! user) as [bb|] eqn:Hbb; [|done].
    exists user, bb. done.
Qed.

(** [populateCJSModuleUseGraph] leaves a graph whose edges are those that
    the query follows. *)
Lemma populate_spec M :
  (cjsModuleUseGraph_ M = ∅ -> usersPlaced M) ->
  exists M1,
    populateCJSModuleUseGraph M = Some M1 /\
    cjsModules_ M1 = cjsModules_ M /\
    forall a b, graphEdge (cjsModuleUseGraph_ M1) a b <-> edgesFollowed M a b.
Proof.
  intros Hplaced. unfold populateCJSModuleUseGraph, edgesFollowed.
  destruct (decide (cjsModuleUseGraph_ M = ∅)) as [He|Hne].
  - rewrite bool_decide_eq_false_2 by (by intros ?).
    destruct (addFunctionEdges_fold (ir M) (FunctionList M) ∅ (Hplaced He))
      as (g & Hfold & Hg).
    rewrite Hfold. simpl. eexists. split; [done|]. split; [done|].
    intros a b. simpl. unfold graphEdge. rewrite Hg, targetsOf_empty.
    rewrite usesFunction_userFunction. split; [|by right].
    intros [Hn|?]; [by apply not_elem_of_empty in Hn | done].
  - rewrite bool_decide_eq_true_2 by done. by exists M.
Qed.

Lemma NoDup_length_le_size (wl : list nat) (U : gset nat) :
  NoDup wl -> (forall x, x ∈ wl -> x ∈ U) -> length wl <= size U.
Proof.
  intros Hnd Hsub. rewrite <- (size_list_to_set (C := gset nat)) by done.
  apply subseteq_size. intros x Hx. apply elem_of_list_to_set in Hx. auto.
Qed.

Lemma size_difference_visit (U result : gset nat) (cur : nat) :
  cur ∈ U -> cur ∉ result ->
  size (U ∖ ({[cur]} ∪ result)) < size (U ∖ result).
Proof.
  intros HU Hr. apply subset_size. split.
  - intros x. rewrite !elem_of_difference, elem_of_union. tauto.
  - intros Hsup. assert (Hin : cur ∈ U ∖ result) by (by apply elem_of_difference).
    apply Hsup, elem_of_difference in Hin as [_ Hn]. apply Hn.
    apply elem_of_union. left. by apply elem_of_singleton.
Qed.

Lemma measure_decreases (k' k len n : nat) :
  k' < k -> len <= n -> k' * S n + len < k * S n.
Proof.
  intros Hk Hlen.
  assert (S k' * S n <= k * S n) by (apply Nat.mul_le_mono_r; lia).
  simpl in *. lia.
Qed.

Section SearchFacts.

Context (enum : gset nat -> list nat).
Context (Henum : forall s x, x ∈ enum s <-> x ∈ s).

(** The worklist loop returns the functions reachable from the roots. *)
Lemma searchLoop_spec g0 roots U fuel g wl result :
  SearchInv g0 roots U g wl result ->
  size (U ∖ result) * S (size U) + length wl <= fuel ->
  exists result' g',
    searchLoop enum fuel g wl result = Some (result', g') /\
    (forall f, f ∈ result' <-> reachableFrom (graphEdge g0) roots f) /\
    (forall k, targetsOf g' k = targetsOf g0 k).
Proof.
  revert g wl result. induction fuel as [|fuel IH]; intros g wl result Hinv Hm.
  - destruct Hinv as [Hg Hwr Hrr Hroots Hcl Hnd Hwu Hru Htu].
    assert (wl = []) as -> by (apply nil_length_inv; lia).
    exists result, g. split; [done|]. split; [|done].
    intros f. split; [apply Hrr|].
    induction 1 as [r Hr|a b Ha IHa Hab].
    + destruct (Hroots r Hr) as [?|Hn]; [done | by apply elem_of_nil in Hn].
    + destruct (Hcl a b IHa Hab) as [?|Hn]; [done | by apply elem_of_nil in Hn].
  - destruct (popBack wl) as [[wl' cur]|] eqn:Hpop.
    + pose proof (proj1 (popBack_Some _ _ _) Hpop) as Hwl.
      cbn [searchLoop]. rewrite Hpop.
      destruct Hinv as [Hg Hwr Hrr Hroots Hcl Hnd Hwu Hru Htu].
      assert (Hlen : length wl = S (length wl')).
      { rewrite Hwl, length_app. simpl. lia. }
      assert (Hcur : cur ∈ wl) by (rewrite Hwl, elem_of_app; right; left).
      assert (Hsub : forall x, x ∈ wl' -> x ∈ wl).
      { intros x Hx. rewrite Hwl, elem_of_app. by left. }
      assert (Hnd' : NoDup wl').
      { rewrite Hwl in Hnd. by apply NoDup_app in Hnd as [? _]. }
      assert (Hsplit : forall x, x ∈ wl -> x ∈ wl' \/ x = cur).
      { intros x. rewrite Hwl, elem_of_app, list_elem_of_singleton. done. }
      case_bool_decide as Hvis.
      * apply IH; [|lia]. split; try done.
        -- intros x Hx. by apply Hwr, Hsub.
        -- intros r Hr. destruct (Hroots r Hr) as [?|Hin]; [by left|].
           destruct (Hsplit r Hin) as [?| ->]; [by right | by left].
        -- intros a b Ha Hb. destruct (Hcl a b Ha Hb) as [?|Hin]; [by left|].
           destruct (Hsplit b Hin) as [?| ->]; [by right | by left].
        -- intros x Hx. by apply Hwu, Hsub.
      * set (targets := targetsOf g cur).
        assert (Htg : targets = targetsOf g0 cur) by apply Hg.
        assert (Hel : forall y, y ∈ foldl setVectorInsert wl' (enum targets) <->
                                y ∈ wl' \/ y ∈ targetsOf g0 cur).
        { intros y. by rewrite elem_of_foldl_setVectorInsert, Henum, Htg. }
        assert (Hinv' : SearchInv g0 roots U (<[cur := targets]> g)
                          (foldl setVectorInsert wl' (enum targets))
                          ({[cur]} ∪ result)).
        { split.
          - intros k. unfold targets. by rewrite targetsOf_insert_own.
          - intros x Hx. apply Hel in Hx as [Hx|Hx]; [by apply Hwr, Hsub|].
            eapply reach_step; [by apply Hwr | done].
          - intros x Hx. apply elem_of_union in Hx as [Hx|Hx]; [|by apply Hrr].
            apply elem_of_singleton in Hx as ->. by apply Hwr.
          - intros r Hr. destruct (Hroots r Hr) as [?|Hin].
            + left. apply elem_of_union. by right.
            + destruct (Hsplit r Hin) as [?| ->].
              * right. apply Hel. by left.
              * left. apply elem_of_union. left. by apply elem_of_singleton.
          - intros a b Ha Hb. apply elem_of_union in Ha as [Ha|Ha].
            + apply elem_of_singleton in Ha as ->. right. apply Hel. by right.
            + destruct (Hcl a b Ha Hb) as [?|Hin].
              * left. apply elem_of_union. by right.
              * destruct (Hsplit b Hin) as [?| ->].
                -- right. apply Hel. by left.
                -- left. apply elem_of_union. left. by apply elem_of_singleton.
          - by apply NoDup_foldl_setVectorInsert.
          - intros x Hx. apply Hel in Hx as [Hx|Hx]; [by apply Hwu, Hsub|].
            by eapply Htu.
          - intros x Hx. apply elem_of_union in Hx as [Hx|Hx]; [|by apply Hru].
            apply elem_of_singleton in Hx as ->. by apply Hwu.
          - done. }
        apply IH; [done|].
        pose proof (size_difference_visit U result cur (Hwu _ Hcur) Hvis) as Hk.
        pose proof (NoDup_length_le_size _ U (si_nodup _ _ _ _ _ _ Hinv')
                      (si_wl_univ _ _ _ _ _ _ Hinv')) as Hl.
        pose proof (measure_decreases _ _ _ _ Hk Hl). lia.
    + apply popBack_None in Hpop as ->.
      destruct Hinv as [Hg Hwr Hrr Hroots Hcl Hnd Hwu Hru Htu].
      exists result, g. split; [done|]. split; [|done].
      intros f. split; [apply Hrr|].
      induction 1 as [r Hr|a b Ha IHa Hab].
      * destruct (Hroots r Hr) as [?|Hn]; [done | by apply elem_of_nil in Hn].
      * destruct (Hcl a b IHa Hab) as [?|Hn]; [done | by apply elem_of_nil in Hn].
Qed.

End SearchFacts.

Lemma reachableFrom_ext (e1 e2 : nat -> nat -> Prop) (r1 r2 : list nat) f :
  (forall a b, e1 a b <-> e2 a b) -> (forall x, x ∈ r1 <-> x ∈ r2) ->
  reachableFrom e1 r1 f -> reachableFrom e2 r2 f.
Proof.
  intros He Hr. induction 1 as [r Hin|a b Ha IHa Hab].
  - apply reach_root. by apply Hr.
  - eapply reach_step; [done|]. by apply He.
Qed.

Lemma elem_of_universe g wl x :
  x ∈ universe g wl <-> x ∈ wl \/ exists a, x ∈ targetsOf g a.
Proof.
  unfold universe. rewrite elem_of_union, elem_of_list_to_set.
  rewrite elem_of_union_list. split.
  - intros [?|(X & HX & Hx)]; [by left|]. right.
    apply list_elem_of_fmap in HX as ([a s] & -> & Has).
    apply elem_of_map_to_list in Has. exists a. unfold targetsOf.
    by rewrite Has.
  - intros [?|(a & Ha)]; [by left|]. right. unfold targetsOf in Ha.
    destruct (g !! a) as [s|] eqn:Hs; [|by apply not_elem_of_empty in Ha].
    exists s. split; [|done]. apply list_elem_of_fmap. exists (a, s).
    split; [done|]. by apply elem_of_map_to_list.
Qed.

Section SegmentFacts.

Context (enum : gset nat -> list nat).
Context (Henum : forall s x, x ∈ enum s <-> x ∈ s).

(** The query on a module: it returns, and the set returned is the set of
    functions reachable from the wrappers along the edges followed. *)
Lemma getFunctionsInSegment_spec first last M :
  (first <= last -> last < length (cjsModules_ M)) ->
  (cjsModuleUseGraph_ M = ∅ -> usersPlaced M) ->
  exists result M',
    getFunctionsInSegment enum first last M = Some (result, M') /\
    forall f, f ∈ result <->
              reachableFrom (edgesFollowed M) (wrappers M first last) f.
Proof.
  intros Hrange Hplaced.
  destruct (populate_spec M Hplaced) as (M1 & Hpop & Hcjs & Hedges).
  destruct (initialWorklist_spec M first last Hrange) as (wl & Hwl & Hnd & Hel).
  unfold getFunctionsInSegment. rewrite Hpop. cbn [mbind option_bind].
  rewrite Hcjs, Hwl. cbn [mbind option_bind].
  set (g0 := cjsModuleUseGraph_ M1).
  destruct (searchLoop_spec enum Henum g0 wl (universe g0 wl)
              (searchFuel g0 wl) g0 wl ∅) as (result & g' & Hloop & Hres & _).
  - split; try done.
    + intros x Hx. by apply reach_root.
    + intros r Hr. by right.
    + intros x Hx. apply elem_of_universe. by left.
    + intros a b Hb. apply elem_of_universe. right. eauto.
  - unfold searchFuel.
    assert (size (universe g0 wl ∖ ∅) <= size (universe g0 wl))
      by (apply subseteq_size; intros x Hx; by apply elem_of_difference in Hx as [? _]).
    assert (length wl <= size (universe g0 wl)).
    { apply NoDup_length_le_size; [done|]. intros x Hx.
      apply elem_of_universe. by left. }
    assert (size (universe g0 wl ∖ ∅) * S (size (universe g0 wl))
            <= size (universe g0 wl) * S (size (universe g0 wl)))
      by (by apply Nat.mul_le_mono_r).
    simpl. lia.
  - rewrite Hloop. cbn [mbind option_bind]. eexists _, _. split; [done|].
    intros f. rewrite Hres. split; apply reachableFrom_ext; try done.
Qed.

End SegmentFacts.

(** C6, as amended.  A query follows the edges of the cached graph when
    there is one, and the edges of the IR (from the function that holds a
    user of [f], to [f]) on a module without cached graph.  It returns
    exactly the functions reachable along those edges from the wrapper
    functions of the modules [first .. last], whatever the order in which
    sets are iterated. *)
Theorem getFunctionsInSegment_reachable
    (enum : gset nat -> list nat) (first last : nat) (M : ModuleState) :
  (forall s x, x ∈ enum s <-> x ∈ s) ->
  (first <= last -> last < length (cjsModules_ M)) ->
  (cjsModuleUseGraph_ M = ∅ -> usersPlaced M) ->
  exists result M',
    getFunctionsInSegment enum first last M = Some (result, M') /\
    (forall f, f ∈ result <->
               reachableFrom (edgesFollowed M) (wrappers M first last) f) /\
    (cjsModuleUseGraph_ M = ∅ ->
     forall f, f ∈ result <->
               reachableFrom (usesFunction M) (wrappers M first last) f) /\
    (forall enum' : gset nat -> list nat,
        (forall s x, x ∈ enum' s <-> x ∈ s) ->
        exists M'', getFunctionsInSegment enum' first last M = Some (result, M'')).
Proof.
  intros Henum Hrange Hplaced.
  destruct (getFunctionsInSegment_spec enum Henum first last M Hrange Hplaced)
    as (result & M' & Hget & Hres).
  exists result, M'. split; [done|]. split; [done|]. split.
  - intros He f. rewrite Hres.
    split; apply reachableFrom_ext; try done; intros a b;
      unfold edgesFollowed; by rewrite decide_True.
  - intros enum' Henum'.
    destruct (getFunctionsInSegment_spec enum' Henum' first last M Hrange Hplaced)
      as (result' & M'' & Hget' & Hres').
    exists M''. rewrite Hget'. do 2 f_equal.
    apply set_eq. intros f. by rewrite Hres, Hres'.
Qed.

(** *** The examples *)

Import SegmentExamples.

(** The scenario of the specification on a module without cached graph. *)
Example segment_scenario :
  fst <$> getFunctionsInSegment elements 0 0 segmentModule =
    Some ({[100; 101; 102]} : gset nat) /\
  fst <$> getFunctionsInSegment elements 3 3 segmentModule =
    Some ({[103]} : gset nat).
Proof. split; by vm_compute. Qed.

Lemma getFunctionsInSegment_reachable_witness :
  exists result M',
    getFunctionsInSegment elements 0 0 segmentModule = Some (result, M') /\
    forall f, f ∈ result <->
              reachableFrom (usesFunction segmentModule)
                (wrappers segmentModule 0 0) f.
Proof.
  destruct (getFunctionsInSegment_reachable elements 0 0 segmentModule)
    as (result & M' & Hget & _ & Hres & _).
  - intros s x. apply elem_of_elements.
  - intros _. simpl. lia.
  - intros _. unfold usersPlaced. apply (bool_decide_unpack _). by vm_compute.
  - exists result, M'. split; [done|]. by apply Hres.
Defined.

(** C6 as stated fails on a module whose cached graph is out of date: after
    a first query, [w0] is made to use [w3]; the next query for the segment
    [0 .. 0] follows the cached graph and does not return [w3], which the
    function-use graph of the IR reaches from [w0]. *)
Lemma getFunctionsInSegment_stale_cache :
  exists result M',
    getFunctionsInSegment elements 0 0 staleModule = Some (result, M') /\
    reachableFrom (usesFunction staleModule) (wrappers staleModule 0 0) 103 /\
    103 ∉ result.
Proof.
  eexists _, _. split; [by vm_compute|]. split.
  - apply (reach_step _ _ 100 103).
    + apply reach_root. by vm_compute; left.
    + split; [by vm_compute; do 3 right; left|].
      exists 10, 50. split_and!; [by vm_compute; left | by vm_compute..].
  - apply (bool_decide_unpack _). by vm_compute.
Qed.

(** ** The segment query: the cache and the range *)

Lemma reachableFrom_app (edge : nat -> nat -> Prop) (r1 r2 : list nat) f :
  reachableFrom edge (r1 ++ r2) f <->
  reachableFrom edge r1 f \/ reachableFrom edge r2 f.
Proof.
  split.
  - induction 1 as [r Hr|a b Ha IHa Hab].
    + apply elem_of_app in Hr as [Hr|Hr];
        [left | right]; by apply reach_root.
    + destruct IHa as [IHa|IHa]; [left | right]; by eapply reach_step.
  - intros [H|H].
    + induction H as [r Hr|a b Ha IHa Hab].
      * apply reach_root, elem_of_app. by left.
      * by eapply reach_step.
    + induction H as [r Hr|a b Ha IHa Hab].
      * apply reach_root, elem_of_app. by right.
      * by eapply reach_step.
Qed.

Lemma initialWorklist_fold_None (cjs : list nat) (idx : list nat) :
  foldl (fun acc i => wl ← acc; f ← cjs !! i; Some (setVectorInsert wl f))
        None idx = None.
Proof. induction idx as [|i idx IH]; [done|]. simpl. apply IH. Qed.

Lemma initialWorklist_fold_NoDup (cjs : list nat) (idx : list nat) wl0 wl :
  foldl (fun acc i => wl ← acc; f ← cjs !! i; Some (setVectorInsert wl f))
        (Some wl0) idx = Some wl ->
  NoDup wl0 -> NoDup wl.
Proof.
  revert wl0. induction idx as [|i idx IH]; intros wl0; simpl.
  - by intros [= <-].
  - destruct (cjs !! i) as [f|]; simpl.
    + intros Hfold Hnd. apply (IH _ Hfold). by apply NoDup_setVectorInsert.
    + by rewrite initialWorklist_fold_None.
Qed.

Lemma initialWorklist_NoDup cjs first last wl :
  initialWorklist cjs first last = Some wl -> NoDup wl.
Proof.
  intros Hwl. eapply initialWorklist_fold_NoDup; [exact Hwl|constructor].
Qed.

Section SegmentMore.

Context (enum : gset nat -> list nat).
Context (Henum : forall s x, x ∈ enum s <-> x ∈ s).

(** The worklist loop, started on a worklist without repetitions with the
    fuel that the query gives it. *)
Lemma search_from g wl :
  NoDup wl ->
  exists result g',
    searchLoop enum (searchFuel g wl) g wl ∅ = Some (result, g') /\
    (forall f, f ∈ result <-> reachableFrom (graphEdge g) wl f) /\
    (forall k, targetsOf g' k = targetsOf g k).
Proof.
  intros Hnd.
  apply (searchLoop_spec enum Henum g wl (universe g wl)).
  - split; try done.
    + intros x Hx. by apply reach_root.
    + intros r Hr. by right.
    + intros x Hx. apply elem_of_universe. by left.
    + intros a b Hb. apply elem_of_universe. right. eauto.
  - unfold searchFuel.
    assert (size (universe g wl ∖ ∅) <= size (universe g wl))
      by (apply subseteq_size; intros x Hx; by apply elem_of_difference in Hx as [? _]).
    assert (length wl <= size (universe g wl)).
    { apply NoDup_length_le_size; [done|]. intros x Hx.
      apply elem_of_universe. by left. }
    assert (size (universe g wl ∖ ∅) * S (size (universe g wl))
            <= size (universe g wl) * S (size (universe g wl)))
      by (by apply Nat.mul_le_mono_r).
    simpl. lia.
Qed.

(** The loop only adds entries to the graph. *)
Lemma searchLoop_nonempty fuel g wl result result' g' :
  searchLoop enum fuel g wl result = Some (result', g') -> g <> ∅ -> g' <> ∅.
Proof.
  revert g wl result.
  induction fuel as [|fuel IH]; intros g wl result; cbn [searchLoop].
  - destruct (popBack wl) as [[wl' cur]|]; [done|]. by intros [= <- <-].
  - destruct (popBack wl) as [[wl' cur]|]; [|by intros [= <- <-]].
    case_bool_decide.
    + apply IH.
    + intros Hs _. eapply IH; [exact Hs|]. apply insert_non_empty.
Qed.

(** X17. The cache does not change the answers while the IR stays as it
    is: the module that a query returns answers every query, for whatever
    range, as the module on which the query was made. *)
Theorem getFunctionsInSegment_requery (first last first' last' : nat)
    (M M' : ModuleState) (result : gset nat) :
  getFunctionsInSegment enum first last M = Some (result, M') ->
  fst <$> getFunctionsInSegment enum first' last' M' =
  fst <$> getFunctionsInSegment enum first' last' M.
Proof.
  intros Hq. unfold getFunctionsInSegment in Hq.
  destruct (populateCJSModuleUseGraph M) as [M1|] eqn:Hpop; [|done].
  cbn [mbind option_bind] in Hq.
  destruct (initialWorklist (cjsModules_ M1) first last) as [wl|] eqn:Hwl;
    [|done].
  cbn [mbind option_bind] in Hq.
  destruct (searchLoop enum (searchFuel (cjsModuleUseGraph_ M1) wl)
              (cjsModuleUseGraph_ M1) wl ∅) as [[r g']|] eqn:Hloop; [|done].
  cbn [mbind option_bind] in Hq. injection Hq as <- <-.
  destruct (search_from (cjsModuleUseGraph_ M1) wl
              (initialWorklist_NoDup _ _ _ _ Hwl)) as (r0 & g0 & Hs & _ & Htg).
  rewrite Hloop in Hs. injection Hs as <- <-.
  assert (Hpop' : exists M1',
            populateCJSModuleUseGraph (setGraph M1 g') = Some M1' /\
            cjsModules_ M1' = cjsModules_ M1 /\
            forall k, targetsOf (cjsModuleUseGraph_ M1') k =
                      targetsOf (cjsModuleUseGraph_ M1) k).
  { unfold populateCJSModuleUseGraph. cbn [cjsModuleUseGraph_ setGraph].
    destruct (decide (g' = ∅)) as [He|Hne].
    - rewrite bool_decide_eq_false_2 by (by intros ?).
      assert (He1 : cjsModuleUseGraph_ M1 = ∅).
      { destruct (decide (cjsModuleUseGraph_ M1 = ∅)) as [|Hne1]; [done|].
        by destruct (searchLoop_nonempty _ _ _ _ _ _ Hloop Hne1). }
      unfold populateCJSModuleUseGraph in Hpop.
      destruct (decide (cjsModuleUseGraph_ M = ∅)) as [HeM|HneM].
      + rewrite bool_decide_eq_false_2 in Hpop by (by intros ?).
        destruct (foldl (addFunctionEdges (ir M)) (Some ∅) (FunctionList M))
          as [g1|] eqn:Hfold; [|done].
        cbn [mbind option_bind] in Hpop. injection Hpop as <-.
        cbn [ir FunctionList setGraph]. rewrite Hfold.
        cbn [mbind option_bind]. eexists. split; [done|]. done.
      + rewrite bool_decide_eq_true_2 in Hpop by done.
        injection Hpop as <-. done.
    - rewrite bool_decide_eq_true_2 by done.
      eexists. split; [done|]. split; [done|]. exact Htg. }
  destruct Hpop' as (M1' & Hp' & Hcjs & Htg').
  unfold getFunctionsInSegment. rewrite Hp', Hpop.
  cbn [mbind option_bind]. rewrite Hcjs.
  destruct (initialWorklist (cjsModules_ M1) first' last') as [wl2|] eqn:Hwl2;
    [|done].
  cbn [mbind option_bind].
  pose proof (initialWorklist_NoDup _ _ _ _ Hwl2) as Hnd2.
  destruct (search_from (cjsModuleUseGraph_ M1') wl2 Hnd2)
    as (ra & ga & Hsa & Hra & _).
  destruct (search_from (cjsModuleUseGraph_ M1) wl2 Hnd2)
    as (rb & gb & Hsb & Hrb & _).
  rewrite Hsa, Hsb. cbn [mbind option_bind fmap option_fmap option_map fst].
  f_equal. apply set_eq. intros f. rewrite Hra, Hrb.
  split; apply reachableFrom_ext; try done; intros a b; unfold graphEdge;
    by rewrite Htg'.
Qed.

(** X18. A range can be queried in two parts: for [first <= mid + 1] and
    [mid <= last], with [last] an index of [cjsModules_], the functions of
    the segment [first .. last] are those of the segment [first .. mid]
    together with those of the segment [mid + 1 .. last]; all three queries
    return. *)
Theorem getFunctionsInSegment_split (first mid last : nat) (M : ModuleState) :
  first <= S mid -> mid <= last -> last < length (cjsModules_ M) ->
  (cjsModuleUseGraph_ M = ∅ -> usersPlaced M) ->
  exists r r1 r2 Ma Mb Mc,
    getFunctionsInSegment enum first last M = Some (r, Ma) /\
    getFunctionsInSegment enum first mid M = Some (r1, Mb) /\
    getFunctionsInSegment enum (S mid) last M = Some (r2, Mc) /\
    r = r1 ∪ r2.
Proof.
  intros H1 H2 H3 Hplaced.
  destruct (getFunctionsInSegment_spec enum Henum first last M)
    as (r & Ma & Hq & Hr); [lia|done|].
  destruct (getFunctionsInSegment_spec enum Henum first mid M)
    as (r1 & Mb & Hq1 & Hr1); [lia|done|].
  destruct (getFunctionsInSegment_spec enum Henum (S mid) last M)
    as (r2 & Mc & Hq2 & Hr2); [lia|done|].
  exists r, r1, r2, Ma, Mb, Mc. split_and!; try done.
  assert (Hroots : forall y,
            y ∈ wrappers M first last <->
            y ∈ wrappers M first mid ++ wrappers M (S mid) last).
  { intros y. rewrite elem_of_app, !elem_of_wrappers. split.
    - intros (i & Hi & Hy). apply elem_of_seq in Hi.
      destruct (decide (i <= mid)).
      + left. exists i. split; [|done]. apply elem_of_seq. lia.
      + right. exists i. split; [|done]. apply elem_of_seq. lia.
    - intros [(i & Hi & Hy)|(i & Hi & Hy)]; apply elem_of_seq in Hi;
        exists i; (split; [|done]); apply elem_of_seq; lia. }
  apply set_eq. intros f.
  rewrite elem_of_union, Hr, Hr1, Hr2, <- reachableFrom_app.
  split; apply reachableFrom_ext; try done; intros y; by rewrite Hroots.
Qed.

End SegmentMore.

Lemma getFunctionsInSegment_requery_witness :
  exists result M',
    getFunctionsInSegment elements 0 0 segmentModule = Some (result, M') /\
    fst <$> getFunctionsInSegment elements 1 3 M' =
    fst <$> getFunctionsInSegment elements 1 3 segmentModule.
Proof.
  destruct (getFunctionsInSegment elements 0 0 segmentModule)
    as [[result M']|] eqn:Hq; [|vm_compute in Hq; discriminate Hq].
  exists result, M'. split; [reflexivity|].
  exact (getFunctionsInSegment_requery elements
           (fun s x => elem_of_elements s x) 0 0 1 3 segmentModule M' result Hq).
Defined.

Lemma getFunctionsInSegment_split_witness :
  exists r r1 r2 Ma Mb Mc,
    getFunctionsInSegment elements 0 3 segmentModule = Some (r, Ma) /\
    getFunctionsInSegment elements 0 1 segmentModule = Some (r1, Mb) /\
    getFunctionsInSegment elements 2 3 segmentModule = Some (r2, Mc) /\
    r = r1 ∪ r2.
Proof.
  apply (getFunctionsInSegment_split elements
           (fun s x => elem_of_elements s x) 0 1 3 segmentModule).
  - lia.
  - lia.
  - simpl. lia.
  - intros _. unfold usersPlaced. apply (bool_decide_unpack _).
    vm_compute. reflexivity.
Defined.

(** ** Global properties and parameters *)

Import Globals.

Lemma getLiteralString_next s M :
  nextObject M <= nextObject (getLiteralString s M).2.
Proof.
  unfold getLiteralString.
  destruct (literalStrings M !! profileString s); simpl; lia.
Qed.

Lemma delete_filter_ne (l : list nat) k p :
  NoDup l -> l !! k = Some p -> delete k l = filter (fun x => x <> p) l.
Proof.
  intros Hnd Hk. rewrite delete_take_drop.
  rewrite <- (take_drop_middle l k p Hk) in Hnd |- * at 3.
  apply NoDup_app in Hnd as (_ & Hl & Hr).
  apply NoDup_cons in Hr as [Hr _].
  rewrite filter_app, filter_cons, decide_False by (intros Hne; by apply Hne).
  rewrite !filter_all; [done| |].
  - intros x Hx ->. done.
  - intros x Hx ->. apply (Hl p Hx). left.
Qed.

(** One registration on a coherent registry. *)
Lemma addGlobalProperty_spec name d G :
  GlobalsOk G ->
  exists p G',
    addGlobalProperty name d G = Some (p, G') /\
    findGlobalProperty name G' = Some p /\
    (forall n, n <> name -> findGlobalProperty n G' = findGlobalProperty n G) /\
    (forall q, findGlobalProperty name G = Some q ->
               p = q /\ globalPropertyList_ G' = globalPropertyList_ G) /\
    (findGlobalProperty name G = None ->
       (p ∉ globalPropertyList_ G) /\
       globalPropertyList_ G' = globalPropertyList_ G ++ [p]) /\
    isDeclared G' p = (isDeclared G p || d) /\
    (forall q, q <> p -> isDeclared G' q = isDeclared G q) /\
    GlobalsOk G'.
Proof.
  intros [Hmap Hlist Hnd Hfresh].
  unfold addGlobalProperty, findGlobalProperty.
  destruct (globalPropertyMap_ G !! name) as [ref|] eqn:Hname.
  - destruct (Hmap name ref Hname) as (o & Ho & Hon).
    rewrite Ho. cbn [mbind option_bind].
    eexists _, _. split; [done|]. cbn [globalPropertyMap_ globalPropertyList_].
    split_and!; try done.
    + by intros q [= <-].
    + unfold isDeclared. cbn [properties].
      by rewrite lookup_insert_eq, Ho.
    + intros q Hq. unfold isDeclared. cbn [properties].
      by rewrite lookup_insert_ne.
    + split; cbn [globalPropertyMap_ globalPropertyList_ properties literals];
        try done.
      * intros name' p Hp. destruct (decide (p = ref)) as [->|Hne].
        -- rewrite lookup_insert_eq. eexists. split; [done|]. simpl.
           destruct (Hmap name' ref Hp) as (o' & Ho' & Hon').
           congruence.
        -- rewrite lookup_insert_ne by done. by apply Hmap.
      * intros p. rewrite lookup_insert_is_Some. intros [<-|[_ Hp]].
        -- apply Hfresh. by rewrite Ho.
        -- by apply Hfresh.
  - pose proof (getLiteralString_next name (literals G)) as Hnext.
    destruct (getLiteralString name (literals G)) as [LS T] eqn:HLS.
    cbn [snd] in Hnext.
    assert (Hnew : properties G !! nextObject T = None).
    { destruct (properties G !! nextObject T) as [o|] eqn:Ho; [|done].
      assert (Hlt : nextObject T < nextObject (literals G))
        by (apply Hfresh; by rewrite Ho).
      lia. }
    assert (Hnotin : nextObject T ∉ globalPropertyList_ G).
    { intros Hin. apply Hlist in Hin as [name' Hn'].
      destruct (Hmap name' _ Hn') as (o & Ho & _). by rewrite Hnew in Ho. }
    eexists _, _. split; [done|]. cbn [globalPropertyMap_ globalPropertyList_].
    split_and!.
    + apply lookup_insert_eq.
    + intros n Hn. by rewrite lookup_insert_ne.
    + done.
    + done.
    + unfold isDeclared. cbn [properties].
      by rewrite lookup_insert_eq, Hnew.
    + intros q Hq. unfold isDeclared. cbn [properties].
      by rewrite lookup_insert_ne.
    + split; cbn [globalPropertyMap_ globalPropertyList_ properties literals
                  nextObject].
      * intros name' p Hp. apply lookup_insert_Some in Hp as [[<- <-]|[Hne Hp]].
        -- rewrite lookup_insert_eq. by eexists.
        -- destruct (Hmap name' p Hp) as (o & Ho & Hon).
           exists o. split; [|done]. rewrite lookup_insert_ne; [done|].
           intros <-. by rewrite Hnew in Ho.
      * intros p. rewrite elem_of_app, list_elem_of_singleton, Hlist. split.
        -- intros [[name' Hn']| ->].
           ++ exists name'. rewrite lookup_insert_ne; [done|].
              intros <-. by rewrite Hname in Hn'.
           ++ exists name. apply lookup_insert_eq.
        -- intros [name' Hn'].
           apply lookup_insert_Some in Hn' as [[<- <-]|[Hne Hp]];
             [by right | left; eauto].
      * apply NoDup_app. split; [done|]. split; [|apply NoDup_singleton].
        intros x Hx Hx'. apply list_elem_of_singleton in Hx' as ->. done.
      * intros p. rewrite lookup_insert_is_Some. intros [<-|[_ Hp]]; [lia|].
        apply Hfresh in Hp. lia.
Qed.

(** X21. [addGlobalProperty(name, declared)] on a coherent registry
    returns a property that [findGlobalProperty(name)] finds from then on;
    the other names are found as before.  A name that is registered already
    gets its existing property and the list is unchanged; a new name gets a
    new object, appended at the end of the list.  The registry stays
    coherent. *)
Theorem addGlobalProperty_registers (name : string) (d : bool)
    (G : GlobalState) :
  GlobalsOk G ->
  exists p G',
    addGlobalProperty name d G = Some (p, G') /\
    findGlobalProperty name G' = Some p /\
    (forall n, n <> name -> findGlobalProperty n G' = findGlobalProperty n G) /\
    (forall q, findGlobalProperty name G = Some q ->
               p = q /\ globalPropertyList_ G' = globalPropertyList_ G) /\
    (findGlobalProperty name G = None ->
       (p ∉ globalPropertyList_ G) /\
       globalPropertyList_ G' = globalPropertyList_ G ++ [p]) /\
    GlobalsOk G'.
Proof.
  intros HG.
  destruct (addGlobalProperty_spec name d G HG)
    as (p & G' & Hadd & Hfind & Hframe & Hold & Hnew & _ & _ & HG').
  by exists p, G'.
Qed.

(** A sequence of registrations on a coherent registry that knows [name]. *)
Lemma addGlobalProperties_spec rs name p G G2 :
  GlobalsOk G -> findGlobalProperty name G = Some p ->
  addGlobalProperties rs G = Some G2 ->
  findGlobalProperty name G2 = Some p /\
  isDeclared G2 p =
    (isDeclared G p ||
     existsb (fun r : string * bool => bool_decide (r.1 = name) && r.2) rs) /\
  GlobalsOk G2.
Proof.
  revert G. induction rs as [|[n dn] rs IH]; intros G HG Hfind; simpl.
  - intros [= <-]. by rewrite orb_false_r.
  - destruct (addGlobalProperty_spec n dn G HG)
      as (q & G' & Hadd & Hfq & Hframe & Hold & _ & Hflag & Hflags & HG').
    rewrite Hadd. cbn [mbind option_bind]. intros Hrest.
    destruct (decide (n = name)) as [->|Hne].
    + destruct (Hold p Hfind) as [-> _].
      destruct (IH G' HG' Hfq Hrest) as (H1 & H2 & H3).
      split; [done|]. split; [|done].
      rewrite H2, Hflag, bool_decide_eq_true_2 by done. simpl.
      by rewrite orb_assoc.
    + assert (Hfp : findGlobalProperty name G' = Some p).
      { by rewrite Hframe by done. }
      assert (Hqp : p <> q).
      { intros ->. destruct (go_map _ HG' n q Hfq) as (o1 & Ho1 & Hn1).
        destruct (go_map _ HG' name q Hfp) as (o2 & Ho2 & Hn2).
        congruence. }
      destruct (IH G' HG' Hfp Hrest) as (H1 & H2 & H3).
      split; [done|]. split; [|done].
      rewrite H2, (Hflags p Hqp), bool_decide_eq_false_2 by done. done.
Qed.

(** X22. The declared flag of a global property is the OR of all its
    registrations: after [addGlobalProperty(name, d)] and any sequence of
    later registrations, [name] still has the same property object, and its
    flag is set exactly when it was set before, or [d] is true, or one of
    the later registrations of [name] is a declaration.  A later
    registration with [false] does not clear it. *)
Theorem addGlobalProperty_declared_or (name : string) (d : bool)
    (rs : list (string * bool)) (G G1 G2 : GlobalState) (p : nat) :
  GlobalsOk G -> addGlobalProperty name d G = Some (p, G1) ->
  addGlobalProperties rs G1 = Some G2 ->
  findGlobalProperty name G2 = Some p /\
  isDeclared G2 p =
    (isDeclared G p || d ||
     existsb (fun r : string * bool => bool_decide (r.1 = name) && r.2) rs).
Proof.
  intros HG Hadd Hrs.
  destruct (addGlobalProperty_spec name d G HG)
    as (p' & G' & Hadd' & Hfind & _ & _ & _ & Hflag & _ & HG').
  rewrite Hadd in Hadd'. injection Hadd' as <- <-.
  destruct (addGlobalProperties_spec rs name p G1 G2 HG' Hfind Hrs)
    as (H1 & H2 & _).
  split; [done|]. by rewrite H2, Hflag.
Qed.

(** X23. [eraseGlobalProperty(p)] for the property registered under
    [name] in a coherent registry: the call returns, [name] is no longer
    found, the other names are found as before, the list keeps the other
    properties in their order, the property object is gone, and the
    registry stays coherent. *)
Theorem eraseGlobalProperty_unregisters (name : string) (p : nat)
    (G : GlobalState) :
  GlobalsOk G -> findGlobalProperty name G = Some p ->
  exists G',
    eraseGlobalProperty p G = Some G' /\
    findGlobalProperty name G' = None /\
    (forall n, n <> name -> findGlobalProperty n G' = findGlobalProperty n G) /\
    globalPropertyList_ G' = filter (fun x => x <> p) (globalPropertyList_ G) /\
    properties G' !! p = None /\
    GlobalsOk G'.
Proof.
  intros [Hmap Hlist Hnd Hfresh] Hfind. unfold findGlobalProperty in *.
  destruct (Hmap name p Hfind) as (o & Ho & Hon).
  assert (Hin : p ∈ globalPropertyList_ G) by (apply Hlist; eauto).
  apply list_elem_of_lookup in Hin as [k0 Hk0].
  destruct (findFirst_exists (fun x => x = p) (globalPropertyList_ G) k0 p
              Hk0 eq_refl) as (k & Hfirst & _).
  pose proof Hfirst as Hk.
  apply findFirst_Some in Hk as (y & Hk & -> & _).
  unfold eraseGlobalProperty. rewrite Ho. cbn [mbind option_bind].
  rewrite Hfirst, Hon.
  assert (Hdel : delete k (globalPropertyList_ G) =
                 filter (fun x => x <> p) (globalPropertyList_ G)).
  { by apply delete_filter_ne. }
  assert (Hother : forall n q, n <> name ->
            globalPropertyMap_ G !! n = Some q -> q <> p).
  { intros n q Hn Hq ->. destruct (Hmap n p Hq) as (o' & Ho' & Hon').
    congruence. }
  eexists. split; [done|].
  cbn [globalPropertyMap_ globalPropertyList_ properties].
  split_and!.
  - apply lookup_delete_eq.
  - intros n Hn. by rewrite lookup_delete_ne.
  - done.
  - apply lookup_delete_eq.
  - split; cbn [globalPropertyMap_ globalPropertyList_ properties literals].
    + intros n q Hq. apply lookup_delete_Some in Hq as [Hn Hq].
      destruct (Hmap n q Hq) as (o' & Ho' & Hon').
      exists o'. split; [|done]. rewrite lookup_delete_ne; [done|].
      intros <-. by apply (Hother n p).
    + intros q. rewrite Hdel, list_elem_of_filter, Hlist. split.
      * intros [Hq [n Hn]]. exists n. rewrite lookup_delete_ne; [done|].
        intros <-. congruence.
      * intros [n Hn]. apply lookup_delete_Some in Hn as [Hne Hn].
        split; [by apply (Hother n)|eauto].
    + rewrite Hdel. by apply NoDup_filter.
    + intros q [o' Hq]. apply lookup_delete_Some in Hq as [_ Hq].
      apply Hfresh. by rewrite Hq.
Qed.

Lemma findFirst_app_l {A} (P : A -> Prop) `{!forall x, Decision (P x)}
    (l l' : list A) i :
  findFirst P l = Some i -> findFirst P (l ++ l') = Some i.
Proof.
  intros Hf. apply findFirst_Some in Hf as (x & Hx & HP & Hmin).
  apply findFirst_Some. exists x. split_and!; [|done|].
  - by apply lookup_app_l_Some.
  - intros j y Hy Hj. apply (Hmin j y); [|done].
    rewrite lookup_app_l in Hy; [done|]. apply lookup_lt_Some in Hx. lia.
Qed.

(** X24. Constructing a parameter [p] that is not yet in the parameter
    list of its function.  Under any name but ["this"] the parameter is
    appended, so [getIndexInParamList] gives the former length of the list,
    and the this-parameter stays.  Under the name ["this"] it becomes the
    this-parameter and is not in the list: [getIndexInParamList] of it runs
    into its [llvm_unreachable].  The parameters that were in the list keep
    their index. *)
Theorem Parameter_new_index (F : FunctionParams) (p : nat) (name : string) :
  p ∉ Parameters F ->
  (name <> "this" ->
     getIndexInParamList (Parameter_new F p name) p
       = Some (length (Parameters F)) /\
     thisParameter (Parameter_new F p name) = thisParameter F) /\
  (name = "this" ->
     getIndexInParamList (Parameter_new F p name) p = None /\
     isThisParameter (Parameter_new F p name) p = true) /\
  (forall q, q ∈ Parameters F ->
     exists i, getIndexInParamList F q = Some i /\
               getIndexInParamList (Parameter_new F p name) q = Some i /\
               Parameters F !! i = Some q).
Proof.
  intros Hp. unfold Parameter_new, getIndexInParamList, isThisParameter.
  split_and!.
  - intros Hn. rewrite bool_decide_eq_false_2 by done.
    cbn [Parameters thisParameter]. split; [|done].
    apply findFirst_Some. exists p. split_and!; [|done|].
    + rewrite lookup_app_r by lia. by rewrite Nat.sub_diag.
    + intros j y Hy Hj ->. rewrite lookup_app_l in Hy by done.
      apply Hp. apply list_elem_of_lookup. eauto.
  - intros ->. rewrite bool_decide_eq_true_2 by done.
    cbn [Parameters thisParameter]. split.
    + apply findFirst_None, Forall_forall. intros y Hy ->. done.
    + by rewrite bool_decide_eq_true_2.
  - intros q Hq. apply list_elem_of_lookup in Hq as [k Hk].
    destruct (findFirst_exists (fun P => P = q) (Parameters F) k q Hk eq_refl)
      as (i & Hi & _).
    exists i. split; [done|]. split.
    + case_bool_decide; cbn [Parameters]; [done|]. by apply findFirst_app_l.
    + by apply findFirst_Some in Hi as (y & Hy & -> & _).
Qed.

(** *** Examples *)

Import GlobalExamples.

Lemma GlobalsOk_noGlobals : GlobalsOk noGlobals.
Proof.
  split; simpl.
  - intros name p Hp. by rewrite lookup_empty in Hp.
  - intros p. split.
    + intros Hp. by apply elem_of_nil in Hp.
    + intros [name Hp]. by rewrite lookup_empty in Hp.
  - constructor.
  - intros p [o Hp]. by rewrite lookup_empty in Hp.
Qed.

Lemma addGlobalProperty_registers_witness :
  exists p G',
    addGlobalProperty "x" true noGlobals = Some (p, G') /\
    findGlobalProperty "x" G' = Some p /\
    globalPropertyList_ G' = [p].
Proof.
  destruct (addGlobalProperty_registers "x" true noGlobals GlobalsOk_noGlobals)
    as (p & G' & Hadd & Hfind & _ & _ & Hnew & _).
  exists p, G'. split; [exact Hadd|]. split; [exact Hfind|].
  exact (proj2 (Hnew eq_refl)).
Defined.

Lemma addGlobalProperty_declared_or_witness :
  addGlobalProperty "x" false noGlobals = Some (3, xRegistered) /\
  addGlobalProperties laterRegistrations xRegistered = Some xyRegistered /\
  findGlobalProperty "x" xyRegistered = Some 3 /\
  isDeclared xRegistered 3 = false /\ isDeclared xyRegistered 3 = true.
Proof.
  assert (H1 : addGlobalProperty "x" false noGlobals = Some (3, xRegistered)).
  { vm_compute. reflexivity. }
  assert (H2 : addGlobalProperties laterRegistrations xRegistered
               = Some xyRegistered).
  { vm_compute. reflexivity. }
  destruct (addGlobalProperty_declared_or "x" false laterRegistrations
              noGlobals xRegistered xyRegistered 3 GlobalsOk_noGlobals H1 H2)
    as [Hfind Hflag].
  split; [exact H1|]. split; [exact H2|]. split; [exact Hfind|].
  split; [reflexivity|]. rewrite Hflag. reflexivity.
Defined.

Lemma eraseGlobalProperty_unregisters_witness :
  exists G',
    eraseGlobalProperty 3 xyRegistered = Some G' /\
    findGlobalProperty "x" G' = None /\
    globalPropertyList_ G' = [5].
Proof.
  assert (Hok : GlobalsOk xyRegistered).
  { assert (H1 : addGlobalProperty "x" false noGlobals = Some (3, xRegistered)).
    { vm_compute. reflexivity. }
    assert (H2 : addGlobalProperties laterRegistrations xRegistered
                 = Some xyRegistered).
    { vm_compute. reflexivity. }
    destruct (addGlobalProperty_spec "x" false noGlobals GlobalsOk_noGlobals)
      as (p & G' & Hadd & Hfind & _ & _ & _ & _ & _ & HG').
    rewrite H1 in Hadd. injection Hadd as <- <-.
    by destruct (addGlobalProperties_spec laterRegistrations "x" 3
                   xRegistered xyRegistered HG' Hfind H2) as (_ & _ & ?). }
  destruct (eraseGlobalProperty_unregisters "x" 3 xyRegistered Hok)
    as (G' & He & Hfind & _ & Hl & _); [reflexivity|].
  exists G'. split; [exact He|]. split; [exact Hfind|].
  rewrite Hl. reflexivity.
Defined.

Lemma Parameter_new_index_witness :
  getIndexInParamList (Parameter_new (mkFunctionParams [5; 6] None) 7 "x") 7
    = Some 2 /\
  getIndexInParamList (Parameter_new (mkFunctionParams [5; 6] None) 7 "this") 7
    = None.
Proof.
  split.
  - apply (Parameter_new_index (mkFunctionParams [5; 6] None) 7 "x").
    + apply (bool_decide_unpack _). reflexivity.
    + discriminate.
  - apply (Parameter_new_index (mkFunctionParams [5; 6] None) 7 "this").
    + apply (bool_decide_unpack _). reflexivity.
    + reflexivity.
Defined.
